(** * BusTub storage core: extendible hash table, LRU-K replacer, buffer pool

    A shallow embedding of
      - src/container/hash/extendible_hash_table.cpp,
      - src/buffer/lru_k_replacer.cpp,
      - src/buffer/buffer_pool_manager_instance.cpp,
    followed by the properties of the specification that concern them and
    by further properties of the same code.

    Conventions of the embedding.
      - A member function that mutates [this] takes the object and returns
        the new object next to its return value.
      - A call ends in one of four ways, see [outcome]: it returns; an
        exception leaves it; its behaviour is undefined (an index outside an
        array, a variable read before it is written, overflow of an [int]);
        or the split loop of the hash table is still running when the bound
        on the number of splits is reached.
      - [std::shared_ptr<Bucket>] is an address into a store of buckets, so
        that [dir_[i] == target_bucket] is comparison of addresses.  A bucket
        no directory slot points to stays in the store, out of reach.
      - [std::unordered_map] is a [gmap]; [operator[]] on a missing key
        inserts the default value, and the embedding writes that out.
      - [std::list] is a list; [remove] erases every occurrence of a value,
        [erase] the node of an iterator.
      - Hash values, directory indices and depths are natural numbers.  The
        code keeps them in [size_t] and [int], which they fit as long as a
        directory of [2 ^ global_depth] pointers fits in memory.
      - [size_t] counters that the code decrements are integers modulo 2^64;
        frame ids and page ids are integers, the casts and the increments of
        the code written out.
      - Each public call runs alone, from taking its latch to releasing it,
        so that latches are no part of the state.  The one call the code
        makes with the latch held, in [FlushAllPgsImp], is written out. *)

From Stdlib Require Import ZArith Lia List Bool PeanoNat.
From stdpp Require Import base numbers option list gmap.

Set Warnings "-clear-no-such-hyp".

(** ** Outcomes of a call *)

Inductive outcome (A : Type) : Type :=
| Done (a : A)
| Thrown
| Undefined
| Unfinished.

Arguments Done {A} a.
Arguments Thrown {A}.
Arguments Undefined {A}.
Arguments Unfinished {A}.

#[global] Instance outcome_ret : MRet outcome := @Done.

#[global] Instance outcome_bind : MBind outcome :=
  fun A B (f : A -> outcome B) (m : outcome A) =>
    match m with
    | Done a => f a
    | Thrown => Thrown
    | Undefined => Undefined
    | Unfinished => Unfinished
    end.

(** ** Extendible hash table *)

Module ExtendibleHashTable.

Section defs.
Context {K V : Type} `{EqDecision K} `{EqDecision V}.

(** [std::hash<K>()]; the directory index and the split bit are taken from
    its value. *)
Variable hash : K -> nat.

Record Bucket : Type := mkBucket {
  size_ : nat;
  depth_ : nat;
  list_ : list (K * V)
}.

(** Modelled from the spec: [Bucket::IsFull] is declared in the header
    extendible_hash_table.h, which is not among the sources.  The spec gives a
    bucket a capacity [bucket_size] and calls it full when it has no room;
    the bucket is full when it holds as many entries as its capacity. *)
Definition IsFull (b : Bucket) : bool := length (list_ b) =? size_ b.

Definition GetItems (b : Bucket) : list (K * V) := list_ b.

Definition GetDepth (b : Bucket) : nat := depth_ b.

(** [Bucket::Find]: [std::any_of] stops at the first entry with the key. *)
Definition Bucket_Find (b : Bucket) (key : K) : option V :=
  snd <$> List.find (fun item => bool_decide (item.1 = key)) (list_ b).

(** [Bucket::Remove]: at the first entry with the key, [list_.remove(item)]
    erases every entry equal to it. *)
Definition Bucket_Remove (b : Bucket) (key : K) : Bucket * bool :=
  match List.find (fun item => bool_decide (item.1 = key)) (list_ b) with
  | Some item =>
      (mkBucket (size_ b) (depth_ b) (filter (fun x => x <> item) (list_ b)), true)
  | None => (b, false)
  end.

Definition Bucket_Insert (b : Bucket) (key : K) (value : V) : Bucket * bool :=
  if IsFull b then (b, false)
  else (mkBucket (size_ b) (depth_ b) (list_ b ++ [(key, value)]), true).

Record Table : Type := mkTable {
  global_depth_ : nat;
  bucket_size_ : nat;
  num_buckets_ : nat;
  dir_ : list nat;
  store_ : list Bucket
}.

(** The constructor: one bucket of depth 0, at address 0. *)
Definition new (bucket_size : nat) : Table :=
  mkTable 0 bucket_size 1 [0] [mkBucket bucket_size 0 []].

Definition IndexOf (t : Table) (key : K) : nat :=
  let mask := Nat.shiftl 1 (global_depth_ t) - 1 in
  Nat.land (hash key) mask.

(** [dir_[i]] followed through the pointer. *)
Definition bucket_at (t : Table) (i : nat) : outcome (nat * Bucket) :=
  match dir_ t !! i with
  | None => Undefined
  | Some p =>
      match store_ t !! p with
      | None => Undefined
      | Some b => Done (p, b)
      end
  end.

Definition Find (t : Table) (key : K) : outcome (Table * option V) :=
  '(_, target_bucket) ← bucket_at t (IndexOf t key);
  Done (t, Bucket_Find target_bucket key).

Definition Remove (t : Table) (key : K) : outcome (Table * bool) :=
  '(p, target_bucket) ← bucket_at t (IndexOf t key);
  let '(b, r) := Bucket_Remove target_bucket key in
  Done (mkTable (global_depth_ t) (bucket_size_ t) (num_buckets_ t)
          (dir_ t) (<[p := b]> (store_ t)), r).

(** The loop over the items of the old bucket, lines 114-121. *)
Fixpoint redistribute (mask : nat) (items : list (K * V))
    (bucket_0 bucket_1 : Bucket) : Bucket * Bucket :=
  match items with
  | [] => (bucket_0, bucket_1)
  | item :: rest =>
      let hashcode := hash item.1 in
      if Nat.land hashcode mask =? 0
      then redistribute mask rest (Bucket_Insert bucket_0 item.1 item.2).1 bucket_1
      else redistribute mask rest bucket_0 (Bucket_Insert bucket_1 item.1 item.2).1
  end.

(** The loop over the directory, lines 125-133: [p] is the address of the
    old bucket, [p0] and [p1] those of the two new ones. *)
Definition rewire (mask p p0 p1 : nat) (dir : list nat) : list nat :=
  imap (fun i q => if q =? p then (if Nat.land i mask =? 0 then p0 else p1) else q) dir.

(** One iteration of the [while] loop of [Insert], lines 97-133. *)
Definition split (t : Table) (key : K) : outcome Table :=
  '(p, target_bucket) ← bucket_at t (IndexOf t key);
  let grow := GetDepth target_bucket =? global_depth_ t in
  let global_depth := if grow then S (global_depth_ t) else global_depth_ t in
  let dir := if grow then dir_ t ++ dir_ t else dir_ t in
  let bucket_0 := mkBucket (bucket_size_ t) (GetDepth target_bucket + 1) [] in
  let bucket_1 := mkBucket (bucket_size_ t) (GetDepth target_bucket + 1) [] in
  let mask := Nat.shiftl 1 (GetDepth target_bucket) in
  let '(bucket_0, bucket_1) :=
    redistribute mask (GetItems target_bucket) bucket_0 bucket_1 in
  let p0 := length (store_ t) in
  let p1 := S (length (store_ t)) in
  Done (mkTable global_depth (bucket_size_ t) (S (num_buckets_ t))
          (rewire mask p p0 p1 dir) (store_ t ++ [bucket_0; bucket_1])).

(** The [while] loop of [Insert]; [fuel] bounds the number of splits that
    are followed, and the loop is [Unfinished] when the bound is reached
    with the target bucket still full. *)
Fixpoint split_loop (fuel : nat) (t : Table) (key : K) : outcome Table :=
  '(_, target_bucket) ← bucket_at t (IndexOf t key);
  if IsFull target_bucket then
    match fuel with
    | 0 => Unfinished
    | S fuel' => t' ← split t key; split_loop fuel' t' key
    end
  else Done t.

(** The loop of lines 138-143: the first entry with the key gets the value. *)
Fixpoint assign (items : list (K * V)) (key : K) (value : V) : option (list (K * V)) :=
  match items with
  | [] => None
  | item :: rest =>
      if bool_decide (item.1 = key) then Some ((item.1, value) :: rest)
      else cons item <$> assign rest key value
  end.

(** Lines 136-145, after the loop. *)
Definition store_entry (t : Table) (key : K) (value : V) : outcome Table :=
  '(p, target_bucket) ← bucket_at t (IndexOf t key);
  let b :=
    match assign (GetItems target_bucket) key value with
    | Some items => mkBucket (size_ target_bucket) (depth_ target_bucket) items
    | None => (Bucket_Insert target_bucket key value).1
    end in
  Done (mkTable (global_depth_ t) (bucket_size_ t) (num_buckets_ t)
          (dir_ t) (<[p := b]> (store_ t))).

Definition Insert (fuel : nat) (t : Table) (key : K) (value : V) : outcome Table :=
  t' ← split_loop fuel t key; store_entry t' key value.

(** *** States and invariants *)

(** The states the public operations lead to from a fresh table. *)
Inductive reachable : Table -> Prop :=
| reachable_new bucket_size : reachable (new bucket_size)
| reachable_Insert fuel t key value t' :
    reachable t -> Insert fuel t key value = Done t' -> reachable t'
| reachable_Remove t key t' r :
    reachable t -> Remove t key = Done (t', r) -> reachable t'
| reachable_Find t key t' r :
    reachable t -> Find t key = Done (t', r) -> reachable t'.

(** The same states, and those in between two iterations of the [while] loop
    of [Insert]: an iteration runs when the target bucket of the key is
    full, the entry is stored when it is not. *)
Inductive stepwise : Table -> Prop :=
| stepwise_new bucket_size : stepwise (new bucket_size)
| stepwise_split t key p target_bucket t' :
    stepwise t ->
    bucket_at t (IndexOf t key) = Done (p, target_bucket) ->
    IsFull target_bucket = true ->
    split t key = Done t' -> stepwise t'
| stepwise_store t key value p target_bucket t' :
    stepwise t ->
    bucket_at t (IndexOf t key) = Done (p, target_bucket) ->
    IsFull target_bucket = false ->
    store_entry t key value = Done t' -> stepwise t'
| stepwise_Remove t key t' r :
    stepwise t -> Remove t key = Done (t', r) -> stepwise t'.

(** The buckets the directory points to, each once, and their entries. *)
Definition live (t : Table) : list nat := remove_dups (dir_ t).

Definition items_at (t : Table) (p : nat) : list (K * V) :=
  from_option list_ [] (store_ t !! p).

Definition entries (t : Table) : list (K * V) :=
  p ← live t; items_at t p.

(** The invariant of the directory: its length; what every slot points to;
    which slots share a bucket. *)
Record table_inv (t : Table) : Prop := {
  inv_length : length (dir_ t) = 2 ^ global_depth_ t;
  inv_bucket : forall i p, dir_ t !! i = Some p ->
    exists b, store_ t !! p = Some b /\
      depth_ b <= global_depth_ t /\
      size_ b = bucket_size_ t /\
      length (list_ b) <= size_ b /\
      forall item, item ∈ list_ b ->
        hash item.1 mod 2 ^ depth_ b = i mod 2 ^ depth_ b;
  inv_share : forall i j p q b,
    dir_ t !! i = Some p -> dir_ t !! j = Some q -> store_ t !! p = Some b ->
    (p = q <-> i mod 2 ^ depth_ b = j mod 2 ^ depth_ b)
}.

(** Every value stored in the table satisfies [P]. *)
Definition values_in (P : V -> Prop) (t : Table) : Prop :=
  forall b item, b ∈ store_ t -> item ∈ list_ b -> P item.2.

(** Each bucket the directory points to holds a key at most once. *)
Definition keys_inv (t : Table) : Prop :=
  forall i p b, dir_ t !! i = Some p -> store_ t !! p = Some b -> NoDup (list_ b).*1.

(** *** The accessors *)

Definition GetGlobalDepth (t : Table) : nat := global_depth_ t.


Definition GetNumBuckets (t : Table) : nat := num_buckets_ t.

(** *** One split in closed form *)

(** The split bit of the hash of an entry is clear. *)
Definition bit0 (d : nat) (item : K * V) : Prop :=
  Nat.testbit (hash item.1) d = false.

#[global] Instance bit0_dec d item : Decision (bit0 d item) := bool_eq_dec _ _.

(** The entry goes to the same side of a split as the key. *)
Definition same_side (d : nat) (key : K) (item : K * V) : Prop :=
  Nat.testbit (hash item.1) d = Nat.testbit (hash key) d.

#[global] Instance same_side_dec d key item : Decision (same_side d key item) :=
  bool_eq_dec _ _.

Definition grown_depth (t : Table) (b : Bucket) : nat :=
  if depth_ b =? global_depth_ t then S (global_depth_ t) else global_depth_ t.

Definition grown_dir (t : Table) (b : Bucket) : list nat :=
  if depth_ b =? global_depth_ t then dir_ t ++ dir_ t else dir_ t.

Definition relink (d p p0 p1 i q : nat) : nat :=
  if q =? p then (if Nat.testbit i d then p1 else p0) else q.

(** The table after the split of the bucket [b] at address [p]. *)
Definition split_of (t : Table) (p : nat) (b : Bucket) : Table :=
  mkTable (grown_depth t b) (bucket_size_ t) (S (num_buckets_ t))
    (imap (relink (depth_ b) p (length (store_ t)) (S (length (store_ t)))) (grown_dir t b))
    (store_ t ++
       [mkBucket (bucket_size_ t) (depth_ b + 1) (filter (bit0 (depth_ b)) (list_ b));
        mkBucket (bucket_size_ t) (depth_ b + 1)
          (filter (fun item => ~ bit0 (depth_ b) item) (list_ b))]).

(** The table with the bucket at address [p] replaced, as [store_entry] and
    [Remove] leave it. *)
Definition with_bucket (t : Table) (p : nat) (b : Bucket) : Table :=
  mkTable (global_depth_ t) (bucket_size_ t) (num_buckets_ t) (dir_ t)
    (<[p := b]> (store_ t)).

End defs.

Arguments Bucket : clear implicits.
Arguments Table : clear implicits.

(** *** States of the examples: [int] keys, hashed by the identity *)

(** After [Insert(1, 7)] and [Insert(5, 7)] with buckets of two. *)
Definition two_keys : Table nat nat :=
  mkTable 0 2 1 [0] [mkBucket 2 0 [(1, 7); (5, 7)]].




End ExtendibleHashTable.

(** ** LRU-K replacer *)

Module LRUKReplacer.

#[local] Open Scope Z_scope.

(** [size_t] arithmetic. *)
Definition size_t_wrap (x : Z) : Z := x mod 2 ^ 64.

(** [static_cast<int>] of a [size_t]. *)
Definition to_int (x : Z) : Z := (x + 2 ^ 31) mod 2 ^ 32 - 2 ^ 31.

Record t : Type := mk {
  replacer_size_ : Z;
  k_ : Z;
  curr_size_ : Z;
  access_count_map_ : gmap Z Z;
  is_evictable_map : gmap Z bool;
  lru_list_ : list Z;
  lru_k_list_ : list Z
}.

Definition new (num_frames k : Z) : t := mk num_frames k 0 ∅ ∅ [] [].

(** [std::list::remove]: every element equal to the value goes. *)
Definition list_remove (x : Z) (l : list Z) : list Z := filter (fun y => y <> x) l.

(** The two [while] loops of [Evict]: [is_evictable_map[*p]] creates the
    entry [false] for a frame that has none.  The result is the map after
    the walk and the position and frame where the walk stopped. *)
Fixpoint scan (m : gmap Z bool) (l : list Z) (pos : nat) : gmap Z bool * option (nat * Z) :=
  match l with
  | [] => (m, None)
  | x :: rest =>
      match m !! x with
      | Some true => (m, Some (pos, x))
      | Some false => scan m rest (S pos)
      | None => scan (<[x := false]> m) rest (S pos)
      end
  end.

Definition Evict (r : t) : t * option Z :=
  if curr_size_ r =? 0 then (r, None)
  else
    let '(m1, hit1) := scan (is_evictable_map r) (lru_list_ r) 0%nat in
    match hit1 with
    | Some (pos, x) =>
        (mk (replacer_size_ r) (k_ r) (size_t_wrap (curr_size_ r - 1))
            (delete x (access_count_map_ r)) (delete x m1)
            (delete pos (lru_list_ r)) (lru_k_list_ r), Some x)
    | None =>
        let '(m2, hit2) := scan m1 (lru_k_list_ r) 0%nat in
        match hit2 with
        | Some (pos, x) =>
            (mk (replacer_size_ r) (k_ r) (size_t_wrap (curr_size_ r - 1))
                (delete x (access_count_map_ r)) (delete x m2)
                (lru_list_ r) (delete pos (lru_k_list_ r)), Some x)
        | None =>
            (mk (replacer_size_ r) (k_ r) (curr_size_ r)
                (access_count_map_ r) m2 (lru_list_ r) (lru_k_list_ r), None)
        end
    end.

Definition RecordAccess (r : t) (frame_id : Z) : outcome t :=
  if frame_id >? to_int (replacer_size_ r) then Thrown
  else
    let count := size_t_wrap (default 0 (access_count_map_ r !! frame_id) + 1) in
    let counts := <[frame_id := count]> (access_count_map_ r) in
    let '(lru, lru_k) :=
      if count =? 1 then (lru_list_ r ++ [frame_id], lru_k_list_ r)
      else if count <? k_ r then
        (list_remove frame_id (lru_list_ r) ++ [frame_id], lru_k_list_ r)
      else if count =? k_ r then
        (list_remove frame_id (lru_list_ r), lru_k_list_ r ++ [frame_id])
      else (lru_list_ r, list_remove frame_id (lru_k_list_ r) ++ [frame_id]) in
    Done (mk (replacer_size_ r) (k_ r) (curr_size_ r) counts
            (is_evictable_map r) lru lru_k).

Definition SetEvictable (r : t) (frame_id : Z) (set_evictable : bool) : outcome t :=
  if frame_id >? to_int (replacer_size_ r) then Thrown
  else
    (* lines 93-98; from here on the frame has an entry *)
    let '(m, size) :=
      match is_evictable_map r !! frame_id with
      | None =>
          (<[frame_id := set_evictable]> (is_evictable_map r),
           if set_evictable then size_t_wrap (curr_size_ r + 1) else curr_size_ r)
      | Some _ => (is_evictable_map r, curr_size_ r)
      end in
    (* lines 100-103 *)
    let '(m, size) :=
      if negb (default false (m !! frame_id)) && set_evictable
      then (<[frame_id := true]> m, size_t_wrap (size + 1))
      else (m, size) in
    (* lines 105-108 *)
    let '(m, size) :=
      if default false (m !! frame_id) && negb set_evictable
      then (<[frame_id := false]> m, size_t_wrap (size - 1))
      else (m, size) in
    Done (mk (replacer_size_ r) (k_ r) size (access_count_map_ r) m
            (lru_list_ r) (lru_k_list_ r)).

Definition Remove (r : t) (frame_id : Z) : outcome t :=
  if frame_id >? to_int (replacer_size_ r) then Thrown
  else
    match is_evictable_map r !! frame_id with
    | None =>
        Done (mk (replacer_size_ r) (k_ r) (curr_size_ r) (access_count_map_ r)
                (<[frame_id := false]> (is_evictable_map r))
                (lru_list_ r) (lru_k_list_ r))
    | Some false => Done r
    | Some true =>
        let access_count := default 0 (access_count_map_ r !! frame_id) in
        let '(lru, lru_k) :=
          if access_count <? k_ r
          then (list_remove frame_id (lru_list_ r), lru_k_list_ r)
          else (lru_list_ r, list_remove frame_id (lru_k_list_ r)) in
        let count := size_t_wrap (access_count - 1) in
        let counts :=
          if count =? 0 then delete frame_id (access_count_map_ r)
          else <[frame_id := count]> (access_count_map_ r) in
        Done (mk (replacer_size_ r) (k_ r) (size_t_wrap (curr_size_ r - 1)) counts
                (is_evictable_map r) lru lru_k)
    end.

Definition Size (r : t) : Z := curr_size_ r.

(** The per-frame flag the replacer keeps. *)
Definition evictable (r : t) (frame_id : Z) : Prop :=
  is_evictable_map r !! frame_id = Some true.

(** A frame the replacer has any record of. *)
Definition tracked (r : t) (frame_id : Z) : Prop :=
  is_Some (access_count_map_ r !! frame_id) \/
  is_Some (is_evictable_map r !! frame_id) \/
  frame_id ∈ lru_list_ r \/ frame_id ∈ lru_k_list_ r.

Definition in_lists (r : t) (frame_id : Z) : Prop :=
  frame_id ∈ lru_list_ r \/ frame_id ∈ lru_k_list_ r.

(** The first frame of a list that is flagged evictable, with its position:
    what the specification has [Evict] look for. *)
Fixpoint first_evictable (m : gmap Z bool) (l : list Z) (pos : nat) : option (nat * Z) :=
  match l with
  | [] => None
  | x :: rest =>
      if bool_decide (m !! x = Some true) then Some (pos, x)
      else first_evictable m rest (S pos)
  end.


(** [Size] is a [size_t]. *)
Definition size_ok (r : t) : Prop := 0 <= curr_size_ r < 2 ^ 64.

(** What [access_count_map_[frame_id]] reads: 0 for a frame without entry. *)
Definition access_count (r : t) (frame_id : Z) : Z :=
  default 0 (access_count_map_ r !! frame_id).

(** The shape of the two lists: a frame has at most one node in them; the
    history list holds frames with fewer than k accesses, the cache list
    frames with k or more; no access count is kept at 0. *)
Definition lists_ok (r : t) : Prop :=
  NoDup (lru_list_ r ++ lru_k_list_ r) /\
  Forall (fun f => 1 <= access_count r f < k_ r) (lru_list_ r) /\
  Forall (fun f => k_ r <= access_count r f) (lru_k_list_ r) /\
  map_Forall (fun _ c => 1 <= c) (access_count_map_ r).

#[global] Instance lists_ok_dec (r : t) : Decision (lists_ok r).
Proof. unfold lists_ok. apply _. Defined.

(** The number of frames flagged evictable. *)
Definition evictable_count (r : t) : Z :=
  Z.of_nat (size (filter (fun e : Z * bool => e.2 = true) (is_evictable_map r))).

(** [Size] is that number, as a [size_t]. *)
Definition size_counts (r : t) : Prop :=
  curr_size_ r = size_t_wrap (evictable_count r).

(** *** States of the examples *)

(** Frame 1 accessed twice with k = 2 and made evictable. *)
Definition cached_frame : t :=
  mk 7 2 1 {[1 := 2]} {[1 := true]} [] [1].

(** Frame 2 accessed once, never made evictable. *)
Definition pinned_frame : t :=
  mk 7 2 0 {[2 := 1]} ∅ [2] [].


End LRUKReplacer.

(** ** Buffer pool manager *)

Module BufferPoolManagerInstance.

#[local] Open Scope Z_scope.

(** Modelled from the spec: the constants and the [Page] class come from
    headers that are not among the sources (common/config.h,
    storage/page/page.h).  The spec gives the sentinel [INVALID_PAGE_ID] as
    -1, the page size as 4096, and a frame as a byte buffer with the resident
    page id, a pin count and a dirty flag; [ResetMemory] zeroes the buffer. *)
Definition INVALID_PAGE_ID : Z := -1.

Definition BUSTUB_PAGE_SIZE : nat := 4096.

Record Page : Type := mkPage {
  data_ : list Byte.byte;
  page_id_ : Z;
  pin_count_ : Z;
  is_dirty_ : bool
}.

Definition zeroed : list Byte.byte := replicate BUSTUB_PAGE_SIZE Byte.x00.

Definition ResetMemory (pg : Page) : Page :=
  mkPage zeroed (page_id_ pg) (pin_count_ pg) (is_dirty_ pg).

Definition GetPinCount (pg : Page) : Z := pin_count_ pg.

Definition GetPageId (pg : Page) : Z := page_id_ pg.

Definition IsDirty (pg : Page) : bool := is_dirty_ pg.

Definition GetData (pg : Page) : list Byte.byte := data_ pg.

Definition INT_MAX : Z := 2 ^ 31 - 1.

Definition INT_MIN : Z := - 2 ^ 31.

(** [page_id_t] arithmetic of the atomic counter [next_page_id_]. *)
Definition int_wrap (x : Z) : Z := (x + 2 ^ 31) mod 2 ^ 32 - 2 ^ 31.

(** [std::hash<page_id_t>]: the conversion of the [int] to [size_t]. *)
Definition hash_page_id (page_id : Z) : nat := Z.to_nat (page_id mod 2 ^ 64).

(** Modelled from the spec: the disk manager is an external collaborator with
    the interface [ReadPage], [WritePage], synchronous and total.  It is a map
    from page ids to page images; a page never written reads as zeroes. *)
Definition WritePage (disk : gmap Z (list Byte.byte)) (page_id : Z) (data : list Byte.byte)
    : gmap Z (list Byte.byte) :=
  <[page_id := data]> disk.

Definition ReadPage (disk : gmap Z (list Byte.byte)) (page_id : Z) : list Byte.byte :=
  default zeroed (disk !! page_id).

(** The members of the class; [pool_size_] is the length of [pages_]. *)
Record t : Type := mk {
  pages_ : list Page;
  page_table_ : ExtendibleHashTable.Table Z Z;
  replacer_ : LRUKReplacer.t;
  free_list_ : list Z;
  next_page_id_ : Z;
  disk_manager_ : gmap Z (list Byte.byte)
}.

(** The constructor.  [bucket_size] is the constant [bucket_size_] of the
    header, [next_page_id_] starts at 0. *)
Definition new (pool_size : nat) (disk : gmap Z (list Byte.byte)) (replacer_k : Z)
    (bucket_size : nat) : t :=
  mk (replicate pool_size (mkPage zeroed INVALID_PAGE_ID 0 false))
     (ExtendibleHashTable.new bucket_size)
     (LRUKReplacer.new (Z.of_nat pool_size) replacer_k)
     (Z.of_nat <$> seq 0 pool_size)
     0
     disk.

(** [pages_[frame_id]], undefined outside the array. *)
Definition page_at (pages : list Page) (frame_id : Z) : outcome Page :=
  if frame_id <? 0 then Undefined
  else match pages !! Z.to_nat frame_id with
       | Some pg => Done pg
       | None => Undefined
       end.

Definition set_page (pages : list Page) (frame_id : Z) (pg : Page) : list Page :=
  <[Z.to_nat frame_id := pg]> pages.

(** The loop of lines 47-53 and 103-109. *)
Definition has_avail_frame (pages : list Page) : bool :=
  existsb (fun pg => GetPinCount pg =? 0) pages.

Section ops.

(** The bound on the number of splits followed inside one
    [page_table_->Insert]. *)
Variable fuel : nat.

Definition pt_Find := ExtendibleHashTable.Find (K:=Z) (V:=Z) hash_page_id.

Definition pt_Remove := ExtendibleHashTable.Remove (K:=Z) (V:=Z) hash_page_id.

Definition pt_Insert := ExtendibleHashTable.Insert (K:=Z) (V:=Z) hash_page_id fuel.

(** The return value is [None] for [nullptr], and otherwise the page id
    written through [page_id] with the frame whose address is returned. *)
Definition NewPgImp (s : t) : outcome (t * option (Z * Z)) :=
  if negb (has_avail_frame (pages_ s)) then Done (s, None)
  else
    (* AllocatePage *)
    let page_id := next_page_id_ s in
    let next_page_id := int_wrap (page_id + 1) in
    '(frame_id, pages, page_table, replacer, free_list, disk) ←
      match free_list_ s with
      | front :: rest =>
          Done (front, pages_ s, page_table_ s, replacer_ s, rest, disk_manager_ s)
      | [] =>
          let '(replacer, victim) := LRUKReplacer.Evict (replacer_ s) in
          match victim with
          | None => Undefined
          | Some frame_id =>
              pg ← page_at (pages_ s) frame_id;
              let evicted_page_id := GetPageId pg in
              let '(disk, pg) :=
                if IsDirty pg
                then (WritePage (disk_manager_ s) evicted_page_id (GetData pg),
                      mkPage (data_ pg) (page_id_ pg) (pin_count_ pg) false)
                else (disk_manager_ s, pg) in
              let pg := ResetMemory pg in
              '(page_table, _) ← pt_Remove (page_table_ s) evicted_page_id;
              Done (frame_id, set_page (pages_ s) frame_id pg, page_table, replacer,
                    [], disk)
          end
      end;
    page_table ← pt_Insert page_table page_id frame_id;
    pg ← page_at pages frame_id;
    let pages := set_page pages frame_id (mkPage (data_ pg) page_id 1 (is_dirty_ pg)) in
    replacer ← LRUKReplacer.RecordAccess replacer frame_id;
    replacer ← LRUKReplacer.SetEvictable replacer frame_id false;
    Done (mk pages page_table replacer free_list next_page_id disk,
          Some (page_id, frame_id)).

(** The return value is [None] for [nullptr], and otherwise the frame whose
    address is returned. *)
Definition FetchPgImp (s : t) (page_id : Z) : outcome (t * option Z) :=
  '(_, found) ← pt_Find (page_table_ s) page_id;
  match found with
  | Some frame_id =>
      pg ← page_at (pages_ s) frame_id;
      if pin_count_ pg =? INT_MAX then Undefined
      else
        let pages :=
          set_page (pages_ s) frame_id
            (mkPage (data_ pg) (page_id_ pg) (pin_count_ pg + 1) (is_dirty_ pg)) in
        replacer ← LRUKReplacer.RecordAccess (replacer_ s) frame_id;
        replacer ← LRUKReplacer.SetEvictable replacer frame_id false;
        Done (mk pages (page_table_ s) replacer (free_list_ s) (next_page_id_ s)
                (disk_manager_ s), Some frame_id)
  | None =>
      if negb (has_avail_frame (pages_ s)) then Done (s, None)
      else
        '(frame_id, pages, page_table, replacer, free_list, disk) ←
          match free_list_ s with
          | front :: rest =>
              Done (front, pages_ s, page_table_ s, replacer_ s, rest, disk_manager_ s)
          | [] =>
              let '(replacer, victim) := LRUKReplacer.Evict (replacer_ s) in
              match victim with
              | None => Undefined
              | Some frame_id =>
                  pg ← page_at (pages_ s) frame_id;
                  let evicted_page_id := GetPageId pg in
                  let '(disk, pg) :=
                    if IsDirty pg
                    then (WritePage (disk_manager_ s) evicted_page_id (GetData pg),
                          mkPage (data_ pg) (page_id_ pg) (pin_count_ pg) false)
                    else (disk_manager_ s, pg) in
                  '(page_table, _) ← pt_Remove (page_table_ s) evicted_page_id;
                  let pg := ResetMemory pg in
                  Done (frame_id, set_page (pages_ s) frame_id pg, page_table, replacer,
                        [], disk)
              end
          end;
        page_table ← pt_Insert page_table page_id frame_id;
        pg ← page_at pages frame_id;
        let pg := mkPage (data_ pg) page_id 1 (is_dirty_ pg) in
        replacer ← LRUKReplacer.RecordAccess replacer frame_id;
        replacer ← LRUKReplacer.SetEvictable replacer frame_id false;
        let pg := mkPage (ReadPage disk page_id) (page_id_ pg) (pin_count_ pg) (is_dirty_ pg) in
        Done (mk (set_page pages frame_id pg) page_table replacer free_list
                (next_page_id_ s) disk, Some frame_id)
  end.

Definition UnpinPgImp (s : t) (page_id : Z) (is_dirty : bool) : outcome (t * bool) :=
  '(_, found) ← pt_Find (page_table_ s) page_id;
  match found with
  | None => Done (s, false)
  | Some frame_id =>
      pg ← page_at (pages_ s) frame_id;
      if GetPinCount pg =? 0 then Done (s, false)
      else
        let dirty := if is_dirty then is_dirty else is_dirty_ pg in
        if pin_count_ pg =? INT_MIN then Undefined
        else
          let pg := mkPage (data_ pg) (page_id_ pg) (pin_count_ pg - 1) dirty in
          replacer ←
            (if pin_count_ pg =? 0
             then LRUKReplacer.SetEvictable (replacer_ s) frame_id true
             else Done (replacer_ s));
          Done (mk (set_page (pages_ s) frame_id pg) (page_table_ s) replacer
                  (free_list_ s) (next_page_id_ s) (disk_manager_ s), true)
  end.

Definition FlushPgImp (s : t) (page_id : Z) : outcome (t * bool) :=
  '(_, found) ← pt_Find (page_table_ s) page_id;
  match found with
  | None => Done (s, false)
  | Some frame_id =>
      pg ← page_at (pages_ s) frame_id;
      let disk := WritePage (disk_manager_ s) page_id (GetData pg) in
      let pg := mkPage (data_ pg) (page_id_ pg) (pin_count_ pg) false in
      Done (mk (set_page (pages_ s) frame_id pg) (page_table_ s) (replacer_ s)
              (free_list_ s) (next_page_id_ s) disk, true)
  end.

Definition DeletePgImp (s : t) (page_id : Z) : outcome (t * bool) :=
  '(_, found) ← pt_Find (page_table_ s) page_id;
  match found with
  | None => Done (s, true)
  | Some frame_id =>
      pg ← page_at (pages_ s) frame_id;
      if GetPinCount pg >? 0 then Done (s, false)
      else
        let '(disk, pg) :=
          if IsDirty pg
          then (WritePage (disk_manager_ s) page_id (GetData pg),
                mkPage (data_ pg) (page_id_ pg) (pin_count_ pg) false)
          else (disk_manager_ s, pg) in
        let pg := ResetMemory (mkPage (data_ pg) INVALID_PAGE_ID 0 (is_dirty_ pg)) in
        let free_list := free_list_ s ++ [frame_id] in
        '(page_table, _) ← pt_Remove (page_table_ s) page_id;
        replacer ← LRUKReplacer.Remove (replacer_ s) frame_id;
        Done (mk (set_page (pages_ s) frame_id pg) page_table replacer free_list
                (next_page_id_ s) disk, true)
  end.

(** The frame for a new resident, lines 64-78 and 116-131: the head of the
    free list, or the victim of the replacer with its page written back and
    taken out of the page table. *)
Definition make_room (s : t)
    : outcome (Z * list Page * ExtendibleHashTable.Table Z Z * LRUKReplacer.t *
               list Z * gmap Z (list Byte.byte)) :=
  match free_list_ s with
  | front :: rest =>
      Done (front, pages_ s, page_table_ s, replacer_ s, rest, disk_manager_ s)
  | [] =>
      let '(replacer, victim) := LRUKReplacer.Evict (replacer_ s) in
      match victim with
      | None => Undefined
      | Some frame_id =>
          pg ← page_at (pages_ s) frame_id;
          let evicted_page_id := GetPageId pg in
          let '(disk, pg) :=
            if IsDirty pg
            then (WritePage (disk_manager_ s) evicted_page_id (GetData pg),
                  mkPage (data_ pg) (page_id_ pg) (pin_count_ pg) false)
            else (disk_manager_ s, pg) in
          let pg := ResetMemory pg in
          '(page_table, _) ← pt_Remove (page_table_ s) evicted_page_id;
          Done (frame_id, set_page (pages_ s) frame_id pg, page_table, replacer,
                [], disk)
      end
  end.

(** [n] calls of [NewPage] in a row, with what each returns. *)
Definition new_pages (n : nat) (s : t) : outcome (t * list (option (Z * Z))) :=
  Nat.iter n
    (fun acc => '(s, rets) ← acc; '(s, ret) ← NewPgImp s; Done (s, rets ++ [ret]))
    (Done (s, [])).

End ops.

(** *** States and invariants *)

(** The states the public operations lead to from a fresh pool.  The pool
    size fits an [int], as the replacer casts it to one. *)
Inductive reachable : t -> Prop :=
| reachable_new pool_size disk replacer_k bucket_size :
    Z.of_nat pool_size <= INT_MAX ->
    reachable (new pool_size disk replacer_k bucket_size)
| reachable_NewPage fuel s s' r :
    reachable s -> NewPgImp fuel s = Done (s', r) -> reachable s'
| reachable_FetchPage fuel s page_id s' r :
    reachable s -> FetchPgImp fuel s page_id = Done (s', r) -> reachable s'
| reachable_UnpinPage s page_id is_dirty s' r :
    reachable s -> UnpinPgImp s page_id is_dirty = Done (s', r) -> reachable s'
| reachable_FlushPage s page_id s' r :
    reachable s -> FlushPgImp s page_id = Done (s', r) -> reachable s'
| reachable_DeletePage s page_id s' r :
    reachable s -> DeletePgImp s page_id = Done (s', r) -> reachable s'.

Definition frame_ok (pages : list Page) (frame_id : Z) : Prop :=
  0 <= frame_id < Z.of_nat (length pages).

(** The replacer's flag of a frame. *)
Definition flag (s : t) (frame_id : Z) : option bool :=
  LRUKReplacer.is_evictable_map (replacer_ s) !! frame_id.

(** What holds between two calls: the page table is well formed and maps to
    frames of the pool that the replacer has a flag for, as have the frames
    of the replacer's lists; the free list holds frames of the pool; and a
    frame is pinned exactly when its flag is [false]. *)
Record bpm_inv (s : t) : Prop := {
  inv_table : ExtendibleHashTable.table_inv hash_page_id (page_table_ s);
  inv_frames :
    ExtendibleHashTable.values_in
      (fun f => frame_ok (pages_ s) f /\ is_Some (flag s f)) (page_table_ s);
  inv_free : forall f, f ∈ free_list_ s -> frame_ok (pages_ s) f;
  inv_lists : forall f, LRUKReplacer.in_lists (replacer_ s) f ->
    frame_ok (pages_ s) f /\ is_Some (flag s f);
  inv_size :
    LRUKReplacer.to_int (LRUKReplacer.replacer_size_ (replacer_ s)) =
    Z.of_nat (length (pages_ s));
  inv_curr : LRUKReplacer.size_ok (replacer_ s);
  inv_pins : forall f pg, page_at (pages_ s) f = Done pg ->
    0 <= pin_count_ pg /\
    (pin_count_ pg <> 0 <-> flag s f = Some false) /\
    (page_id_ pg <> INVALID_PAGE_ID -> is_Some (flag s f))
}.

(** The page of a frame on the free list, as the constructor and
    [DeletePgImp] leave it. *)
Definition free_page : Page := mkPage zeroed INVALID_PAGE_ID 0 false.

(** The frame a page table has for a page id. *)
Definition found_in (page_table : ExtendibleHashTable.Table Z Z) (page_id : Z) : option Z :=
  match pt_Find page_table page_id with
  | Done (_, found) => found
  | _ => None
  end.

Definition frame_of (s : t) (page_id : Z) : option Z :=
  found_in (page_table_ s) page_id.

(** Page table, frames and free list agree: the page table holds a page id
    once; the frame it gives for a page id holds that page and is not on the
    free list; the free list has no frame twice, and its frames hold no
    page. *)
Record pool_consistent (s : t) : Prop := {
  pc_keys : ExtendibleHashTable.keys_inv (page_table_ s);
  pc_resident : forall page_id f, frame_of s page_id = Some f ->
    (f ∉ free_list_ s) /\
    exists pg, page_at (pages_ s) f = Done pg /\ page_id_ pg = page_id;
  pc_free : forall f, f ∈ free_list_ s -> page_at (pages_ s) f = Done free_page;
  pc_nodup : NoDup (free_list_ s)
}.



(** The states reached without [DeletePage]. *)
Inductive reachable_without_Delete : t -> Prop :=
| without_Delete_new pool_size disk replacer_k bucket_size :
    Z.of_nat pool_size <= INT_MAX ->
    reachable_without_Delete (new pool_size disk replacer_k bucket_size)
| without_Delete_NewPage fuel s s' r :
    reachable_without_Delete s -> NewPgImp fuel s = Done (s', r) ->
    reachable_without_Delete s'
| without_Delete_FetchPage fuel s page_id s' r :
    reachable_without_Delete s -> FetchPgImp fuel s page_id = Done (s', r) ->
    reachable_without_Delete s'
| without_Delete_UnpinPage s page_id is_dirty s' r :
    reachable_without_Delete s -> UnpinPgImp s page_id is_dirty = Done (s', r) ->
    reachable_without_Delete s'
| without_Delete_FlushPage s page_id s' r :
    reachable_without_Delete s -> FlushPgImp s page_id = Done (s', r) ->
    reachable_without_Delete s'.

(** What [Evict] needs to find a victim: [Size] is the number of frames
    flagged evictable, only frames of the pool have a flag, every frame that
    is not on the free list is in one of the lists of the replacer, and the
    pool size fits an [int]. *)
Record evict_ready (s : t) : Prop := {
  er_size : LRUKReplacer.size_counts (replacer_ s);
  er_flags : forall f, is_Some (flag s f) -> frame_ok (pages_ s) f;
  er_lists : forall f, frame_ok (pages_ s) f -> f ∉ free_list_ s ->
    LRUKReplacer.in_lists (replacer_ s) f;
  er_pool : Z.of_nat (length (pages_ s)) <= INT_MAX
}.

(** *** [FlushAllPgsImp] *)

(** [FlushPgImp] called with [latch_] free or held by the caller: its first
    statement is [std::lock_guard<std::mutex> lock(latch_)], and to lock a
    [std::mutex] that the calling thread owns is undefined. *)
Definition FlushPgImp_latched (held : bool) (s : t) (page_id : Z) : outcome (t * bool) :=
  if held then Undefined else FlushPgImp s page_id.

(** The loop of lines 189-195 for [n] frames from frame [i] on; it runs with
    [latch_] held since line 188. *)
Fixpoint flush_from (n i : nat) (s : t) : outcome t :=
  match n with
  | O => Done s
  | S n =>
      pg ← page_at (pages_ s) (Z.of_nat i);
      if GetPageId pg =? INVALID_PAGE_ID then flush_from n (S i) s
      else '(s, _) ← FlushPgImp_latched true s (GetPageId pg); flush_from n (S i) s
  end.

Definition FlushAllPgsImp (s : t) : outcome t :=
  flush_from (length (pages_ s)) 0 s.

(** *** State of the examples *)

(** A pool of two frames after one [NewPage]. *)
Definition one_page : t :=
  mk [mkPage zeroed 0 1 false; mkPage zeroed INVALID_PAGE_ID 0 false]
     (ExtendibleHashTable.mkTable 0 4 1 [0%nat]
        [ExtendibleHashTable.mkBucket 4 0 [(0, 0)]])
     (LRUKReplacer.mk 2 2 0 {[0 := 1]} {[0 := false]} [0] [])
     [1] 1 ∅.

End BufferPoolManagerInstance.

(** * Proofs *)

(** ** Extendible hash table *)

Module HashTableProps.
Import ExtendibleHashTable.

(** *** Bits of directory indices and hashes *)

Lemma land_mask_mod (h g : nat) : Nat.land h (Nat.shiftl 1 g - 1) = h mod 2 ^ g.
Proof.
  rewrite Nat.shiftl_1_l. rewrite <- Nat.land_ones. f_equal.
  unfold Nat.ones. rewrite Nat.shiftl_1_l. lia.
Qed.

Lemma land_bit (i d : nat) :
  (Nat.land i (Nat.shiftl 1 d) =? 0) = negb (Nat.testbit i d).
Proof.
  rewrite Nat.shiftl_1_l.
  destruct (Nat.testbit i d) eqn:Hb; simpl.
  - apply Nat.eqb_neq. intros H.
    assert (Nat.testbit (Nat.land i (2 ^ d)) d = true) as Ht.
    { rewrite Nat.land_spec, Hb, Nat.pow2_bits_true. done. }
    rewrite H in Ht. rewrite Nat.bits_0 in Ht. done.
  - apply Nat.eqb_eq. apply Nat.bits_inj. intros m.
    rewrite Nat.land_spec, Nat.bits_0, Nat.pow2_bits_eqb.
    destruct (Nat.eqb_spec d m) as [->|]; [rewrite Hb|]; by rewrite ?andb_false_r.
Qed.

Lemma mod_pow2_eq_iff (d i j : nat) :
  i mod 2 ^ d = j mod 2 ^ d <-> forall m, m < d -> Nat.testbit i m = Nat.testbit j m.
Proof.
  split.
  - intros H m Hm.
    rewrite <- (Nat.mod_pow2_bits_low i d m), <- (Nat.mod_pow2_bits_low j d m) by done.
    by rewrite H.
  - intros H. apply Nat.bits_inj. intros m.
    destruct (Nat.lt_ge_cases m d).
    + rewrite !Nat.mod_pow2_bits_low by done. by apply H.
    + by rewrite !Nat.mod_pow2_bits_high.
Qed.

Lemma mod_pow2_succ (d i j : nat) :
  i mod 2 ^ S d = j mod 2 ^ S d <->
  i mod 2 ^ d = j mod 2 ^ d /\ Nat.testbit i d = Nat.testbit j d.
Proof.
  rewrite !mod_pow2_eq_iff. split.
  - intros H. split; [intros m Hm; apply H; lia | apply H; lia].
  - intros [H1 H2] m Hm. destruct (decide (m = d)) as [->|]; [done | apply H1; lia].
Qed.

Lemma mod_pow2_mod (d g i : nat) : d <= g -> (i mod 2 ^ g) mod 2 ^ d = i mod 2 ^ d.
Proof.
  intros Hd. apply mod_pow2_eq_iff. intros m Hm.
  apply Nat.mod_pow2_bits_low. lia.
Qed.

Lemma mod_pow2_le (d g i j : nat) :
  d <= g -> i mod 2 ^ g = j mod 2 ^ g -> i mod 2 ^ d = j mod 2 ^ d.
Proof.
  rewrite !mod_pow2_eq_iff. intros Hd H m Hm. apply H. lia.
Qed.

Lemma testbit_low (d i : nat) : Nat.testbit (i mod 2 ^ d) d = false.
Proof. by apply Nat.mod_pow2_bits_high. Qed.

Lemma testbit_add_pow2 (d i : nat) : i < 2 ^ d -> Nat.testbit (i + 2 ^ d) d = true.
Proof.
  intros Hi. rewrite Nat.testbit_eqb.
  replace (i + 2 ^ d) with (i + 1 * 2 ^ d) by lia.
  rewrite Nat.div_add by (apply Nat.pow_nonzero; lia).
  rewrite Nat.div_small by done. done.
Qed.

Lemma mod_add_pow2 (d i : nat) : (i + 2 ^ d) mod 2 ^ d = i mod 2 ^ d.
Proof.
  replace (i + 2 ^ d) with (i + 1 * 2 ^ d) by lia.
  apply Nat.Div0.mod_add.
Qed.

Section props.
Context {K V : Type} `{EqDecision K} `{EqDecision V}.
Variable hash : K -> nat.

#[local] Abbreviation Table := (Table K V).
#[local] Abbreviation Bucket := (Bucket K V).
#[local] Abbreviation IndexOf := (IndexOf hash).
#[local] Abbreviation split := (split hash).
#[local] Abbreviation table_inv := (table_inv hash).
#[local] Abbreviation bit0 := (bit0 (V:=V) hash).
#[local] Abbreviation same_side := (same_side (V:=V) hash).
#[local] Abbreviation split_of := (split_of (V:=V) hash).

Implicit Types (t : Table) (b : Bucket) (key : K).

Lemma bucket_at_Done t i p b :
  bucket_at t i = Done (p, b) <-> dir_ t !! i = Some p /\ store_ t !! p = Some b.
Proof.
  unfold bucket_at. destruct (dir_ t !! i) as [q|]; [|naive_solver].
  destruct (store_ t !! q) as [c|] eqn:Hq; naive_solver.
Qed.

Lemma IndexOf_mod t key : IndexOf t key = hash key mod 2 ^ global_depth_ t.
Proof. apply land_mask_mod. Qed.

Lemma IndexOf_lt t key : table_inv t -> IndexOf t key < length (dir_ t).
Proof.
  intros Hi. rewrite IndexOf_mod, (inv_length _ _ Hi).
  apply Nat.mod_upper_bound, Nat.pow_nonzero. lia.
Qed.

Lemma target_bucket_exists t key :
  table_inv t -> exists p b, bucket_at t (IndexOf t key) = Done (p, b).
Proof.
  intros Hi. destruct (lookup_lt_is_Some_2 _ _ (IndexOf_lt t key Hi)) as [p Hp].
  destruct (inv_bucket _ _ Hi _ _ Hp) as (b & Hb & _).
  exists p, b. by apply bucket_at_Done.
Qed.

Lemma redistribute_spec d n items l0 l1 :
  length l0 + length items <= n -> length l1 + length items <= n ->
  redistribute hash (Nat.shiftl 1 d) items (mkBucket n (d + 1) l0) (mkBucket n (d + 1) l1) =
  (mkBucket n (d + 1) (l0 ++ filter (bit0 d) items),
   mkBucket n (d + 1) (l1 ++ filter (fun item => ~ bit0 d item) items)).
Proof.
  revert l0 l1. induction items as [|item rest IH]; intros l0 l1 H0 H1; simpl in *.
  - by rewrite !app_nil_r.
  - rewrite land_bit. unfold Bucket_Insert, IsFull. simpl.
    destruct (Nat.testbit (hash item.1) d) eqn:Hb; simpl.
    + destruct (Nat.eqb_spec (length l1) n); [lia|]. simpl.
      rewrite IH by (rewrite ?length_app; simpl; lia).
      rewrite filter_cons_False by (unfold bit0; congruence).
      rewrite filter_cons_True by (unfold bit0; congruence).
      rewrite <- app_assoc. by destruct item.
    + destruct (Nat.eqb_spec (length l0) n); [lia|]. simpl.
      rewrite IH by (rewrite ?length_app; simpl; lia).
      rewrite filter_cons_True by done.
      rewrite filter_cons_False by (unfold bit0; intros ?; congruence).
      rewrite <- app_assoc. by destruct item.
Qed.

Lemma split_closed_form t key p b :
  bucket_at t (IndexOf t key) = Done (p, b) ->
  length (list_ b) <= bucket_size_ t ->
  split t key = Done (split_of t p b).
Proof.
  intros Hb Hlen. unfold split, ExtendibleHashTable.split. rewrite Hb. simpl.
  unfold GetDepth, GetItems.
  rewrite (redistribute_spec (depth_ b) (bucket_size_ t) (list_ b) [] []) by (simpl; lia).
  simpl. unfold split_of, grown_depth, grown_dir. do 2 f_equal.
  unfold rewire. apply imap_ext. intros i q _. unfold relink.
  rewrite land_bit. by destruct (Nat.testbit i (depth_ b)).
Qed.

Lemma grown_spec t b :
  table_inv t -> depth_ b <= global_depth_ t ->
  length (grown_dir t b) = 2 ^ grown_depth t b /\
  depth_ b < grown_depth t b /\
  global_depth_ t <= grown_depth t b /\
  forall i, i < 2 ^ grown_depth t b ->
    grown_dir t b !! i = dir_ t !! (i mod 2 ^ global_depth_ t).
Proof.
  intros Hi Hd. pose proof (inv_length _ _ Hi) as Hlen.
  unfold grown_dir, grown_depth.
  destruct (Nat.eqb_spec (depth_ b) (global_depth_ t)) as [Heq|Hne].
  - rewrite length_app, Hlen, Nat.pow_succ_r'. repeat split; try lia.
    intros i Hlt.
    destruct (Nat.lt_ge_cases i (2 ^ global_depth_ t)) as [Hlo|Hhi].
    + rewrite lookup_app_l by lia. by rewrite Nat.mod_small.
    + rewrite lookup_app_r by lia. f_equal. rewrite Hlen.
      replace i with ((i - 2 ^ global_depth_ t) + 1 * 2 ^ global_depth_ t) at 2 by lia.
      rewrite Nat.Div0.mod_add. rewrite Nat.mod_small; lia.
  - repeat split; try lia. intros i Hlt. by rewrite Nat.mod_small.
Qed.

Lemma split_of_lookup t p b i :
  dir_ (split_of t p b) !! i =
  relink (depth_ b) p (length (store_ t)) (S (length (store_ t))) i <$> grown_dir t b !! i.
Proof. simpl. apply list_lookup_imap. Qed.

Lemma split_of_slot t p b i p' :
  table_inv t -> depth_ b <= global_depth_ t ->
  dir_ (split_of t p b) !! i = Some p' ->
  exists q, dir_ t !! (i mod 2 ^ global_depth_ t) = Some q /\
    p' = relink (depth_ b) p (length (store_ t)) (S (length (store_ t))) i q.
Proof.
  intros Hi Hd Hp'. destruct (grown_spec t b Hi Hd) as (Hlen & _ & _ & Hlook).
  rewrite split_of_lookup in Hp'.
  destruct (grown_dir t b !! i) as [q|] eqn:Hq; [|done].
  exists q. split; [|by inversion Hp'].
  rewrite <- Hlook; [done|]. rewrite <- Hlen. by eapply lookup_lt_Some.
Qed.

Lemma split_of_store_old t p b q :
  q < length (store_ t) -> store_ (split_of t p b) !! q = store_ t !! q.
Proof. intros Hq. simpl. by rewrite lookup_app_l. Qed.

Lemma split_of_store_0 t p b :
  store_ (split_of t p b) !! length (store_ t) =
  Some (mkBucket (bucket_size_ t) (depth_ b + 1) (filter (bit0 (depth_ b)) (list_ b))).
Proof. simpl. rewrite lookup_app_r by lia. by rewrite Nat.sub_diag. Qed.

Lemma split_of_store_1 t p b :
  store_ (split_of t p b) !! S (length (store_ t)) =
  Some (mkBucket (bucket_size_ t) (depth_ b + 1)
          (filter (fun item => ~ bit0 (depth_ b) item) (list_ b))).
Proof.
  simpl. rewrite lookup_app_r by lia.
  by replace (S (length (store_ t)) - length (store_ t)) with 1 by lia.
Qed.

Lemma split_of_inv t i0 p b :
  table_inv t -> dir_ t !! i0 = Some p -> store_ t !! p = Some b ->
  table_inv (split_of t p b).
Proof.
  intros Hi Hp Hb.
  destruct (inv_bucket _ _ Hi _ _ Hp) as (b' & Hb' & Hd & Hsz & Hlen & Hkeys).
  assert (b' = b) as -> by congruence.
  destruct (grown_spec t b Hi Hd) as (Hglen & Hdlt & Hgle & Hlook).
  split.
  - simpl. by rewrite length_imap.
  - intros i p' Hp'.
    destruct (split_of_slot _ _ _ _ _ Hi Hd Hp') as (q & Hq & ->).
    destruct (inv_bucket _ _ Hi _ _ Hq) as (bq & Hbq & Hdq & Hszq & Hlenq & Hkeysq).
    unfold relink. destruct (Nat.eqb_spec q p) as [->|Hne].
    + assert (bq = b) as -> by congruence.
      destruct (Nat.testbit i (depth_ b)) eqn:Hbit.
      * eexists. split; [apply split_of_store_1|]. simpl.
        split; [lia|]. split; [done|]. split.
        { etrans; [apply length_filter|]. lia. }
        intros item [Hbit0 Hin]%list_elem_of_filter.
        rewrite Nat.add_1_r. apply mod_pow2_succ. split.
        -- rewrite (Hkeysq _ Hin). by apply mod_pow2_mod.
        -- unfold bit0 in Hbit0. rewrite Hbit. by destruct (Nat.testbit (hash item.1) (depth_ b)).
      * eexists. split; [apply split_of_store_0|]. simpl.
        split; [lia|]. split; [done|]. split.
        { etrans; [apply length_filter|]. lia. }
        intros item [Hbit0 Hin]%list_elem_of_filter.
        rewrite Nat.add_1_r. apply mod_pow2_succ. split.
        -- rewrite (Hkeysq _ Hin). by apply mod_pow2_mod.
        -- unfold bit0 in Hbit0. by rewrite Hbit.
    + exists bq. split.
      { rewrite split_of_store_old; [done|]. by eapply lookup_lt_Some. }
      simpl. split; [lia|]. split; [done|]. split; [done|].
      intros item Hin. rewrite (Hkeysq _ Hin). by apply mod_pow2_mod.
  - intros i j p' q' c Hp' Hq' Hc.
    destruct (split_of_slot _ _ _ _ _ Hi Hd Hp') as (qi & Hqi & ->).
    destruct (split_of_slot _ _ _ _ _ Hi Hd Hq') as (qj & Hqj & ->).
    pose proof (lookup_lt_Some _ _ _ Hb) as Hplt.
    destruct (inv_bucket _ _ Hi _ _ Hqi) as (bi & Hbi & Hdi & _).
    destruct (inv_bucket _ _ Hi _ _ Hqj) as (bj & Hbj & Hdj & _).
    pose proof (lookup_lt_Some _ _ _ Hbi) as Hilt.
    pose proof (lookup_lt_Some _ _ _ Hbj) as Hjlt.
    pose proof (inv_share _ _ Hi _ _ _ _ _ Hqi Hqj Hbi) as Hsh.
    rewrite !mod_pow2_mod in Hsh by done.
    unfold relink in *.
    destruct (Nat.eqb_spec qi p) as [Heqi|Hnei].
    + subst qi. assert (bi = b) as -> by congruence.
      assert (depth_ c = S (depth_ b)) as ->.
      { destruct (Nat.testbit i (depth_ b)).
        - rewrite split_of_store_1 in Hc. inversion Hc. simpl. lia.
        - rewrite split_of_store_0 in Hc. inversion Hc. simpl. lia. }
      rewrite mod_pow2_succ.
      destruct (Nat.eqb_spec qj p) as [Heqj|Hnej].
      * subst qj. destruct Hsh as [Hsh _]. specialize (Hsh eq_refl).
        destruct (Nat.testbit i (depth_ b)), (Nat.testbit j (depth_ b)); split; try done; try lia.
        all: intros [_ ?]; done.
      * split.
        -- destruct (Nat.testbit i (depth_ b)); lia.
        -- intros [Hag _]. destruct Hsh as [_ Hsh]. by specialize (Hsh Hag).
    + rewrite split_of_store_old in Hc by done.
      assert (bi = c) as -> by congruence.
      destruct (Nat.eqb_spec qj p) as [Heqj|Hnej].
      * subst qj. split.
        -- destruct (Nat.testbit j (depth_ b)); lia.
        -- intros Hag. destruct Hsh as [_ Hsh]. by specialize (Hsh Hag).
      * done.
Qed.

Lemma with_bucket_inv t i0 p b b' :
  table_inv t -> dir_ t !! i0 = Some p -> store_ t !! p = Some b ->
  depth_ b' = depth_ b -> size_ b' = size_ b ->
  length (list_ b') <= size_ b' ->
  (forall item, item ∈ list_ b' ->
     hash item.1 mod 2 ^ depth_ b = i0 mod 2 ^ depth_ b) ->
  table_inv (with_bucket t p b').
Proof.
  intros Hi Hp Hb Hd Hs Hlen Hkeys.
  pose proof (lookup_lt_Some _ _ _ Hb) as Hplt.
  split; simpl.
  - apply (inv_length _ _ Hi).
  - intros i q Hq.
    destruct (inv_bucket _ _ Hi _ _ Hq) as (bq & Hbq & Hdq & Hszq & Hlenq & Hkeysq).
    destruct (decide (q = p)) as [->|Hne].
    + assert (bq = b) as -> by congruence.
      exists b'. rewrite list_lookup_insert_eq by done.
      split; [done|]. rewrite Hd, Hs. split; [done|]. split; [done|].
      split; [by rewrite <- Hs|].
      intros item Hin. rewrite (Hkeys _ Hin).
      by apply (inv_share _ _ Hi _ _ _ _ _ Hp Hq Hb).
    + exists bq. by rewrite list_lookup_insert_ne.
  - intros i j q1 q2 c Hq1 Hq2 Hc.
    destruct (decide (q1 = p)) as [->|Hne].
    + rewrite list_lookup_insert_eq in Hc by done.
      assert (c = b') as -> by congruence. rewrite Hd.
      by apply (inv_share _ _ Hi _ _ _ _ _ Hq1 Hq2 Hb).
    + rewrite list_lookup_insert_ne in Hc by done.
      by apply (inv_share _ _ Hi _ _ _ _ _ Hq1 Hq2 Hc).
Qed.

Lemma assign_Some (items : list (K * V)) key value items' :
  assign items key value = Some items' ->
  items'.*1 = items.*1 /\ length items' = length items.
Proof.
  revert items'. induction items as [|item rest IH]; intros items'; simpl; [done|].
  case_bool_decide.
  - intros [= <-]. done.
  - destruct (assign rest key value) as [r|]; [|done]. simpl. intros [= <-].
    destruct (IH r eq_refl) as [Hr1 Hr2]. rewrite !fmap_cons, Hr1. simpl. by rewrite Hr2.
Qed.

Lemma index_key_mod t key d :
  d <= global_depth_ t -> hash key mod 2 ^ d = IndexOf t key mod 2 ^ d.
Proof. intros Hd. rewrite IndexOf_mod. symmetry. by apply mod_pow2_mod. Qed.

Lemma store_entry_inv t key value t' :
  table_inv t -> store_entry hash t key value = Done t' -> table_inv t'.
Proof.
  intros Hi. unfold store_entry.
  destruct (bucket_at t (IndexOf t key)) as [[p b]| | |] eqn:Hat; [|done..].
  simpl. intros [= <-]. apply bucket_at_Done in Hat as [Hp Hb].
  destruct (inv_bucket _ _ Hi _ _ Hp) as (b' & Hb' & Hd & Hsz & Hlen & Hkeys).
  assert (b' = b) as -> by congruence.
  unfold GetItems.
  destruct (assign (list_ b) key value) as [items|] eqn:Has.
  - destruct (assign_Some _ _ _ _ Has) as [Hfst Hl].
    apply (with_bucket_inv t _ p b _ Hi Hp Hb); simpl; [done|done|lia|].
    intros [k v] Hin.
    assert (k ∈ (list_ b).*1) as Hk.
    { rewrite <- Hfst. by apply (list_elem_of_fmap_2 fst _ (k, v)). }
    apply list_elem_of_fmap in Hk as ([k' v'] & -> & Hin'). by apply (Hkeys _ Hin').
  - unfold Bucket_Insert, IsFull. destruct (Nat.eqb_spec (length (list_ b)) (size_ b)).
    + by apply (with_bucket_inv t _ p b _ Hi Hp Hb).
    + apply (with_bucket_inv t _ p b _ Hi Hp Hb); simpl; [done|done| |].
      * rewrite length_app. simpl. lia.
      * intros item [Hin| ->%list_elem_of_singleton]%elem_of_app; [by apply Hkeys|].
        simpl. by apply index_key_mod.
Qed.

Lemma Remove_inv t key t' r :
  table_inv t -> Remove hash t key = Done (t', r) -> table_inv t'.
Proof.
  intros Hi. unfold Remove.
  destruct (bucket_at t (IndexOf t key)) as [[p b]| | |] eqn:Hat; [|done..].
  simpl. apply bucket_at_Done in Hat as [Hp Hb].
  destruct (inv_bucket _ _ Hi _ _ Hp) as (b' & Hb' & Hd & Hsz & Hlen & Hkeys).
  assert (b' = b) as -> by congruence.
  unfold Bucket_Remove. destruct (find _ (list_ b)) as [item|].
  - intros [= <- <-]. apply (with_bucket_inv t _ p b _ Hi Hp Hb); simpl; [done|done| |].
    + etrans; [apply length_filter|done].
    + intros x [_ Hin]%list_elem_of_filter. by apply Hkeys.
  - intros [= <- <-]. by apply (with_bucket_inv t _ p b _ Hi Hp Hb).
Qed.

Lemma new_inv bucket_size : table_inv (new bucket_size : Table).
Proof.
  split; simpl.
  - done.
  - intros [|i] p; [|done]. intros [= <-]. eexists. split; [done|]. simpl.
    split; [lia|]. split; [done|]. split; [lia|]. by intros item Hin%elem_of_nil.
  - intros [|i] [|j] p q b; try done. by intros [= <-] [= <-] _.
Qed.

Lemma split_inv t key t' :
  table_inv t -> split t key = Done t' -> table_inv t'.
Proof.
  intros Hi Hs. destruct (target_bucket_exists t key Hi) as (p & b & Hat).
  pose proof Hat as [Hp Hb]%bucket_at_Done.
  destruct (inv_bucket _ _ Hi _ _ Hp) as (b' & Hb' & Hd & Hsz & Hlen & Hkeys).
  assert (b' = b) as -> by congruence.
  rewrite (split_closed_form t key p b Hat) in Hs by lia.
  inversion Hs; subst. by eapply split_of_inv.
Qed.

Lemma stepwise_inv t : stepwise hash t -> table_inv t.
Proof.
  induction 1 as [bs|t key p b t' _ IH _ _ Hs|t key value p b t' _ IH _ _ Hs|t key t' r _ IH Hr].
  - apply new_inv.
  - by eapply split_inv.
  - by eapply store_entry_inv.
  - by eapply Remove_inv.
Qed.

Lemma split_loop_stepwise fuel t key t' :
  stepwise hash t -> split_loop hash fuel t key = Done t' ->
  stepwise hash t' /\
  exists p b, bucket_at t' (IndexOf t' key) = Done (p, b) /\ IsFull b = false.
Proof.
  revert t. induction fuel as [|fuel IH]; intros t Hst; simpl.
  - destruct (bucket_at t (IndexOf t key)) as [[p b]| | |] eqn:Hat; [|done..].
    simpl. destruct (IsFull b) eqn:Hfull; [done|]. intros [= <-]. eauto.
  - destruct (bucket_at t (IndexOf t key)) as [[p b]| | |] eqn:Hat; [|done..].
    simpl. destruct (IsFull b) eqn:Hfull; [|intros [= <-]; eauto].
    destruct (ExtendibleHashTable.split hash t key) as [t1| | |] eqn:Hs; [|done..].
    simpl. apply IH. by eapply stepwise_split.
Qed.

Lemma Insert_stepwise fuel t key value t' :
  stepwise hash t -> Insert hash fuel t key value = Done t' -> stepwise hash t'.
Proof.
  intros Hst. unfold Insert.
  destruct (split_loop hash fuel t key) as [t1| | |] eqn:Hl; [|done..].
  simpl. intros Hse.
  destruct (split_loop_stepwise _ _ _ _ Hst Hl) as (Hst1 & p & b & Hat & Hfull).
  by eapply stepwise_store.
Qed.

Lemma Find_same t key t' r : Find hash t key = Done (t', r) -> t' = t.
Proof.
  unfold Find. destruct (bucket_at t (IndexOf t key)) as [[p b]| | |]; [|done..].
  simpl. by intros [= <- _].
Qed.

Lemma reachable_stepwise t : reachable hash t -> stepwise hash t.
Proof.
  induction 1 as [bs|fuel t key value t' _ IH Hins|t key t' r _ IH Hr|t key t' r _ IH Hf].
  - apply stepwise_new.
  - by eapply Insert_stepwise.
  - by eapply stepwise_Remove.
  - by rewrite (Find_same _ _ _ _ Hf).
Qed.

(** *** What a split does to the buckets and their entries *)

Lemma split_of_dir_elem t i0 p b x :
  table_inv t -> dir_ t !! i0 = Some p -> store_ t !! p = Some b ->
  x ∈ dir_ (split_of t p b) <->
  (x ∈ dir_ t /\ x <> p) \/ x = length (store_ t) \/ x = S (length (store_ t)).
Proof.
  intros Hi Hp Hb.
  destruct (inv_bucket _ _ Hi _ _ Hp) as (b' & Hb' & Hd & Hsz & Hlen & Hkeys).
  assert (b' = b) as -> by congruence.
  destruct (grown_spec t b Hi Hd) as (Hglen & Hdlt & Hgle & Hlook).
  pose proof (inv_length _ _ Hi) as Hdlen.
  assert (2 ^ depth_ b <= 2 ^ global_depth_ t) as Hpow1 by (apply Nat.pow_le_mono_r; lia).
  assert (2 ^ S (depth_ b) <= 2 ^ grown_depth t b) as Hpow2 by (apply Nat.pow_le_mono_r; lia).
  assert (2 ^ global_depth_ t <= 2 ^ grown_depth t b) as Hpow3 by (apply Nat.pow_le_mono_r; lia).
  assert (i0 mod 2 ^ depth_ b < 2 ^ depth_ b) as Hlow
    by (apply Nat.mod_upper_bound, Nat.pow_nonzero; lia).
  assert (forall i, i < 2 ^ grown_depth t b ->
            i mod 2 ^ depth_ b = i0 mod 2 ^ depth_ b -> grown_dir t b !! i = Some p) as Hfind.
  { intros i Hlt Hag. rewrite Hlook by done.
    assert (i mod 2 ^ global_depth_ t < length (dir_ t)) as Hin.
    { rewrite Hdlen. apply Nat.mod_upper_bound, Nat.pow_nonzero. lia. }
    destruct (lookup_lt_is_Some_2 _ _ Hin) as [q Hq]. rewrite Hq. f_equal. symmetry.
    apply (inv_share _ _ Hi _ _ _ _ _ Hp Hq Hb). rewrite mod_pow2_mod by done. by rewrite Hag. }
  split.
  - intros [i Hx]%list_elem_of_lookup.
    destruct (split_of_slot _ _ _ _ _ Hi Hd Hx) as (q & Hq & ->).
    unfold relink. destruct (Nat.eqb_spec q p) as [Heq|Hne].
    + destruct (Nat.testbit i (depth_ b)); auto.
    + left. split; [|done]. by eapply list_elem_of_lookup_2.
  - intros [[[i Hx]%list_elem_of_lookup Hne]|[->| ->]]; apply list_elem_of_lookup.
    + exists i. rewrite split_of_lookup.
      pose proof (lookup_lt_Some _ _ _ Hx) as Hilt.
      rewrite Hlook by lia. rewrite Nat.mod_small by lia. rewrite Hx. simpl.
      unfold relink. by destruct (Nat.eqb_spec x p).
    + exists (i0 mod 2 ^ depth_ b). rewrite split_of_lookup.
      rewrite Hfind; [|lia|by rewrite Nat.Div0.mod_mod]. simpl.
      unfold relink. rewrite Nat.eqb_refl. by rewrite testbit_low.
    + exists (i0 mod 2 ^ depth_ b + 2 ^ depth_ b). rewrite split_of_lookup.
      rewrite Hfind; [| rewrite Nat.pow_succ_r' in Hpow2; lia
                      | by rewrite mod_add_pow2, Nat.Div0.mod_mod]. simpl.
      unfold relink. rewrite Nat.eqb_refl. by rewrite testbit_add_pow2.
Qed.

Lemma live_split_of t i0 p b :
  table_inv t -> dir_ t !! i0 = Some p -> store_ t !! p = Some b ->
  live (split_of t p b) ≡ₚ
  filter (fun q => q <> p) (live t) ++ [length (store_ t); S (length (store_ t))].
Proof.
  intros Hi Hp Hb.
  assert (forall q, q ∈ dir_ t -> q < length (store_ t)) as Hold.
  { intros q [i Hq]%list_elem_of_lookup.
    destruct (inv_bucket _ _ Hi _ _ Hq) as (bq & Hbq & _). by eapply lookup_lt_Some. }
  unfold live. apply NoDup_Permutation.
  - apply NoDup_remove_dups.
  - apply NoDup_app. split; [apply NoDup_filter, NoDup_remove_dups|]. split.
    + intros x [_ Hx]%list_elem_of_filter Hx'.
      rewrite elem_of_remove_dups in Hx. apply Hold in Hx. set_solver by lia.
    + apply NoDup_cons. split; [set_solver by lia|]. apply NoDup_singleton.
  - intros x. rewrite elem_of_remove_dups, (split_of_dir_elem t i0 p b x Hi Hp Hb).
    rewrite elem_of_app, list_elem_of_filter, elem_of_remove_dups. set_solver.
Qed.

Lemma live_old t i0 p :
  dir_ t !! i0 = Some p -> live t ≡ₚ p :: filter (fun q => q <> p) (live t).
Proof.
  intros Hp. unfold live. apply NoDup_Permutation.
  - apply NoDup_remove_dups.
  - apply NoDup_cons. split; [|apply NoDup_filter, NoDup_remove_dups].
    rewrite list_elem_of_filter. naive_solver.
  - intros x. rewrite elem_of_cons, list_elem_of_filter, !elem_of_remove_dups.
    destruct (decide (x = p)) as [->|]; [|naive_solver].
    split; [auto|]. intros _. by eapply list_elem_of_lookup_2.
Qed.

Lemma entries_split_of t i0 p b :
  table_inv t -> dir_ t !! i0 = Some p -> store_ t !! p = Some b ->
  entries (split_of t p b) ≡ₚ entries t.
Proof.
  intros Hi Hp Hb.
  assert (entries t ≡ₚ list_ b ++ (filter (fun q => q <> p) (live t) ≫= items_at t)) as ->.
  { unfold entries at 1. rewrite (live_old t i0 p Hp) at 1.
    rewrite bind_cons. unfold items_at at 1. by rewrite Hb. }
  unfold entries. rewrite (live_split_of t i0 p b Hi Hp Hb).
  rewrite bind_app. simpl.
  unfold items_at at 2 3. rewrite split_of_store_0, split_of_store_1. simpl.
  rewrite app_nil_r.
  rewrite (Forall_bind_ext (items_at (split_of t p b)) (items_at t)).
  - rewrite (Permutation_app_comm (list_ b)).
    apply Permutation_app; [done|]. apply filter_app_complement.
  - apply Forall_forall. intros q [_ Hq]%list_elem_of_filter.
    unfold live in Hq.
    rewrite elem_of_remove_dups in Hq. apply list_elem_of_lookup in Hq as [i Hq].
    destruct (inv_bucket _ _ Hi _ _ Hq) as (bq & Hbq & _).
    unfold items_at. rewrite split_of_store_old; [done|]. by eapply lookup_lt_Some.
Qed.

Lemma filter_same_side d key (l : list (K * V)) :
  filter (same_side d key) l =
  if Nat.testbit (hash key) d then filter (fun item => ~ bit0 d item) l
  else filter (bit0 d) l.
Proof.
  destruct (Nat.testbit (hash key) d) eqn:Hb; apply list_filter_iff; intros item;
    unfold same_side, bit0; rewrite Hb; by destruct (Nat.testbit (hash item.1) d).
Qed.

Lemma split_of_IndexOf t p b k :
  table_inv t -> depth_ b <= global_depth_ t ->
  IndexOf (split_of t p b) k < 2 ^ grown_depth t b /\
  IndexOf (split_of t p b) k mod 2 ^ global_depth_ t = IndexOf t k /\
  Nat.testbit (IndexOf (split_of t p b) k) (depth_ b) = Nat.testbit (hash k) (depth_ b).
Proof.
  intros Hi Hd. destruct (grown_spec t b Hi Hd) as (Hglen & Hdlt & Hgle & Hlook).
  rewrite !IndexOf_mod. simpl. split; [|split].
  - apply Nat.mod_upper_bound, Nat.pow_nonzero. lia.
  - by apply mod_pow2_mod.
  - by apply Nat.mod_pow2_bits_low.
Qed.

(** Where a key is looked up after a split: in the same bucket as before,
    unless that was the bucket that was split. *)
Lemma split_of_bucket_at_other t p b k q bq :
  table_inv t -> depth_ b <= global_depth_ t ->
  bucket_at t (IndexOf t k) = Done (q, bq) -> q <> p ->
  bucket_at (split_of t p b) (IndexOf (split_of t p b) k) = Done (q, bq).
Proof.
  intros Hi Hd [Hq Hbq]%bucket_at_Done Hne.
  destruct (grown_spec t b Hi Hd) as (Hglen & Hdlt & Hgle & Hlook).
  destruct (split_of_IndexOf t p b k Hi Hd) as (Hlt & Hmod & Hbit).
  apply bucket_at_Done. split.
  - rewrite split_of_lookup, Hlook, Hmod, Hq by done. simpl.
    unfold relink. by destruct (Nat.eqb_spec q p).
  - rewrite split_of_store_old; [done|]. by eapply lookup_lt_Some.
Qed.

Lemma split_of_bucket_at_same t p b k :
  table_inv t -> depth_ b <= global_depth_ t ->
  bucket_at t (IndexOf t k) = Done (p, b) ->
  bucket_at (split_of t p b) (IndexOf (split_of t p b) k) =
  Done (if Nat.testbit (hash k) (depth_ b) then S (length (store_ t)) else length (store_ t),
        mkBucket (bucket_size_ t) (depth_ b + 1) (filter (same_side (depth_ b) k) (list_ b))).
Proof.
  intros Hi Hd [Hq Hbq]%bucket_at_Done.
  destruct (grown_spec t b Hi Hd) as (Hglen & Hdlt & Hgle & Hlook).
  destruct (split_of_IndexOf t p b k Hi Hd) as (Hlt & Hmod & Hbit).
  apply bucket_at_Done. split.
  - rewrite split_of_lookup, Hlook, Hmod, Hq by done. simpl.
    unfold relink. by rewrite Nat.eqb_refl, Hbit.
  - rewrite filter_same_side.
    destruct (Nat.testbit (hash k) (depth_ b)).
    + apply split_of_store_1.
    + apply split_of_store_0.
Qed.

Lemma find_filter {A} (f : A -> bool) (P : A -> Prop) `{forall x, Decision (P x)} (l : list A) :
  (forall x, f x = true -> P x) -> List.find f (filter P l) = List.find f l.
Proof.
  intros Hf. induction l as [|x l IH]; [done|].
  destruct (decide (P x)) as [HP|HP].
  - rewrite filter_cons_True by done. simpl. by rewrite IH.
  - rewrite filter_cons_False by done. simpl.
    destruct (f x) eqn:Hx; [|done]. by apply Hf in Hx.
Qed.

Lemma filter_all {A} (P : A -> Prop) `{forall x, Decision (P x)} (l : list A) :
  (forall x, x ∈ l -> P x) -> filter P l = l.
Proof.
  induction l as [|x l IH]; intros HP; [done|].
  rewrite filter_cons_True by (apply HP; left).
  f_equal. apply IH. intros y Hy. apply HP. by right.
Qed.

Lemma Find_Done t k :
  table_inv t ->
  exists p b, bucket_at t (IndexOf t k) = Done (p, b) /\
    Find hash t k = Done (t, Bucket_Find b k).
Proof.
  intros Hi. destruct (target_bucket_exists t k Hi) as (p & b & Hat).
  exists p, b. split; [done|]. unfold Find. by rewrite Hat.
Qed.

Lemma Find_split_of t p b key k :
  table_inv t -> bucket_at t (IndexOf t key) = Done (p, b) ->
  exists r, Find hash t k = Done (t, r) /\
    Find hash (split_of t p b) k = Done (split_of t p b, r).
Proof.
  intros Hi Hat. pose proof Hat as [Hp Hb]%bucket_at_Done.
  destruct (inv_bucket _ _ Hi _ _ Hp) as (b' & Hb' & Hd & _).
  assert (b' = b) as -> by congruence.
  destruct (Find_Done t k Hi) as (q & bq & Hatk & HF).
  exists (Bucket_Find bq k). split; [done|]. unfold Find.
  destruct (decide (q = p)) as [->|Hne].
  - assert (bq = b) as ->.
    { apply bucket_at_Done in Hatk as [_ ?]. congruence. }
    rewrite (split_of_bucket_at_same t p b k Hi Hd Hatk). simpl.
    unfold Bucket_Find. simpl. rewrite find_filter; [done|].
    intros item Hk%bool_decide_eq_true. unfold same_side. by rewrite Hk.
  - by rewrite (split_of_bucket_at_other t p b k q bq Hi Hd Hatk Hne).
Qed.

(** *** The split loop *)

Lemma split_loop_stuck fuel t key p b :
  table_inv t -> bucket_at t (IndexOf t key) = Done (p, b) ->
  IsFull b = true ->
  (forall item, item ∈ list_ b -> hash item.1 = hash key) ->
  split_loop hash fuel t key = Unfinished.
Proof.
  revert t p b. induction fuel as [|fuel IH]; intros t p b Hi Hat Hfull Hsame; simpl.
  - by rewrite Hat; simpl; rewrite Hfull.
  - rewrite Hat. simpl. rewrite Hfull.
    pose proof Hat as [Hp Hb]%bucket_at_Done.
    destruct (inv_bucket _ _ Hi _ _ Hp) as (b' & Hb' & Hd & Hsz & Hlen & _).
    assert (b' = b) as -> by congruence.
    rewrite (split_closed_form t key p b Hat) by lia. simpl.
    assert (filter (same_side (depth_ b) key) (list_ b) = list_ b) as Hall.
    { apply filter_all. intros item Hin. unfold same_side. by rewrite (Hsame _ Hin). }
    eapply IH.
    + by eapply split_of_inv.
    + by apply split_of_bucket_at_same.
    + unfold IsFull in *. simpl. rewrite Hall. by rewrite <- Hsz.
    + simpl. by rewrite Hall.
Qed.




Lemma assign_found (items : list (K * V)) key value items' :
  assign items key value = Some items' ->
  snd <$> List.find (fun item => bool_decide (item.1 = key)) items' = Some value.
Proof.
  revert items'. induction items as [|item rest IH]; intros items'; simpl; [done|].
  case_bool_decide as Hk.
  - intros [= <-]. simpl. by rewrite bool_decide_eq_true_2.
  - destruct (assign rest key value) as [r|]; [|done]. simpl. intros [= <-].
    simpl. rewrite bool_decide_eq_false_2 by done. by apply IH.
Qed.

Lemma assign_missing (items : list (K * V)) key value :
  assign items key value = None ->
  snd <$> List.find (fun item => bool_decide (item.1 = key)) (items ++ [(key, value)])
  = Some value.
Proof.
  induction items as [|item rest IH]; simpl.
  - by rewrite bool_decide_eq_true_2.
  - case_bool_decide as Hk; [done|].
    destruct (assign rest key value) as [r|]; [done|]. intros _. by apply IH.
Qed.

Lemma store_entry_found t key value p b :
  table_inv t -> bucket_at t (IndexOf t key) = Done (p, b) -> IsFull b = false ->
  exists t', store_entry hash t key value = Done t' /\
    Find hash t' key = Done (t', Some value).
Proof.
  intros Hi Hat Hfull. unfold store_entry. rewrite Hat. simpl. eexists. split; [done|].
  apply bucket_at_Done in Hat as [Hp Hb].
  pose proof (lookup_lt_Some _ _ _ Hb) as Hlt.
  unfold Find, bucket_at, ExtendibleHashTable.IndexOf. simpl.
  fold (IndexOf t key). rewrite Hp, list_lookup_insert_eq by done. simpl.
  do 2 f_equal. unfold Bucket_Find, GetItems.
  destruct (assign (list_ b) key value) as [items|] eqn:Has; simpl.
  - by eapply assign_found.
  - unfold Bucket_Insert. rewrite Hfull. simpl. by apply assign_missing.
Qed.

(** *** Facts the buffer pool needs of its page table *)

Lemma split_loop_inv fuel t key t' :
  table_inv t -> split_loop hash fuel t key = Done t' -> table_inv t'.
Proof.
  revert t. induction fuel as [|fuel IH]; intros t Hi; simpl;
    destruct (bucket_at t (IndexOf t key)) as [[p b]| | |] eqn:Hat; try done; simpl;
    destruct (IsFull b); try done; try by intros [= <-].
  destruct (ExtendibleHashTable.split hash t key) as [t1| | |] eqn:Hs; [|done..].
  simpl. apply IH. by eapply split_inv.
Qed.

Lemma Insert_inv fuel t key value t' :
  table_inv t -> Insert hash fuel t key value = Done t' -> table_inv t'.
Proof.
  intros Hi. unfold Insert.
  destruct (split_loop hash fuel t key) as [t1| | |] eqn:Hl; [|done..].
  simpl. apply store_entry_inv. by eapply split_loop_inv.
Qed.

Lemma values_in_mono (P Q : V -> Prop) t :
  (forall v, P v -> Q v) -> values_in P t -> values_in Q t.
Proof. intros HPQ HP b item Hb Hin. apply HPQ. by eapply HP. Qed.

Lemma values_in_new (P : V -> Prop) bucket_size : values_in P (new bucket_size : Table).
Proof.
  intros b item Hb%list_elem_of_singleton Hin. subst b. by apply elem_of_nil in Hin.
Qed.

Lemma redistribute_items mask items b0 b1 item :
  item ∈ list_ (redistribute hash mask items b0 b1).1 \/
  item ∈ list_ (redistribute hash mask items b0 b1).2 ->
  item ∈ list_ b0 \/ item ∈ list_ b1 \/ item ∈ items.
Proof.
  revert b0 b1. induction items as [|x rest IH]; intros b0 b1; simpl; [tauto|].
  destruct (Nat.land (hash x.1) mask =? 0); intros Hin; apply IH in Hin;
    unfold Bucket_Insert in Hin.
  - destruct (IsFull b0); simpl in Hin; rewrite ?elem_of_app in Hin; destruct x; set_solver.
  - destruct (IsFull b1); simpl in Hin; rewrite ?elem_of_app in Hin; destruct x; set_solver.
Qed.

Lemma split_values (P : V -> Prop) t key t' :
  values_in P t -> split t key = Done t' -> values_in P t'.
Proof.
  intros HP. unfold ExtendibleHashTable.split.
  destruct (bucket_at t (IndexOf t key)) as [[p b]| | |] eqn:Hat; [|done..].
  simpl. apply bucket_at_Done in Hat as [_ Hb].
  destruct (redistribute _ _ _ _ _) as [b0 b1] eqn:Hred. intros [= <-].
  intros c item Hc Hin. simpl in Hc.
  apply elem_of_app in Hc as [Hc|Hc]; [by eapply HP|].
  assert (item ∈ list_ b) as Hitem.
  { pose proof (redistribute_items (Nat.shiftl 1 (GetDepth b)) (GetItems b)
      (mkBucket (bucket_size_ t) (GetDepth b + 1) [])
      (mkBucket (bucket_size_ t) (GetDepth b + 1) []) item) as Hr.
    rewrite Hred in Hr. simpl in Hr.
    destruct Hr as [Hr|[Hr|Hr]]; [set_solver| | |done]; by apply elem_of_nil in Hr. }
  eapply HP; [|done]. by eapply list_elem_of_lookup_2.
Qed.

Lemma split_loop_values (P : V -> Prop) fuel t key t' :
  values_in P t -> split_loop hash fuel t key = Done t' -> values_in P t'.
Proof.
  revert t. induction fuel as [|fuel IH]; intros t Hi; simpl;
    destruct (bucket_at t (IndexOf t key)) as [[p b]| | |] eqn:Hat; try done; simpl;
    destruct (IsFull b); try done; try by intros [= <-].
  destruct (ExtendibleHashTable.split hash t key) as [t1| | |] eqn:Hs; [|done..].
  simpl. apply IH. by eapply split_values.
Qed.

Lemma assign_values (items : list (K * V)) key value items' item :
  assign items key value = Some items' -> item ∈ items' ->
  item.2 = value \/ item ∈ items.
Proof.
  revert items'. induction items as [|x rest IH]; intros items'; simpl; [done|].
  case_bool_decide.
  - intros [= <-] [->|Hin]%elem_of_cons; [by left|right; by right].
  - destruct (assign rest key value) as [r|]; [|done]. simpl.
    intros [= <-] [->|Hin]%elem_of_cons; [right; left|].
    destruct (IH r eq_refl Hin); [by left|right; by right].
Qed.

Lemma with_bucket_values (P : V -> Prop) t p b :
  values_in P t -> (forall item, item ∈ list_ b -> P item.2) ->
  values_in P (with_bucket t p b).
Proof.
  intros HP Hb c item Hc Hin. simpl in Hc.
  apply list_elem_of_lookup in Hc as [i Hc].
  destruct (decide (i = p)) as [->|Hne].
  - destruct (decide (p < length (store_ t))) as [Hlt|Hge].
    + rewrite list_lookup_insert_eq in Hc by done. injection Hc as <-. by apply Hb.
    + rewrite list_insert_ge in Hc by lia. eapply HP; [|done]. by eapply list_elem_of_lookup_2.
  - rewrite list_lookup_insert_ne in Hc by done.
    eapply HP; [|done]. by eapply list_elem_of_lookup_2.
Qed.

Lemma Insert_values (P : V -> Prop) fuel t key value t' :
  values_in P t -> P value -> Insert hash fuel t key value = Done t' -> values_in P t'.
Proof.
  intros HP Hv. unfold Insert.
  destruct (split_loop hash fuel t key) as [t1| | |] eqn:Hl; [|done..].
  simpl. pose proof (split_loop_values P _ _ _ _ HP Hl) as HP1.
  unfold store_entry.
  destruct (bucket_at t1 (IndexOf t1 key)) as [[p b]| | |] eqn:Hat; [|done..].
  simpl. intros [= <-]. apply bucket_at_Done in Hat as [_ Hb].
  assert (forall item, item ∈ list_ b -> P item.2) as Hold.
  { intros item Hin. eapply HP1; [|done]. by eapply list_elem_of_lookup_2. }
  apply (with_bucket_values P t1 p); [done|]. unfold GetItems.
  destruct (assign (list_ b) key value) as [items|] eqn:Has; simpl.
  - intros item Hin. destruct (assign_values _ _ _ _ _ Has Hin) as [->|]; auto.
  - unfold Bucket_Insert. destruct (IsFull b); simpl; [done|].
    intros item [Hin| ->%list_elem_of_singleton]%elem_of_app; auto.
Qed.

Lemma Remove_values (P : V -> Prop) t key t' r :
  values_in P t -> Remove hash t key = Done (t', r) -> values_in P t'.
Proof.
  intros HP. unfold Remove.
  destruct (bucket_at t (IndexOf t key)) as [[p b]| | |] eqn:Hat; [|done..].
  simpl. apply bucket_at_Done in Hat as [_ Hb].
  assert (forall item, item ∈ list_ b -> P item.2) as Hold.
  { intros item Hin. eapply HP; [|done]. by eapply list_elem_of_lookup_2. }
  destruct (Bucket_Remove b key) as [b' r'] eqn:Hrem. intros [= <- <-].
  apply (with_bucket_values P t p); [done|].
  unfold Bucket_Remove in Hrem. destruct (find _ (list_ b)); injection Hrem as <- _; [|done].
  simpl. intros item [_ Hin]%list_elem_of_filter. auto.
Qed.

Lemma Find_values (P : V -> Prop) t key t' v :
  values_in P t -> Find hash t key = Done (t', Some v) -> P v.
Proof.
  intros HP. unfold Find.
  destruct (bucket_at t (IndexOf t key)) as [[p b]| | |] eqn:Hat; [|done..].
  simpl. apply bucket_at_Done in Hat as [_ Hb]. intros [= _ HF].
  unfold Bucket_Find in HF.
  destruct (find _ (list_ b)) as [item|] eqn:Hfind; [|done]. injection HF as <-.
  apply find_some in Hfind as [Hin _]. apply list_elem_of_In in Hin.
  eapply HP; [|done]. by eapply list_elem_of_lookup_2.
Qed.

Lemma Remove_total t key :
  table_inv t -> exists t' r, Remove hash t key = Done (t', r).
Proof.
  intros Hi. destruct (target_bucket_exists t key Hi) as (p & b & Hat).
  unfold Remove. rewrite Hat. simpl. destruct (Bucket_Remove b key). eauto.
Qed.

(** *** The properties of the specification *)

(** C10 - [Find] leaves the table as it is, whether or not the key is
    present: if the call returns, the table it returns is the table it was
    given, with the same directory, global depth, bucket count and entry
    lists; and on every reachable table the call does return. *)
Theorem Find_leaves_table_unchanged t key :
  (forall t' r, Find hash t key = Done (t', r) -> t' = t) /\
  (reachable hash t -> exists r, Find hash t key = Done (t, r)).
Proof.
  split.
  - intros t' r. apply Find_same.
  - intros Hr%reachable_stepwise%stepwise_inv.
    destruct (Find_Done t key Hr) as (p & b & _ & HF). eauto.
Qed.


(** C7 - A split of the full target bucket of a key keeps the multiset of
    entries of the table: the two new buckets are appended to the store and
    hold the entries of the old bucket whose hash has the bit
    [1 << old local depth] clear, respectively set, in their old order; and
    [Find] finds after the split exactly what it found before, for every
    key. *)
Theorem split_preserves_entries t key p target_bucket :
  stepwise hash t ->
  bucket_at t (IndexOf t key) = Done (p, target_bucket) ->
  IsFull target_bucket = true ->
  exists t' bucket_0 bucket_1,
    split t key = Done t' /\
    entries t' ≡ₚ entries t /\
    store_ t' = store_ t ++ [bucket_0; bucket_1] /\
    list_ bucket_0 =
      filter (fun item => Nat.land (hash item.1) (Nat.shiftl 1 (depth_ target_bucket)) = 0)
        (list_ target_bucket) /\
    list_ bucket_1 =
      filter (fun item => Nat.land (hash item.1) (Nat.shiftl 1 (depth_ target_bucket)) <> 0)
        (list_ target_bucket) /\
    list_ bucket_0 ++ list_ bucket_1 ≡ₚ list_ target_bucket /\
    forall k, exists r, Find hash t k = Done (t, r) /\ Find hash t' k = Done (t', r).
Proof.
  intros Hi%stepwise_inv Hat Hfull. pose proof Hat as [Hp Hb]%bucket_at_Done.
  destruct (inv_bucket _ _ Hi _ _ Hp) as (b' & Hb' & Hd & Hsz & Hlen & _).
  assert (b' = target_bucket) as -> by congruence.
  eexists (split_of t p target_bucket), _, _.
  split; [apply split_closed_form; [done|lia]|].
  split; [by eapply entries_split_of|].
  split; [done|]. simpl.
  assert (forall item : K * V,
    Nat.land (hash item.1) (Nat.shiftl 1 (depth_ target_bucket)) = 0 <->
    bit0 (depth_ target_bucket) item) as Hbit.
  { intros item. unfold bit0. rewrite <- Nat.eqb_eq, land_bit.
    by destruct (Nat.testbit (hash item.1) (depth_ target_bucket)). }
  split; [apply list_filter_iff; intros item; by rewrite Hbit|].
  split; [apply list_filter_iff; intros item; by rewrite Hbit|].
  split; [apply filter_app_complement|].
  intros k. by eapply Find_split_of.
Qed.


End props.

(** *** Concrete runs, with [int] keys hashed by the identity *)

(** Scenario 3 of the specification. *)
Example scenario_three_inserts :
  exists t1 t2 t3 : Table nat nat,
    Insert id 8 (new 2) 1 7 = Done t1 /\ Insert id 8 t1 5 7 = Done t2 /\
    Insert id 8 t2 9 7 = Done t3 /\
    2 <= global_depth_ t3 /\ 2 <= num_buckets_ t3 /\
    Find id t3 1 = Done (t3, Some 7) /\ Find id t3 5 = Done (t3, Some 7) /\
    Find id t3 9 = Done (t3, Some 7).
Proof.
  do 3 eexists.
  split; [vm_compute; reflexivity|].
  split; [vm_compute; reflexivity|].
  split; [vm_compute; reflexivity|].
  split; [vm_compute; lia|].
  split; [vm_compute; lia|].
  split; [vm_compute; reflexivity|].
  split; [vm_compute; reflexivity|].
  vm_compute; reflexivity.
Qed.

Lemma two_keys_reachable : reachable id two_keys.
Proof.
  apply (reachable_Insert id 0 (mkTable 0 2 1 [0] [mkBucket 2 0 [(1, 7)]]) 5 7);
    [|vm_compute; reflexivity].
  apply (reachable_Insert id 0 (new 2) 1 7); [|vm_compute; reflexivity].
  apply reachable_new.
Defined.

Lemma two_keys_stepwise : stepwise id two_keys.
Proof. apply reachable_stepwise, two_keys_reachable. Defined.

Lemma Find_leaves_table_unchanged_witness :
  two_keys = two_keys /\ exists r, Find id two_keys 5 = Done (two_keys, r).
Proof.
  destruct (Find_leaves_table_unchanged id two_keys 5) as [H1 H2]. split.
  - apply (H1 two_keys (Some 7)). vm_compute; reflexivity.
  - apply H2. apply two_keys_reachable.
Defined.


Lemma split_preserves_entries_witness :
  exists t' bucket_0 bucket_1,
    split id two_keys 9 = Done t' /\
    entries t' ≡ₚ entries two_keys /\
    store_ t' = store_ two_keys ++ [bucket_0; bucket_1] /\
    list_ bucket_0 =
      filter (fun item => Nat.land (id item.1) (Nat.shiftl 1 0) = 0) [(1, 7); (5, 7)] /\
    list_ bucket_1 =
      filter (fun item => Nat.land (id item.1) (Nat.shiftl 1 0) <> 0) [(1, 7); (5, 7)] /\
    list_ bucket_0 ++ list_ bucket_1 ≡ₚ [(1, 7); (5, 7)] /\
    forall k, exists r, Find id two_keys k = Done (two_keys, r) /\ Find id t' k = Done (t', r).
Proof.
  apply (split_preserves_entries id two_keys 9 0 (mkBucket 2 0 [(1, 7); (5, 7)])).
  - apply two_keys_stepwise.
  - vm_compute; reflexivity.
  - vm_compute; reflexivity.
Defined.



End HashTableProps.

(** ** LRU-K replacer *)

Module ReplacerProps.
Import LRUKReplacer.

#[local] Open Scope Z_scope.

Implicit Types (r : t) (m : gmap Z bool) (l : list Z).

Lemma first_evictable_ext m1 m2 l pos :
  (forall y, m1 !! y = Some true <-> m2 !! y = Some true) ->
  first_evictable m1 l pos = first_evictable m2 l pos.
Proof.
  intros Hm. revert pos. induction l as [|x l IH]; intros pos; simpl; [done|].
  rewrite IH. by rewrite (bool_decide_ext _ _ (Hm x)).
Qed.

Lemma scan_hit m l pos : (scan m l pos).2 = first_evictable m l pos.
Proof.
  revert m pos. induction l as [|x l IH]; intros m pos; simpl; [done|].
  destruct (m !! x) as [[|]|] eqn:Hx; simpl.
  - done.
  - apply IH.
  - rewrite IH. apply first_evictable_ext. intros y.
    destruct (decide (x = y)) as [->|Hne].
    + rewrite lookup_insert_eq, Hx. naive_solver.
    + by rewrite lookup_insert_ne.
Qed.

Lemma scan_flags m l pos y :
  (scan m l pos).1 !! y = Some true <-> m !! y = Some true.
Proof.
  revert m pos. induction l as [|x l IH]; intros m pos; simpl; [done|].
  destruct (m !! x) as [[|]|] eqn:Hx; simpl; [done|apply IH|].
  rewrite IH. destruct (decide (x = y)) as [->|Hne].
  - rewrite lookup_insert_eq, Hx. naive_solver.
  - by rewrite lookup_insert_ne.
Qed.

Lemma scan_known m l pos :
  (forall y, y ∈ l -> is_Some (m !! y)) -> (scan m l pos).1 = m.
Proof.
  revert pos. induction l as [|x l IH]; intros pos Hl; simpl; [done|].
  destruct (Hl x) as [b Hb]; [left|]. rewrite Hb.
  destruct b; [done|]. apply IH. intros y Hy. apply Hl. by right.
Qed.

Lemma first_evictable_Some m l pos i x :
  first_evictable m l pos = Some (i, x) ->
  (pos <= i)%nat /\ l !! (i - pos)%nat = Some x /\ m !! x = Some true /\
  forall j y, (j < i - pos)%nat -> l !! j = Some y -> m !! y <> Some true.
Proof.
  revert pos. induction l as [|z l IH]; intros pos; simpl; [done|].
  case_bool_decide as Hz.
  - intros [= <- <-]. rewrite Nat.sub_diag. repeat split; try done. lia.
  - intros Hf. destruct (IH _ Hf) as (Hle & Hl & Hm & Hbefore).
    split; [lia|]. replace (i - pos)%nat with (S (i - S pos)) by lia.
    split; [done|]. split; [done|].
    intros [|j] y Hj; simpl; [by intros [= <-]|]. apply Hbefore. lia.
Qed.

Lemma first_evictable_None m l pos :
  first_evictable m l pos = None <-> forall y, y ∈ l -> m !! y <> Some true.
Proof.
  revert pos. induction l as [|z l IH]; intros pos; simpl.
  - split; [|done]. by intros _ y Hy%elem_of_nil.
  - case_bool_decide as Hz.
    + split; [done|]. intros Hall. exfalso. by apply (Hall z); [left|].
    + rewrite IH. split.
      * intros Hall y [->|Hy]%elem_of_cons; auto.
      * intros Hall y Hy. apply Hall. by right.
Qed.

(** *** What each operation does to the flags and the lists *)

Lemma RecordAccess_Done r f :
  f <= to_int (replacer_size_ r) ->
  exists r', RecordAccess r f = Done r' /\
    replacer_size_ r' = replacer_size_ r /\ k_ r' = k_ r /\
    curr_size_ r' = curr_size_ r /\
    is_evictable_map r' = is_evictable_map r /\
    in_lists r' f /\
    forall y, in_lists r' y -> in_lists r y \/ y = f.
Proof.
  intros Hf. unfold RecordAccess.
  destruct (Z.gtb_spec f (to_int (replacer_size_ r))); [lia|].
  assert (forall l y, y ∈ list_remove f l -> y ∈ l) as Hrem.
  { intros l y. unfold list_remove. rewrite list_elem_of_filter. tauto. }
  unfold in_lists.
  repeat case_match; simplify_eq; eexists; (split; [done|]); simpl;
    repeat (split; [done|]); (split; [set_solver|]);
    intros y; rewrite ?elem_of_app; set_solver.
Qed.

Lemma RecordAccess_inv r f r' :
  RecordAccess r f = Done r' -> f <= to_int (replacer_size_ r).
Proof.
  unfold RecordAccess. destruct (Z.gtb_spec f (to_int (replacer_size_ r))); [done|lia].
Qed.

Lemma SetEvictable_Done r f (b : bool) :
  f <= to_int (replacer_size_ r) ->
  exists r', SetEvictable r f b = Done r' /\
    replacer_size_ r' = replacer_size_ r /\ k_ r' = k_ r /\
    access_count_map_ r' = access_count_map_ r /\
    lru_list_ r' = lru_list_ r /\ lru_k_list_ r' = lru_k_list_ r /\
    is_evictable_map r' = <[f := b]> (is_evictable_map r) /\
    curr_size_ r' =
      match is_evictable_map r !! f, b with
      | Some true, false => size_t_wrap (curr_size_ r - 1)
      | Some false, true | None, true => size_t_wrap (curr_size_ r + 1)
      | _, _ => curr_size_ r
      end.
Proof.
  intros Hf. unfold SetEvictable.
  destruct (Z.gtb_spec f (to_int (replacer_size_ r))); [lia|].
  destruct (is_evictable_map r !! f) as [[|]|] eqn:Hm, b; simpl;
    rewrite ?Hm, ?lookup_insert_eq; simpl; rewrite ?Hm, ?lookup_insert_eq; simpl;
    eexists; (split; [done|]); simpl;
    repeat (split; [done|]); split; try done.
  all: try (symmetry; by apply insert_id).
  all: try by rewrite insert_insert_eq.
Qed.

Lemma SetEvictable_inv r f b r' :
  SetEvictable r f b = Done r' -> f <= to_int (replacer_size_ r).
Proof.
  unfold SetEvictable. destruct (Z.gtb_spec f (to_int (replacer_size_ r))); [done|lia].
Qed.

Lemma delete_lookup_NoDup (l : list Z) (i : nat) x :
  NoDup l -> l !! i = Some x -> x ∉ delete i l.
Proof.
  intros Hnd Hi. rewrite <- (take_drop_middle l i x Hi) in Hnd.
  apply NoDup_app in Hnd as (_ & Hl & Hr). apply NoDup_cons in Hr as [Hr _].
  rewrite delete_take_drop. rewrite elem_of_app. intros [Hin|Hin]; [|done].
  apply (Hl x Hin). left.
Qed.

Lemma elem_of_delete (l : list Z) (i : nat) y : y ∈ delete i l -> y ∈ l.
Proof.
  revert i. induction l as [|z l IH]; intros [|i]; simpl; try done.
  - by right.
  - intros [->|Hin]%elem_of_cons; [left|right; by eapply IH].
Qed.

(** [Evict] past its first test, with the two walks replaced by what they
    find. *)
Lemma Evict_walks r :
  curr_size_ r <> 0 ->
  let m1 := (scan (is_evictable_map r) (lru_list_ r) 0).1 in
  let m2 := (scan m1 (lru_k_list_ r) 0).1 in
  Evict r =
  match first_evictable (is_evictable_map r) (lru_list_ r) 0 with
  | Some (pos, x) =>
      (mk (replacer_size_ r) (k_ r) (size_t_wrap (curr_size_ r - 1))
          (delete x (access_count_map_ r)) (delete x m1)
          (delete pos (lru_list_ r)) (lru_k_list_ r), Some x)
  | None =>
      match first_evictable (is_evictable_map r) (lru_k_list_ r) 0 with
      | Some (pos, x) =>
          (mk (replacer_size_ r) (k_ r) (size_t_wrap (curr_size_ r - 1))
              (delete x (access_count_map_ r)) (delete x m2)
              (lru_list_ r) (delete pos (lru_k_list_ r)), Some x)
      | None =>
          (mk (replacer_size_ r) (k_ r) (curr_size_ r)
              (access_count_map_ r) m2 (lru_list_ r) (lru_k_list_ r), None)
      end
  end.
Proof.
  intros Hsize m1 m2. unfold Evict.
  destruct (Z.eqb_spec (curr_size_ r) 0) as [|_]; [done|].
  rewrite <- scan_hit.
  rewrite <- (first_evictable_ext m1 (is_evictable_map r) (lru_k_list_ r))
    by (intros y; apply scan_flags).
  rewrite <- scan_hit. subst m1 m2.
  destruct (scan (is_evictable_map r) (lru_list_ r) 0) as [n1 [[pos x]|]]; simpl; [done|].
  by destruct (scan n1 (lru_k_list_ r) 0) as [n2 [[pos x]|]].
Qed.

Lemma Evict_victim r r' x :
  Evict r = (r', Some x) ->
  replacer_size_ r' = replacer_size_ r /\
  in_lists r x /\ is_evictable_map r !! x = Some true /\
  access_count_map_ r' !! x = None /\
  is_evictable_map r' !! x = None /\
  curr_size_ r' = size_t_wrap (curr_size_ r - 1) /\
  (forall y, in_lists r' y -> in_lists r y) /\
  (forall y, y <> x -> is_evictable_map r' !! y = Some true <-> is_evictable_map r !! y = Some true) /\
  ((forall y, in_lists r y -> is_Some (is_evictable_map r !! y)) ->
     is_evictable_map r' = delete x (is_evictable_map r)) /\
  (NoDup (lru_list_ r ++ lru_k_list_ r) -> ~ in_lists r' x).
Proof.
  destruct (decide (curr_size_ r = 0)) as [Hz|Hnz].
  { unfold Evict. rewrite Hz. simpl. done. }
  rewrite (Evict_walks r Hnz). unfold in_lists.
  destruct (first_evictable _ (lru_list_ r) 0) as [[pos y]|] eqn:H1.
  - intros [= <- <-]. simpl.
    destruct (first_evictable_Some _ _ _ _ _ H1) as (_ & Hl & Hm & _).
    rewrite Nat.sub_0_r in Hl.
    split; [done|]. split; [left; by eapply list_elem_of_lookup_2|].
    split; [done|]. rewrite !lookup_delete_eq. do 3 (split; [done|]).
    split; [intros z [Hz%elem_of_delete|Hz]; auto|].
    split; [intros z Hz; rewrite lookup_delete_ne by done; apply scan_flags|].
    split.
    + intros Hknown. rewrite scan_known; [done|]. intros z Hz. apply Hknown. by left.
    + intros Hnd [Hin|Hin].
      * apply NoDup_app in Hnd as (Hnd & _ & _).
        by apply (delete_lookup_NoDup _ _ _ Hnd Hl).
      * apply NoDup_app in Hnd as (_ & Hnd & _).
        apply (Hnd y); [by eapply list_elem_of_lookup_2|done].
  - destruct (first_evictable _ (lru_k_list_ r) 0) as [[pos y]|] eqn:H2; [|done].
    intros [= <- <-]. simpl.
    destruct (first_evictable_Some _ _ _ _ _ H2) as (_ & Hl & Hm & _).
    rewrite Nat.sub_0_r in Hl.
    split; [done|]. split; [right; by eapply list_elem_of_lookup_2|].
    split; [done|]. rewrite !lookup_delete_eq. do 3 (split; [done|]).
    split; [intros z [Hz|Hz%elem_of_delete]; auto|].
    split; [intros z Hz; rewrite lookup_delete_ne by done; rewrite !scan_flags; done|].
    split.
    + intros Hknown. rewrite !scan_known; [done| |].
      * intros z Hz. apply Hknown. by left.
      * intros z Hz. rewrite scan_known; [apply Hknown; by right|].
        intros w Hw. apply Hknown. by left.
    + intros Hnd [Hin|Hin].
      * apply NoDup_app in Hnd as (_ & Hnd & _).
        apply (Hnd y); [done|by eapply list_elem_of_lookup_2].
      * apply NoDup_app in Hnd as (_ & _ & Hnd).
        by apply (delete_lookup_NoDup _ _ _ Hnd Hl).
Qed.

Lemma Evict_none r r' :
  Evict r = (r', None) ->
  curr_size_ r = 0 \/ forall y, in_lists r y -> is_evictable_map r !! y <> Some true.
Proof.
  destruct (decide (curr_size_ r = 0)) as [Hz|Hnz]; [by left|].
  rewrite (Evict_walks r Hnz).
  destruct (first_evictable _ (lru_list_ r) 0) as [[pos y]|] eqn:H1; [done|].
  destruct (first_evictable _ (lru_k_list_ r) 0) as [[pos y]|] eqn:H2; [done|].
  intros _. right. intros y [Hy|Hy].
  - by apply (proj1 (first_evictable_None _ _ _) H1).
  - by apply (proj1 (first_evictable_None _ _ _) H2).
Qed.

Lemma Remove_Done r f :
  f <= to_int (replacer_size_ r) ->
  exists r', Remove r f = Done r' /\
    replacer_size_ r' = replacer_size_ r /\
    (forall y, in_lists r' y -> in_lists r y) /\
    (forall y, is_evictable_map r' !! y = Some true <-> is_evictable_map r !! y = Some true) /\
    (is_Some (is_evictable_map r !! f) -> is_evictable_map r' = is_evictable_map r).
Proof.
  intros Hf. unfold Remove.
  destruct (Z.gtb_spec f (to_int (replacer_size_ r))); [lia|].
  assert (forall l y, y ∈ list_remove f l -> y ∈ l) as Hrem.
  { intros l y. unfold list_remove. rewrite list_elem_of_filter. tauto. }
  unfold in_lists.
  destruct (is_evictable_map r !! f) as [[|]|] eqn:Hm.
  - destruct (_ <? k_ r); eexists; (split; [done|]); simpl;
      (split; [done|]); (split; [set_solver|]); done.
  - eexists. split; [done|]. done.
  - eexists. split; [done|]. simpl. split; [done|]. split; [done|]. split.
    + intros y. destruct (decide (f = y)) as [->|].
      * rewrite lookup_insert_eq, Hm. naive_solver.
      * by rewrite lookup_insert_ne.
    + by intros [? ?].
Qed.

Lemma size_t_wrap_range x : 0 <= size_t_wrap x < 2 ^ 64.
Proof. unfold size_t_wrap. apply Z.mod_pos_bound. lia. Qed.

Lemma size_t_wrap_back x : 0 <= x < 2 ^ 64 -> size_t_wrap (size_t_wrap (x - 1) + 1) = x.
Proof.
  intros Hx. unfold size_t_wrap. rewrite Z.add_mod_idemp_l by lia.
  replace (x - 1 + 1) with x by lia. apply Z.mod_small. lia.
Qed.

Lemma RecordAccess_size_ok r f r' :
  size_ok r -> RecordAccess r f = Done r' -> size_ok r'.
Proof.
  intros Hs Hacc. destruct (RecordAccess_Done r f (RecordAccess_inv _ _ _ Hacc))
    as (r2 & Hacc' & _ & _ & Hc & _).
  assert (r2 = r') as -> by congruence. unfold size_ok. by rewrite Hc.
Qed.

Lemma SetEvictable_size_ok r f b r' :
  size_ok r -> SetEvictable r f b = Done r' -> size_ok r'.
Proof.
  intros Hs Hset. destruct (SetEvictable_Done r f b (SetEvictable_inv _ _ _ _ Hset))
    as (r2 & Hset' & _ & _ & _ & _ & _ & _ & Hc).
  assert (r2 = r') as -> by congruence. unfold size_ok. rewrite Hc.
  destruct (is_evictable_map r !! f) as [[|]|], b; try done; apply size_t_wrap_range.
Qed.

Lemma Evict_size_ok r r' x : Evict r = (r', Some x) -> size_ok r'.
Proof.
  intros HE. destruct (Evict_victim r r' x HE) as (_ & _ & _ & _ & _ & Hc & _).
  unfold size_ok. rewrite Hc. apply size_t_wrap_range.
Qed.

Lemma Remove_size_ok r f r' : size_ok r -> Remove r f = Done r' -> size_ok r'.
Proof.
  unfold Remove, size_ok. intros Hs.
  destruct (f >? to_int (replacer_size_ r)); [done|].
  destruct (is_evictable_map r !! f) as [[|]|]; [|by intros [= <-]..].
  destruct (_ <? k_ r); intros [= <-]; simpl; apply size_t_wrap_range.
Qed.

(** *** The properties of the specification *)


(** C2, as amended - For a frame flagged evictable, [Remove] erases the frame
    from the history list when its access count is below k and from the cache
    list otherwise, and lowers [Size] by one.  For a frame that is not flagged
    evictable, [Remove] returns without changing the lists, the access counts
    or [Size], and the frame stays not evictable: the call is a silent no-op,
    not a fatal error.  Only a frame id above the number of frames is fatal. *)
Theorem Remove_evictable_or_silent r frame_id :
  (frame_id > to_int (replacer_size_ r) -> Remove r frame_id = Thrown) /\
  (frame_id <= to_int (replacer_size_ r) ->
     (evictable r frame_id ->
        exists r', Remove r frame_id = Done r' /\
          lru_list_ r' =
            (if default 0 (access_count_map_ r !! frame_id) <? k_ r
             then list_remove frame_id (lru_list_ r) else lru_list_ r) /\
          lru_k_list_ r' =
            (if default 0 (access_count_map_ r !! frame_id) <? k_ r
             then lru_k_list_ r else list_remove frame_id (lru_k_list_ r)) /\
          curr_size_ r' = size_t_wrap (curr_size_ r - 1)) /\
     (~ evictable r frame_id ->
        exists r', Remove r frame_id = Done r' /\
          lru_list_ r' = lru_list_ r /\ lru_k_list_ r' = lru_k_list_ r /\
          access_count_map_ r' = access_count_map_ r /\
          curr_size_ r' = curr_size_ r /\
          ~ evictable r' frame_id /\
          (is_Some (is_evictable_map r !! frame_id) -> r' = r))).
Proof.
  unfold Remove, evictable. split.
  - intros Hgt. by destruct (Z.gtb_spec frame_id (to_int (replacer_size_ r))); [|lia].
  - intros Hle. destruct (Z.gtb_spec frame_id (to_int (replacer_size_ r))); [lia|]. split.
    + intros ->. destruct (_ <? k_ r); eexists; (split; [done|]); done.
    + intros Hne. destruct (is_evictable_map r !! frame_id) as [[|]|] eqn:Hm; [done| |].
      * exists r. repeat (split; [done|]). split; [congruence|done].
      * eexists. split; [done|]. simpl. repeat (split; [done|]).
        split; [by rewrite lookup_insert_eq|]. by intros [? ?].
Qed.

(** *** Concrete runs *)

(** The claim C2 fails: after [Remove] the evictable frame still has an access
    count and a flag, and [Remove] of a tracked frame that is not evictable
    returns normally. *)
Lemma Remove_keeps_bookkeeping :
  (r ← RecordAccess (new 7 2) 1; r ← RecordAccess r 1; SetEvictable r 1 true) = Done cached_frame /\
  (exists r', Remove cached_frame 1 = Done r' /\
     access_count_map_ r' !! 1 = Some 1 /\ is_evictable_map r' !! 1 = Some true /\
     tracked r' 1) /\
  RecordAccess (new 7 2) 2 = Done pinned_frame /\
  tracked pinned_frame 2 /\ ~ evictable pinned_frame 2 /\
  exists r', Remove pinned_frame 2 = Done r'.
Proof.
  split; [vm_compute; reflexivity|]. split.
  - eexists. split; [vm_compute; reflexivity|]. split; [vm_compute; reflexivity|].
    split; [vm_compute; reflexivity|]. right. left. vm_compute. eauto.
  - split; [vm_compute; reflexivity|]. split; [left; vm_compute; eauto|].
    split; [vm_compute; congruence|]. eexists. vm_compute. reflexivity.
Qed.

Lemma Remove_evictable_or_silent_witness :
  (exists r', Remove cached_frame 1 = Done r' /\
     lru_list_ r' = [] /\ lru_k_list_ r' = [] /\ curr_size_ r' = 0) /\
  (exists r', Remove pinned_frame 2 = Done r' /\
     lru_list_ r' = [2] /\ lru_k_list_ r' = [] /\
     access_count_map_ r' = {[2 := 1]} /\ curr_size_ r' = 0 /\
     ~ evictable r' 2) /\
  Remove cached_frame 9 = Thrown.
Proof.
  destruct (Remove_evictable_or_silent cached_frame 1) as [_ H1].
  destruct (H1 ltac:(vm_compute; congruence)) as [H1e _].
  destruct (Remove_evictable_or_silent pinned_frame 2) as [_ H2].
  destruct (H2 ltac:(vm_compute; congruence)) as [_ H2n].
  destruct (Remove_evictable_or_silent cached_frame 9) as [H3 _].
  split; [|split].
  - destruct (H1e ltac:(vm_compute; reflexivity)) as (r' & Hr & Hl & Hk & Hs).
    exists r'. split; [done|]. rewrite Hl, Hk, Hs. by vm_compute.
  - destruct (H2n ltac:(vm_compute; congruence)) as (r' & Hr & Hl & Hk & Hc & Hs & He & _).
    exists r'. rewrite Hl, Hk, Hc, Hs. done.
  - apply H3. vm_compute. reflexivity.
Defined.



End ReplacerProps.

(** ** Buffer pool manager *)

Module BufferPoolProps.
Import BufferPoolManagerInstance.
Import HashTableProps ReplacerProps.

#[local] Open Scope Z_scope.

#[local] Abbreviation in_lists := LRUKReplacer.in_lists.
#[local] Abbreviation size_ok := LRUKReplacer.size_ok.

Implicit Types (s : t) (pg : Page) (pages : list Page).

(** *** Frames *)

Lemma page_at_Done pages f pg :
  page_at pages f = Done pg <-> 0 <= f /\ pages !! Z.to_nat f = Some pg.
Proof.
  unfold page_at. destruct (Z.ltb_spec f 0); [split; [done|lia]|].
  destruct (pages !! Z.to_nat f); naive_solver.
Qed.

Lemma page_at_ok pages f : frame_ok pages f -> exists pg, page_at pages f = Done pg.
Proof.
  intros [H0 Hlt]. destruct (lookup_lt_is_Some_2 pages (Z.to_nat f)) as [pg Hpg]; [lia|].
  exists pg. by apply page_at_Done.
Qed.

Lemma page_at_frame_ok pages f pg : page_at pages f = Done pg -> frame_ok pages f.
Proof.
  intros [H0 Hl]%page_at_Done. apply lookup_lt_Some in Hl. unfold frame_ok. lia.
Qed.

Lemma page_at_set_eq pages f pg :
  frame_ok pages f -> page_at (set_page pages f pg) f = Done pg.
Proof.
  intros [H0 Hlt]. apply page_at_Done. split; [done|].
  unfold set_page. apply list_lookup_insert_eq. lia.
Qed.

Lemma page_at_set_ne pages f g pg :
  0 <= f -> f <> g -> page_at (set_page pages f pg) g = page_at pages g.
Proof.
  intros H0 Hne. unfold page_at, set_page. destruct (Z.ltb_spec g 0); [done|].
  rewrite list_lookup_insert_ne by lia. done.
Qed.

Lemma set_page_length pages f pg : length (set_page pages f pg) = length pages.
Proof. apply length_insert. Qed.

Lemma frame_ok_set pages f pg g : frame_ok (set_page pages f pg) g <-> frame_ok pages g.
Proof. unfold frame_ok. by rewrite set_page_length. Qed.


(** *** Calls that return *)

Lemma bind_Done {A B} (m : outcome A) (k : A -> outcome B) (y : B) :
  m ≫= k = Done y -> exists x, m = Done x /\ k x = Done y.
Proof. destruct m as [x| | |]; [|done..]. intros Hk. by exists x. Qed.

Lemma NewPgImp_unfold fuel s :
  NewPgImp fuel s =
  if negb (has_avail_frame (pages_ s)) then Done (s, None)
  else
    '(frame_id, pages, page_table, replacer, free_list, disk) ← make_room s;
    page_table ← pt_Insert fuel page_table (next_page_id_ s) frame_id;
    pg ← page_at pages frame_id;
    replacer ← LRUKReplacer.RecordAccess replacer frame_id;
    replacer ← LRUKReplacer.SetEvictable replacer frame_id false;
    Done (mk (set_page pages frame_id (mkPage (data_ pg) (next_page_id_ s) 1 (is_dirty_ pg)))
            page_table replacer free_list (int_wrap (next_page_id_ s + 1)) disk,
          Some (next_page_id_ s, frame_id)).
Proof. reflexivity. Qed.

Lemma FetchPgImp_unfold fuel s page_id :
  FetchPgImp fuel s page_id =
  '(_, found) ← pt_Find (page_table_ s) page_id;
  match found with
  | Some frame_id =>
      pg ← page_at (pages_ s) frame_id;
      if pin_count_ pg =? INT_MAX then Undefined
      else
        replacer ← LRUKReplacer.RecordAccess (replacer_ s) frame_id;
        replacer ← LRUKReplacer.SetEvictable replacer frame_id false;
        Done (mk (set_page (pages_ s) frame_id
                    (mkPage (data_ pg) (page_id_ pg) (pin_count_ pg + 1) (is_dirty_ pg)))
                (page_table_ s) replacer (free_list_ s) (next_page_id_ s)
                (disk_manager_ s), Some frame_id)
  | None =>
      if negb (has_avail_frame (pages_ s)) then Done (s, None)
      else
        '(frame_id, pages, page_table, replacer, free_list, disk) ← make_room s;
        page_table ← pt_Insert fuel page_table page_id frame_id;
        pg ← page_at pages frame_id;
        replacer ← LRUKReplacer.RecordAccess replacer frame_id;
        replacer ← LRUKReplacer.SetEvictable replacer frame_id false;
        Done (mk (set_page pages frame_id
                    (mkPage (ReadPage disk page_id) page_id 1 (is_dirty_ pg)))
                page_table replacer free_list (next_page_id_ s) disk, Some frame_id)
  end.
Proof.
  unfold FetchPgImp, make_room.
  by destruct (pt_Find (page_table_ s) page_id) as [[t' [f|]]| | |].
Qed.

Lemma make_room_Done s f pages pt rep fl disk :
  bpm_inv s -> make_room s = Done (f, pages, pt, rep, fl, disk) ->
  frame_ok (pages_ s) f /\
  length pages = length (pages_ s) /\
  ExtendibleHashTable.table_inv hash_page_id pt /\
  ExtendibleHashTable.values_in
    (fun g => frame_ok (pages_ s) g /\ is_Some (flag s g)) pt /\
  (forall g, g ∈ fl -> frame_ok (pages_ s) g) /\
  LRUKReplacer.replacer_size_ rep = LRUKReplacer.replacer_size_ (replacer_ s) /\
  size_ok rep /\
  (forall g, in_lists rep g -> in_lists (replacer_ s) g) /\
  (forall g, g <> f -> LRUKReplacer.is_evictable_map rep !! g = flag s g) /\
  (forall g, g <> f -> page_at pages g = page_at (pages_ s) g).
Proof.
  intros Hi. unfold make_room. destruct (free_list_ s) as [|front rest] eqn:Hfl.
  - destruct (LRUKReplacer.Evict (replacer_ s)) as [r [x|]] eqn:HE; [|done].
    intros (pg & Hpg & Hk)%bind_Done.
    destruct (IsDirty pg);
      apply bind_Done in Hk as ([pt' b] & Hrem & Hk); injection Hk as <- <- <- <- <- <-.
    all: destruct (Evict_victim _ _ _ HE) as (Hsz & Hin & _ & _ & _ & _ & Hsub & _ & Hdel & _).
    all: specialize (Hdel (fun y Hy => proj2 (inv_lists s Hi y Hy))).
    all: split; [by apply (inv_lists s Hi)|].
    all: split; [apply set_page_length|].
    all: split; [eapply Remove_inv; [apply (inv_table s Hi)|done]|].
    all: split; [eapply Remove_values; [apply (inv_frames s Hi)|done]|].
    all: split; [by intros g Hg%elem_of_nil|].
    all: split; [done|]. all: split; [by eapply Evict_size_ok|]. all: split; [done|].
    all: split; [intros g Hg; rewrite Hdel; by apply lookup_delete_ne|].
    all: intros g Hg; apply page_at_set_ne; [|done].
    all: apply (page_at_frame_ok _ _ _ Hpg).
  - intros [= <- <- <- <- <- <-].
    split; [apply (inv_free s Hi); rewrite Hfl; left|].
    split; [done|]. split; [apply (inv_table s Hi)|]. split; [apply (inv_frames s Hi)|].
    split; [intros g Hg; apply (inv_free s Hi); rewrite Hfl; by right|].
    split; [done|]. split; [apply (inv_curr s Hi)|]. done.
Qed.

Lemma frame_ok_length pages pages' f :
  length pages' = length pages -> frame_ok pages f -> frame_ok pages' f.
Proof. unfold frame_ok. by intros ->. Qed.

(** The second half of [NewPgImp] and of the miss path of [FetchPgImp]. *)
Lemma install_inv fuel s f pages pt rep fl disk page_id pt' rep2 rep3 pg' next disk' :
  bpm_inv s -> make_room s = Done (f, pages, pt, rep, fl, disk) ->
  pt_Insert fuel pt page_id f = Done pt' ->
  LRUKReplacer.RecordAccess rep f = Done rep2 ->
  LRUKReplacer.SetEvictable rep2 f false = Done rep3 ->
  pin_count_ pg' = 1 ->
  bpm_inv (mk (set_page pages f pg') pt' rep3 fl next disk').
Proof.
  intros Hi Hroom Hins Hacc Hset Hpin.
  destruct (make_room_Done _ _ _ _ _ _ _ Hi Hroom)
    as (Hf & Hlen & Htab & Hvals & Hfl & Hsz & Hcur & Hsub & Hflags & Hpages).
  destruct (RecordAccess_Done rep f (RecordAccess_inv _ _ _ Hacc))
    as (r2 & Hacc' & Hsz2 & _ & _ & Hm2 & _ & Hl2).
  assert (r2 = rep2) as -> by congruence.
  destruct (SetEvictable_Done rep2 f false (SetEvictable_inv _ _ _ _ Hset))
    as (r3 & Hset' & Hsz3 & _ & _ & Hlru3 & Hlruk3 & Hm3 & _).
  assert (r3 = rep3) as -> by congruence.
  rewrite Hm2 in Hm3.
  assert (forall g, frame_ok (pages_ s) g /\ is_Some (flag s g) ->
            frame_ok (set_page pages f pg') g /\
            is_Some (LRUKReplacer.is_evictable_map rep3 !! g)) as Hmono.
  { intros g [Hg Hflag]. split.
    - apply frame_ok_set. by eapply frame_ok_length.
    - rewrite Hm3. destruct (decide (f = g)) as [->|Hne].
      + rewrite lookup_insert_eq. eauto.
      + rewrite lookup_insert_ne by done. rewrite Hflags by done. done. }
  assert (frame_ok (set_page pages f pg') f /\
          is_Some (LRUKReplacer.is_evictable_map rep3 !! f)) as Hnew.
  { split; [apply frame_ok_set; by eapply frame_ok_length|].
    rewrite Hm3, lookup_insert_eq. eauto. }
  split; simpl; unfold flag; simpl.
  - by eapply Insert_inv.
  - eapply (Insert_values hash_page_id _ fuel pt page_id f); [|apply Hnew|done].
    exact (values_in_mono _ _ _ Hmono Hvals).
  - intros g Hg. apply frame_ok_set. eapply frame_ok_length; [done|]. by apply Hfl.
  - intros g [Hg|Hg].
    + rewrite Hlru3 in Hg. destruct (Hl2 g (or_introl Hg)) as [Hold| ->]; [|done].
      apply Hmono. apply (inv_lists s Hi). by apply Hsub.
    + rewrite Hlruk3 in Hg. destruct (Hl2 g (or_intror Hg)) as [Hold| ->]; [|done].
      apply Hmono. apply (inv_lists s Hi). by apply Hsub.
  - rewrite set_page_length, Hlen, Hsz3, Hsz2, Hsz. apply (inv_size s Hi).
  - eapply SetEvictable_size_ok; [|done]. by eapply RecordAccess_size_ok.
  - intros g pg Hpg. rewrite Hm3. destruct (decide (f = g)) as [<-|Hne].
    + rewrite page_at_set_eq in Hpg by (by eapply frame_ok_length).
      injection Hpg as <-. rewrite lookup_insert_eq, Hpin.
      split; [lia|]. split; [done|]. eauto.
    + rewrite page_at_set_ne in Hpg by (done || apply Hf).
      rewrite lookup_insert_ne by done. rewrite Hflags by done.
      rewrite Hpages in Hpg by done. by apply (inv_pins s Hi).
Qed.

Lemma pool_new_inv pool_size disk replacer_k bucket_size :
  Z.of_nat pool_size <= INT_MAX -> bpm_inv (new pool_size disk replacer_k bucket_size).
Proof.
  intros Hsize. split; simpl; unfold flag; simpl.
  - apply HashTableProps.new_inv.
  - apply values_in_new.
  - intros f (n & -> & Hn)%list_elem_of_fmap. apply elem_of_seq in Hn.
    unfold frame_ok. rewrite length_replicate. lia.
  - by intros f [Hf%elem_of_nil|Hf%elem_of_nil].
  - rewrite length_replicate. unfold LRUKReplacer.to_int, INT_MAX in *.
    rewrite Z.mod_small; lia.
  - done.
  - intros f pg [H0 Hl]%page_at_Done. apply lookup_replicate in Hl as [-> _].
    simpl. split; [done|]. rewrite lookup_empty. split; [done|]. done.
Qed.

Lemma NewPgImp_inv fuel s s' r :
  bpm_inv s -> NewPgImp fuel s = Done (s', r) -> bpm_inv s'.
Proof.
  intros Hi. rewrite NewPgImp_unfold.
  destruct (negb (has_avail_frame (pages_ s))); [by intros [= <- _]|].
  intros ([[[[[f pages] pt] rep] fl] disk] & Hroom & Hk)%bind_Done.
  apply bind_Done in Hk as (pt' & Hins & Hk).
  apply bind_Done in Hk as (pg & Hpg & Hk).
  apply bind_Done in Hk as (rep2 & Hacc & Hk).
  apply bind_Done in Hk as (rep3 & Hset & Hk).
  injection Hk as <- _. by eapply install_inv.
Qed.

(** A call that rewrites one frame in place. *)
Lemma update_inv s f pg' pt' rep' fl' next disk' :
  bpm_inv s -> frame_ok (pages_ s) f ->
  ExtendibleHashTable.table_inv hash_page_id pt' ->
  ExtendibleHashTable.values_in
    (fun g => frame_ok (pages_ s) g /\ is_Some (flag s g)) pt' ->
  (forall g, g ∈ fl' -> frame_ok (pages_ s) g) ->
  LRUKReplacer.replacer_size_ rep' = LRUKReplacer.replacer_size_ (replacer_ s) ->
  size_ok rep' ->
  (forall g, in_lists rep' g -> in_lists (replacer_ s) g \/ g = f) ->
  (forall g, g <> f -> LRUKReplacer.is_evictable_map rep' !! g = flag s g) ->
  is_Some (LRUKReplacer.is_evictable_map rep' !! f) ->
  0 <= pin_count_ pg' ->
  (pin_count_ pg' <> 0 <-> LRUKReplacer.is_evictable_map rep' !! f = Some false) ->
  bpm_inv (mk (set_page (pages_ s) f pg') pt' rep' fl' next disk').
Proof.
  intros Hi Hf Htab Hvals Hfl Hsz Hcur Hlists Hflags Hflag Hpin0 Hpin.
  assert (forall g, frame_ok (pages_ s) g /\ is_Some (flag s g) ->
            frame_ok (set_page (pages_ s) f pg') g /\
            is_Some (LRUKReplacer.is_evictable_map rep' !! g)) as Hmono.
  { intros g [Hg Hfg]. split; [by apply frame_ok_set|].
    destruct (decide (g = f)) as [->|Hne]; [done|]. by rewrite Hflags. }
  split; simpl; unfold flag; simpl.
  - done.
  - exact (values_in_mono _ _ _ Hmono Hvals).
  - intros g Hg. apply frame_ok_set. by apply Hfl.
  - intros g Hg. destruct (Hlists g Hg) as [Hold| ->].
    + apply Hmono. by apply (inv_lists s Hi).
    + split; [by apply frame_ok_set|done].
  - rewrite set_page_length, Hsz. apply (inv_size s Hi).
  - done.
  - intros g pg Hpg. destruct (decide (f = g)) as [<-|Hne].
    + rewrite page_at_set_eq in Hpg by done. injection Hpg as <-. done.
    + rewrite page_at_set_ne in Hpg by (done || apply Hf).
      rewrite Hflags by done. by apply (inv_pins s Hi).
Qed.

(** What a hit in the page table tells about the frame. *)
Lemma found_frame s page_id t' f :
  bpm_inv s -> pt_Find (page_table_ s) page_id = Done (t', Some f) ->
  exists pg, page_at (pages_ s) f = Done pg /\ frame_ok (pages_ s) f /\
    is_Some (flag s f) /\ f <= LRUKReplacer.to_int (LRUKReplacer.replacer_size_ (replacer_ s)).
Proof.
  intros Hi HF.
  destruct (Find_values hash_page_id _ _ _ _ _ (inv_frames s Hi) HF) as [Hok Hflag].
  destruct (page_at_ok _ _ Hok) as [pg Hpg]. exists pg.
  repeat (split; [done|]). rewrite (inv_size s Hi). unfold frame_ok in Hok. lia.
Qed.

Lemma FetchPgImp_inv fuel s page_id s' r :
  bpm_inv s -> FetchPgImp fuel s page_id = Done (s', r) -> bpm_inv s'.
Proof.
  intros Hi. rewrite FetchPgImp_unfold.
  intros ([t' [f|]] & HF & Hk)%bind_Done.
  - destruct (found_frame s page_id t' f Hi HF) as (pg & Hpg & Hok & Hflag & Hle).
    rewrite Hpg in Hk. simpl in Hk.
    destruct (Z.eqb_spec (pin_count_ pg) INT_MAX) as [|Hmax]; [done|].
    apply bind_Done in Hk as (rep2 & Hacc & Hk).
    apply bind_Done in Hk as (rep3 & Hset & Hk). injection Hk as <- _.
    destruct (RecordAccess_Done _ f Hle) as (r2 & Hacc' & Hsz2 & _ & _ & Hm2 & _ & Hl2).
    assert (r2 = rep2) as -> by congruence.
    destruct (SetEvictable_Done rep2 f false (SetEvictable_inv _ _ _ _ Hset))
      as (r3 & Hset' & Hsz3 & _ & _ & Hlru3 & Hlruk3 & Hm3 & _).
    assert (r3 = rep3) as -> by congruence.
    destruct (inv_pins s Hi f pg Hpg) as (Hpin0 & _ & _).
    apply update_inv; try done.
    + apply (inv_table s Hi).
    + apply (inv_frames s Hi).
    + apply (inv_free s Hi).
    + congruence.
    + eapply SetEvictable_size_ok; [|done]. eapply RecordAccess_size_ok; [|done].
      apply (inv_curr s Hi).
    + intros g [Hg|Hg]; apply Hl2; [left|right]; congruence.
    + intros g Hg. rewrite Hm3, Hm2. by rewrite lookup_insert_ne.
    + rewrite Hm3, lookup_insert_eq. eauto.
    + simpl. lia.
    + simpl. rewrite Hm3, lookup_insert_eq. split; [done|lia].
  - destruct (negb (has_avail_frame (pages_ s))); [by injection Hk as <- _|].
    apply bind_Done in Hk as ([[[[[f pages] pt] rep] fl] disk] & Hroom & Hk).
    apply bind_Done in Hk as (pt' & Hins & Hk).
    apply bind_Done in Hk as (pg & Hpg & Hk).
    apply bind_Done in Hk as (rep2 & Hacc & Hk).
    apply bind_Done in Hk as (rep3 & Hset & Hk).
    injection Hk as <- _. by eapply install_inv.
Qed.

Lemma UnpinPgImp_inv s page_id is_dirty s' r :
  bpm_inv s -> UnpinPgImp s page_id is_dirty = Done (s', r) -> bpm_inv s'.
Proof.
  intros Hi. unfold UnpinPgImp.
  intros ([t' [f|]] & HF & Hk)%bind_Done; [|by injection Hk as <- _].
  destruct (found_frame s page_id t' f Hi HF) as (pg & Hpg & Hok & Hflag & Hle).
  rewrite Hpg in Hk. simpl in Hk. unfold GetPinCount in Hk.
  destruct (Z.eqb_spec (pin_count_ pg) 0) as [|Hnz]; [by injection Hk as <- _|].
  destruct (Z.eqb_spec (pin_count_ pg) INT_MIN) as [|_]; [done|].
  apply bind_Done in Hk as (rep' & Hrep & Hk). injection Hk as <- _.
  destruct (inv_pins s Hi f pg Hpg) as (Hpin0 & Hpin & _).
  simpl in Hrep.
  destruct (Z.eqb_spec (pin_count_ pg - 1) 0) as [Hz|Hz].
  - destruct (SetEvictable_Done (replacer_ s) f true Hle)
      as (r3 & Hset' & Hsz3 & _ & _ & Hlru3 & Hlruk3 & Hm3 & _).
    assert (r3 = rep') as -> by congruence.
    apply update_inv; try done.
    + apply (inv_table s Hi).
    + apply (inv_frames s Hi).
    + apply (inv_free s Hi).
    + eapply SetEvictable_size_ok; [|done]. apply (inv_curr s Hi).
    + intros g [Hg|Hg]; left; [left|right]; congruence.
    + intros g Hg. rewrite Hm3. by rewrite lookup_insert_ne.
    + rewrite Hm3, lookup_insert_eq. eauto.
    + simpl. lia.
    + simpl. rewrite Hm3, lookup_insert_eq. split; [lia|done].
  - injection Hrep as <-. apply update_inv; try done.
    + apply (inv_table s Hi).
    + apply (inv_frames s Hi).
    + apply (inv_free s Hi).
    + apply (inv_curr s Hi).
    + by left.
    + simpl. lia.
    + simpl. split; [intros _; by apply Hpin|done].
Qed.

Lemma FlushPgImp_inv s page_id s' r :
  bpm_inv s -> FlushPgImp s page_id = Done (s', r) -> bpm_inv s'.
Proof.
  intros Hi. unfold FlushPgImp.
  intros ([t' [f|]] & HF & Hk)%bind_Done; [|by injection Hk as <- _].
  destruct (found_frame s page_id t' f Hi HF) as (pg & Hpg & Hok & Hflag & Hle).
  rewrite Hpg in Hk. simpl in Hk. injection Hk as <- _.
  destruct (inv_pins s Hi f pg Hpg) as (Hpin0 & Hpin & _).
  apply update_inv; try done.
  - apply (inv_table s Hi).
  - apply (inv_frames s Hi).
  - apply (inv_free s Hi).
  - apply (inv_curr s Hi).
  - by left.
Qed.

Lemma DeletePgImp_inv s page_id s' r :
  bpm_inv s -> DeletePgImp s page_id = Done (s', r) -> bpm_inv s'.
Proof.
  intros Hi. unfold DeletePgImp.
  intros ([t' [f|]] & HF & Hk)%bind_Done; [|by injection Hk as <- _].
  destruct (found_frame s page_id t' f Hi HF) as (pg & Hpg & Hok & Hflag & Hle).
  rewrite Hpg in Hk. simpl in Hk. unfold GetPinCount in Hk.
  destruct (Z.gtb_spec (pin_count_ pg) 0) as [|Hpin]; [by injection Hk as <- _|].
  destruct (inv_pins s Hi f pg Hpg) as (Hpin0 & Hpinf & _).
  assert (flag s f <> Some false) as Hnf by (intros ?%Hpinf; lia).
  destruct (Remove_Done (replacer_ s) f Hle) as (r' & Hrem & Hsz & Hsub & _ & Hsame).
  specialize (Hsame Hflag).
  destruct (IsDirty pg);
    apply bind_Done in Hk as ([pt' b] & Hprem & Hk);
    apply bind_Done in Hk as (rep' & Hrep & Hk); injection Hk as <- _;
    (assert (r' = rep') as -> by congruence);
    (apply update_inv; try done;
      [ eapply Remove_inv; [apply (inv_table s Hi)|done]
      | eapply Remove_values; [apply (inv_frames s Hi)|done]
      | intros g [Hg| ->%list_elem_of_singleton]%elem_of_app; [by apply (inv_free s Hi)|done]
      | eapply Remove_size_ok; [apply (inv_curr s Hi)|done]
      | intros g Hg; left; by apply Hsub
      | intros g Hg; by rewrite Hsame
      | by rewrite Hsame
      | simpl; rewrite Hsame; split; [done|intros ?; by destruct Hnf] ]).
Qed.

Lemma reachable_inv s : reachable s -> bpm_inv s.
Proof.
  induction 1.
  - by apply pool_new_inv.
  - by eapply NewPgImp_inv.
  - by eapply FetchPgImp_inv.
  - by eapply UnpinPgImp_inv.
  - by eapply FlushPgImp_inv.
  - by eapply DeletePgImp_inv.
Qed.

(** *** The properties of the specification *)

(** C1 - In every state the public operations [NewPage], [FetchPage],
    [UnpinPage], [FlushPage] and [DeletePage] lead to from a fresh pool, a
    frame that holds a resident page, be it that its page id is not
    [INVALID_PAGE_ID] or that the page table maps a page id to it, has pin
    count 0 exactly when the replacer has it flagged evictable.  The states
    are those of [reachable], so each of the five operations keeps the
    property. *)
Theorem pin_zero_iff_evictable s f pg :
  reachable s ->
  page_at (pages_ s) f = Done pg ->
  (page_id_ pg <> INVALID_PAGE_ID \/
   exists page_id t', pt_Find (page_table_ s) page_id = Done (t', Some f)) ->
  (pin_count_ pg = 0 <-> LRUKReplacer.evictable (replacer_ s) f).
Proof.
  intros Hi%reachable_inv Hpg Hres.
  destruct (inv_pins s Hi f pg Hpg) as (_ & Hpin & Hflag).
  assert (is_Some (flag s f)) as Hsome.
  { destruct Hres as [Hres|(page_id & t' & HF)]; [by apply Hflag|].
    by destruct (found_frame s page_id t' f Hi HF) as (_ & _ & _ & ? & _). }
  clear Hflag. rename Hsome into Hflag.
  unfold LRUKReplacer.evictable. unfold flag in *.
  destruct (LRUKReplacer.is_evictable_map (replacer_ s) !! f) as [[|]|].
  - split; [done|]. intros _. destruct (decide (pin_count_ pg = 0)); [done|].
    by assert (Some true = Some false) by by apply Hpin.
  - split; [|done]. intros Hz. by assert (pin_count_ pg <> 0) by by apply Hpin.
  - by destruct Hflag.
Qed.


(** C4 - [UnpinPage] returns false, and changes nothing, exactly when the
    page is not in the page table or the pin count of its frame is 0.
    Otherwise it returns true, the pin count is one lower, the dirty flag is
    the old flag or [is_dirty], so that [is_dirty = false] keeps a set flag,
    and when the pin count has reached 0 the frame is flagged evictable. *)
Theorem UnpinPgImp_spec s page_id is_dirty :
  reachable s ->
  exists s' ret t' found,
    UnpinPgImp s page_id is_dirty = Done (s', ret) /\
    pt_Find (page_table_ s) page_id = Done (t', found) /\
    match found with
    | None => ret = false /\ s' = s
    | Some frame_id =>
        exists pg, page_at (pages_ s) frame_id = Done pg /\
          if pin_count_ pg =? 0 then ret = false /\ s' = s
          else
            ret = true /\
            pages_ s' =
              set_page (pages_ s) frame_id
                (mkPage (data_ pg) (page_id_ pg) (pin_count_ pg - 1)
                   (is_dirty_ pg || is_dirty)) /\
            (pin_count_ pg - 1 = 0 -> LRUKReplacer.evictable (replacer_ s') frame_id) /\
            (pin_count_ pg - 1 <> 0 -> replacer_ s' = replacer_ s) /\
            page_table_ s' = page_table_ s /\ free_list_ s' = free_list_ s /\
            next_page_id_ s' = next_page_id_ s /\ disk_manager_ s' = disk_manager_ s
    end.
Proof.
  intros Hi%reachable_inv. unfold UnpinPgImp.
  destruct (Find_Done hash_page_id (page_table_ s) page_id (inv_table s Hi))
    as (p & b & _ & HF).
  fold (pt_Find (page_table_ s) page_id) in HF. rewrite HF. simpl.
  destruct (ExtendibleHashTable.Bucket_Find b page_id) as [f|] eqn:Hfound.
  - destruct (found_frame s page_id _ f Hi HF) as (pg & Hpg & Hok & Hflag & Hle).
    rewrite Hpg. simpl. unfold GetPinCount.
    destruct (Z.eqb_spec (pin_count_ pg) 0) as [Hz|Hnz].
    + eexists _, _, _, _. split; [done|]. split; [done|]. exists pg. split; [done|].
      by rewrite Hz.
    + destruct (inv_pins s Hi f pg Hpg) as (Hpin0 & _).
      destruct (Z.eqb_spec (pin_count_ pg) INT_MIN) as [Hmin|_];
        [unfold INT_MIN in Hmin; lia|].
      assert ((if is_dirty then is_dirty else is_dirty_ pg) = is_dirty_ pg || is_dirty) as ->.
      { destruct is_dirty, (is_dirty_ pg); done. }
      destruct (Z.eqb_spec (pin_count_ pg - 1) 0) as [Hz1|Hnz1].
      * destruct (SetEvictable_Done (replacer_ s) f true Hle)
          as (r3 & Hset' & _ & _ & _ & _ & _ & Hm3 & _).
        rewrite Hset'. simpl.
        eexists _, _, _, _. split; [done|]. split; [done|]. exists pg. split; [done|].
        destruct (Z.eqb_spec (pin_count_ pg) 0); [done|]. simpl.
        repeat (split; [done|]). split; [|done].
        intros _. unfold LRUKReplacer.evictable. by rewrite Hm3, lookup_insert_eq.
      * simpl.
        eexists _, _, _, _. split; [done|]. split; [done|]. exists pg. split; [done|].
        destruct (Z.eqb_spec (pin_count_ pg) 0); [done|]. simpl.
        repeat (split; [done|]). done.
  - eexists _, _, _, _. split; [done|]. split; [done|]. done.
Qed.

(** C5, as amended - For a page id that is resident, that is, found in the
    page table, [FetchPage] followed by [UnpinPage(id, false)] returns the
    frames (page ids, pin counts, dirty flags, bytes), the page table, the
    free list, the page id counter, the disk, the evictable flags and [Size]
    to what they were; only the access counts and the order of the
    replacer's lists may differ. *)
Theorem Fetch_then_Unpin_resident fuel s page_id t' frame_id pg :
  reachable s ->
  pt_Find (page_table_ s) page_id = Done (t', Some frame_id) ->
  page_at (pages_ s) frame_id = Done pg -> pin_count_ pg < INT_MAX ->
  exists s1 s2,
    FetchPgImp fuel s page_id = Done (s1, Some frame_id) /\
    UnpinPgImp s1 page_id false = Done (s2, true) /\
    pages_ s2 = pages_ s /\ page_table_ s2 = page_table_ s /\
    free_list_ s2 = free_list_ s /\ next_page_id_ s2 = next_page_id_ s /\
    disk_manager_ s2 = disk_manager_ s /\
    LRUKReplacer.is_evictable_map (replacer_ s2) =
      LRUKReplacer.is_evictable_map (replacer_ s) /\
    LRUKReplacer.curr_size_ (replacer_ s2) = LRUKReplacer.curr_size_ (replacer_ s) /\
    LRUKReplacer.replacer_size_ (replacer_ s2) = LRUKReplacer.replacer_size_ (replacer_ s) /\
    LRUKReplacer.k_ (replacer_ s2) = LRUKReplacer.k_ (replacer_ s).
Proof.
  intros Hi%reachable_inv HF Hpg Hmax.
  destruct (found_frame s page_id t' frame_id Hi HF) as (pg' & Hpg' & Hok & Hflag & Hle).
  assert (pg' = pg) as -> by congruence.
  destruct (inv_pins s Hi frame_id pg Hpg) as (Hpin0 & Hpin & _).
  destruct (RecordAccess_Done _ frame_id Hle)
    as (rep2 & Hacc & Hsz2 & Hk2 & Hc2 & Hm2 & _ & _).
  assert (frame_id <= LRUKReplacer.to_int (LRUKReplacer.replacer_size_ rep2)) as Hle2
    by by rewrite Hsz2.
  destruct (SetEvictable_Done rep2 frame_id false Hle2)
    as (rep3 & Hset & Hsz3 & Hk3 & _ & _ & _ & Hm3 & Hc3).
  assert (frame_id <= LRUKReplacer.to_int (LRUKReplacer.replacer_size_ rep3)) as Hle3
    by by rewrite Hsz3.
  destruct (SetEvictable_Done rep3 frame_id true Hle3)
    as (rep4 & Hset4 & Hsz4 & Hk4 & _ & _ & _ & Hm4 & Hc4).
  rewrite Hm2 in Hm3, Hc3. rewrite Hc2 in Hc3.
  rewrite Hm3, lookup_insert_eq in Hc4. rewrite Hm3, insert_insert_eq in Hm4.
  assert (set_page
            (set_page (pages_ s) frame_id
               (mkPage (data_ pg) (page_id_ pg) (pin_count_ pg + 1) (is_dirty_ pg)))
            frame_id
            (mkPage (data_ pg) (page_id_ pg) (pin_count_ pg + 1 - 1) (is_dirty_ pg))
          = pages_ s) as Hpages.
  { unfold set_page. rewrite list_insert_insert_eq.
    replace (pin_count_ pg + 1 - 1) with (pin_count_ pg) by lia.
    apply list_insert_id. apply page_at_Done in Hpg as [_ Hl]. by destruct pg. }
  assert (FetchPgImp fuel s page_id =
          Done (mk (set_page (pages_ s) frame_id
                      (mkPage (data_ pg) (page_id_ pg) (pin_count_ pg + 1) (is_dirty_ pg)))
                  (page_table_ s) rep3 (free_list_ s) (next_page_id_ s) (disk_manager_ s),
                Some frame_id)) as Hfetch.
  { rewrite FetchPgImp_unfold, HF. simpl. rewrite Hpg. simpl.
    destruct (Z.eqb_spec (pin_count_ pg) INT_MAX); [lia|].
    rewrite Hacc. simpl. rewrite Hset. simpl. reflexivity. }
  match type of Hfetch with _ = Done (?x, _) => exists x end.
  unfold UnpinPgImp. simpl. rewrite HF. simpl.
  rewrite page_at_set_eq by done. simpl. unfold GetPinCount. simpl.
  destruct (Z.eqb_spec (pin_count_ pg + 1) 0); [lia|].
  destruct (Z.eqb_spec (pin_count_ pg + 1) INT_MIN); [unfold INT_MIN in *; lia|].
  destruct (Z.eqb_spec (pin_count_ pg + 1 - 1) 0) as [Hz|Hnz].
  - rewrite Hset4. simpl. eexists. split; [done|]. split; [done|]. simpl.
    rewrite Hpages. repeat (split; [done|]).
    assert (flag s frame_id = Some true) as Htrue.
    { destruct Hflag as [[|] Hb]; [done|]. apply Hpin in Hb. lia. }
    unfold flag in Htrue. rewrite Htrue in Hc3.
    split; [rewrite Hm4; by apply insert_id|].
    split; [rewrite Hc4, Hc3; apply size_t_wrap_back, (inv_curr s Hi)|].
    split; congruence.
  - simpl. eexists. split; [done|]. split; [done|]. simpl.
    rewrite Hpages. repeat (split; [done|]).
    assert (flag s frame_id = Some false) as Hfalse by (apply Hpin; lia).
    unfold flag in Hfalse. rewrite Hfalse in Hc3.
    split; [rewrite Hm3; by apply insert_id|].
    split; [done|]. split; congruence.
Qed.

(** *** Concrete runs *)

Lemma one_page_reachable : reachable one_page.
Proof.
  apply (reachable_NewPage 64 (new 2 ∅ 2 4) one_page (Some (0, 0))).
  - apply reachable_new. vm_compute. congruence.
  - vm_compute. reflexivity.
Defined.

Lemma pin_zero_iff_evictable_witness :
  1 = 0 <-> LRUKReplacer.evictable (replacer_ one_page) 0.
Proof.
  apply (pin_zero_iff_evictable one_page 0 (mkPage zeroed 0 1 false)).
  - apply one_page_reachable.
  - vm_compute. reflexivity.
  - left. vm_compute. congruence.
Defined.


Lemma UnpinPgImp_spec_witness :
  exists s' ret t' found,
    UnpinPgImp one_page 0 true = Done (s', ret) /\
    pt_Find (page_table_ one_page) 0 = Done (t', found) /\
    match found with
    | None => ret = false /\ s' = one_page
    | Some frame_id =>
        exists pg, page_at (pages_ one_page) frame_id = Done pg /\
          if pin_count_ pg =? 0 then ret = false /\ s' = one_page
          else
            ret = true /\
            pages_ s' =
              set_page (pages_ one_page) frame_id
                (mkPage (data_ pg) (page_id_ pg) (pin_count_ pg - 1)
                   (is_dirty_ pg || true)) /\
            (pin_count_ pg - 1 = 0 -> LRUKReplacer.evictable (replacer_ s') frame_id) /\
            (pin_count_ pg - 1 <> 0 -> replacer_ s' = replacer_ one_page) /\
            page_table_ s' = page_table_ one_page /\ free_list_ s' = free_list_ one_page /\
            next_page_id_ s' = next_page_id_ one_page /\
            disk_manager_ s' = disk_manager_ one_page
    end.
Proof. apply (UnpinPgImp_spec one_page 0 true). apply one_page_reachable. Defined.

Lemma Fetch_then_Unpin_resident_witness :
  exists s1 s2,
    FetchPgImp 64 one_page 0 = Done (s1, Some 0) /\
    UnpinPgImp s1 0 false = Done (s2, true) /\
    pages_ s2 = pages_ one_page /\ page_table_ s2 = page_table_ one_page /\
    free_list_ s2 = free_list_ one_page /\ next_page_id_ s2 = next_page_id_ one_page /\
    disk_manager_ s2 = disk_manager_ one_page /\
    LRUKReplacer.is_evictable_map (replacer_ s2) =
      LRUKReplacer.is_evictable_map (replacer_ one_page) /\
    LRUKReplacer.curr_size_ (replacer_ s2) = LRUKReplacer.curr_size_ (replacer_ one_page) /\
    LRUKReplacer.replacer_size_ (replacer_ s2) =
      LRUKReplacer.replacer_size_ (replacer_ one_page) /\
    LRUKReplacer.k_ (replacer_ s2) = LRUKReplacer.k_ (replacer_ one_page).
Proof.
  apply (Fetch_then_Unpin_resident 64 one_page 0 (page_table_ one_page) 0
           (mkPage zeroed 0 1 false)).
  - apply one_page_reachable.
  - vm_compute. reflexivity.
  - vm_compute. reflexivity.
  - vm_compute. reflexivity.
Defined.

(** The claim C5 fails for a page that is not resident: the fetch takes a
    frame off the free list and enters the page in the page table, and the
    unpin does not undo that. *)
Lemma Fetch_then_Unpin_not_resident :
  exists s1 s2,
    FetchPgImp 64 (new 1 ∅ 2 4) 0 = Done (s1, Some 0) /\
    UnpinPgImp s1 0 false = Done (s2, true) /\
    free_list_ (new 1 ∅ 2 4) = [0] /\ free_list_ s2 = [] /\
    (exists t', pt_Find (page_table_ (new 1 ∅ 2 4)) 0 = Done (t', None)) /\
    (exists t', pt_Find (page_table_ s2) 0 = Done (t', Some 0)) /\
    page_id_ <$> pages_ (new 1 ∅ 2 4) = [INVALID_PAGE_ID] /\
    page_id_ <$> pages_ s2 = [0].
Proof.
  do 2 eexists. split; [vm_compute; reflexivity|].
  split; [vm_compute; reflexivity|].
  split; [vm_compute; reflexivity|]. split; [vm_compute; reflexivity|].
  split; [eexists; vm_compute; reflexivity|]. split; [eexists; vm_compute; reflexivity|].
  split; vm_compute; reflexivity.
Qed.

(** Scenario 2 of the specification: ten pages pinned in ten frames, then
    [UnpinPage(0, true)]; the next [NewPage] returns page id 10 in the frame
    that held page 0, and the disk has seen [WritePage(0, ...)]. *)
Example scenario_dirty_victim :
  exists s10 rets s s',
    new_pages 64 10 (new 10 ∅ 2 4) = Done (s10, rets) /\
    UnpinPgImp s10 0 true = Done (s, true) /\
    NewPgImp 64 s = Done (s', Some (10, 0)) /\
    page_id_ <$> pages_ s10 !! 0%nat = Some 0 /\
    page_id_ <$> pages_ s' !! 0%nat = Some 10 /\
    is_Some (disk_manager_ s' !! 0) /\ disk_manager_ s !! 0 = None.
Proof.
  do 4 eexists. split; [vm_compute; reflexivity|].
  split; [vm_compute; reflexivity|]. split; [vm_compute; reflexivity|].
  split; [vm_compute; reflexivity|]. split; [vm_compute; reflexivity|].
  split; [vm_compute; eauto|vm_compute; reflexivity].
Qed.

(** A run on two frames: [NewPage] twice, [UnpinPage(0)], [DeletePage(0)],
    [NewPage], [UnpinPage(1)].  [Remove] has left the flag of frame 0 set,
    the next [SetEvictable(0, false)] has lowered [Size] a second time, and
    [Size] is 0 while frame 1 is unpinned and evictable.  The next [NewPage]
    finds no free frame, [Evict] returns false, and the frame id is read
    without having been written. *)
Example NewPgImp_with_stale_size :
  exists s,
    ('(s, _) ← NewPgImp 64 (new 2 ∅ 2 4);
     '(s, _) ← NewPgImp 64 s;
     '(s, _) ← UnpinPgImp s 0 false;
     '(s, _) ← DeletePgImp s 0;
     '(s, _) ← NewPgImp 64 s;
     '(s, _) ← UnpinPgImp s 1 false;
     Done s) = Done s /\
    pin_count_ <$> pages_ s = [1; 0] /\
    LRUKReplacer.evictable (replacer_ s) 1 /\
    LRUKReplacer.Size (replacer_ s) = 0 /\
    NewPgImp 64 s = Undefined.
Proof.
  eexists. split; [vm_compute; reflexivity|].
  repeat split; vm_compute; reflexivity.
Qed.

End BufferPoolProps.

(** * Further properties of the code *)

(** ** The hash table as a map *)

Module HashTableMap.
Import ExtendibleHashTable HashTableProps.

Section map.
Context {K V : Type} `{EqDecision K} `{EqDecision V}.
Variable hash : K -> nat.

#[local] Abbreviation Table := (Table K V).
#[local] Abbreviation Bucket := (Bucket K V).
#[local] Abbreviation IndexOf := (IndexOf hash).
#[local] Abbreviation table_inv := (table_inv hash).
#[local] Abbreviation split_of := (split_of (V:=V) hash).
#[local] Abbreviation same_side := (same_side (V:=V) hash).
#[local] Abbreviation has_key := (fun (key : K) (item : K * V) => bool_decide (item.1 = key)).

Implicit Types (t : Table) (b : Bucket) (key k : K) (items : list (K * V)).

(** *** Keys occur once *)

Lemma NoDup_fst_filter (P : K * V -> Prop) `{forall x, Decision (P x)} items :
  NoDup items.*1 -> NoDup (filter P items).*1.
Proof.
  intros Hnd. eapply sublist_NoDup; [done|].
  apply fmap_sublist, sublist_filter.
Qed.

Lemma NoDup_fst_eq items (x y : K * V) :
  NoDup items.*1 -> x ∈ items -> y ∈ items -> x.1 = y.1 -> x = y.
Proof.
  induction items as [|z items IH]; intros Hnd Hx Hy Heq; [by apply elem_of_nil in Hx|].
  rewrite fmap_cons in Hnd. apply NoDup_cons in Hnd as [Hz Hnd].
  apply elem_of_cons in Hx as [->|Hx]; apply elem_of_cons in Hy as [->|Hy]; try done.
  - exfalso. apply Hz. rewrite Heq. by apply (list_elem_of_fmap_2 fst).
  - exfalso. apply Hz. rewrite <- Heq. by apply (list_elem_of_fmap_2 fst).
  - by apply IH.
Qed.

Lemma assign_None items key value :
  assign items key value = None <-> key ∉ items.*1.
Proof.
  induction items as [|x items IH]; simpl.
  - split; [intros _; apply not_elem_of_nil|done].
  - case_bool_decide as Hk.
    + split; [done|]. intros Hn. exfalso. apply Hn. rewrite <- Hk. left.
    + rewrite not_elem_of_cons. destruct (assign items key value); simpl.
      * split; [done|]. intros [_ Hn]. by apply IH in Hn.
      * split; [|done]. intros _. split; [congruence|]. by apply IH.
Qed.

Lemma with_bucket_keys t p b' :
  keys_inv t -> NoDup (list_ b').*1 -> keys_inv (with_bucket t p b').
Proof.
  intros Hk Hb' i q c Hq Hc. simpl in *.
  destruct (decide (q = p)) as [->|Hne].
  - destruct (decide (p < length (store_ t))) as [Hlt|Hge].
    + rewrite list_lookup_insert_eq in Hc by done. by injection Hc as <-.
    + rewrite list_insert_ge in Hc by lia. by eapply Hk.
  - rewrite list_lookup_insert_ne in Hc by done. by eapply Hk.
Qed.

Lemma split_of_keys t i0 p b :
  table_inv t -> keys_inv t -> dir_ t !! i0 = Some p -> store_ t !! p = Some b ->
  keys_inv (split_of t p b).
Proof.
  intros Hi Hk Hp Hb i p' c Hp' Hc.
  destruct (inv_bucket _ _ Hi _ _ Hp) as (b' & Hb' & Hd & _).
  assert (b' = b) as -> by congruence.
  destruct (split_of_slot _ _ _ _ _ _ Hi Hd Hp') as (q & Hq & ->).
  unfold relink in Hc. destruct (Nat.eqb_spec q p) as [Heq|Hne].
  - subst q. destruct (Nat.testbit i (depth_ b)).
    + rewrite split_of_store_1 in Hc. injection Hc as <-. simpl.
      apply NoDup_fst_filter. by eapply Hk.
    + rewrite split_of_store_0 in Hc. injection Hc as <-. simpl.
      apply NoDup_fst_filter. by eapply Hk.
  - destruct (inv_bucket _ _ Hi _ _ Hq) as (bq & Hbq & _).
    rewrite split_of_store_old in Hc by (by eapply lookup_lt_Some). by eapply Hk.
Qed.

Lemma split_keys t key p b t' :
  table_inv t -> keys_inv t ->
  bucket_at t (ExtendibleHashTable.IndexOf hash t key) = Done (p, b) ->
  ExtendibleHashTable.split hash t key = Done t' -> keys_inv t'.
Proof.
  intros Hi Hk Hat Hs. pose proof Hat as [Hp Hb]%bucket_at_Done.
  destruct (inv_bucket _ _ Hi _ _ Hp) as (b' & Hb' & _ & Hsz & Hlen & _).
  assert (b' = b) as -> by congruence.
  rewrite (split_closed_form hash t key p b Hat) in Hs by lia.
  injection Hs as <-. by eapply split_of_keys.
Qed.

Lemma store_entry_keys t key value t' :
  keys_inv t -> store_entry hash t key value = Done t' -> keys_inv t'.
Proof.
  intros Hk Hs. unfold store_entry in Hs.
  destruct (bucket_at t (ExtendibleHashTable.IndexOf hash t key)) as [[p b]| | |] eqn:Hat;
    [|done..].
  simpl in Hs. injection Hs as <-.
  apply bucket_at_Done in Hat as [Hp Hb]. pose proof (Hk _ _ _ Hp Hb) as Hnd.
  apply (with_bucket_keys t p); [done|]. unfold GetItems.
  destruct (assign (list_ b) key value) as [items|] eqn:Has; simpl.
  - by rewrite (proj1 (assign_Some _ _ _ _ Has)).
  - unfold Bucket_Insert. destruct (IsFull b); simpl; [done|].
    rewrite fmap_app. simpl. apply NoDup_app. split; [done|]. split.
    + intros k Hin ->%list_elem_of_singleton. by apply assign_None in Has.
    + apply NoDup_singleton.
Qed.

Lemma Remove_keys t key t' r :
  keys_inv t -> Remove hash t key = Done (t', r) -> keys_inv t'.
Proof.
  intros Hk Hr. unfold Remove in Hr.
  destruct (bucket_at t (ExtendibleHashTable.IndexOf hash t key)) as [[p b]| | |] eqn:Hat;
    [|done..].
  simpl in Hr. apply bucket_at_Done in Hat as [Hp Hb]. pose proof (Hk _ _ _ Hp Hb) as Hnd.
  unfold Bucket_Remove in Hr. destruct (find _ (list_ b)) as [item|]; injection Hr as <- _.
  - apply (with_bucket_keys t p); [done|]. simpl. by apply NoDup_fst_filter.
  - by apply (with_bucket_keys t p).
Qed.

Lemma split_loop_keys fuel t key t' :
  table_inv t -> keys_inv t -> split_loop hash fuel t key = Done t' -> keys_inv t'.
Proof.
  revert t. induction fuel as [|fuel IH]; intros t Hi Hk; simpl;
    destruct (bucket_at t (ExtendibleHashTable.IndexOf hash t key)) as [[p b]| | |] eqn:Hat;
    try done; simpl; destruct (IsFull b) eqn:Hfull; try done;
    try (by intros [= <-]).
  destruct (ExtendibleHashTable.split hash t key) as [t1| | |] eqn:Hs; [|done..].
  simpl. apply IH; [by eapply split_inv|by eapply split_keys].
Qed.

Lemma Insert_keys fuel t key value t' :
  table_inv t -> keys_inv t -> Insert hash fuel t key value = Done t' -> keys_inv t'.
Proof.
  intros Hi Hk. unfold Insert.
  destruct (split_loop hash fuel t key) as [t1| | |] eqn:Hl; [|done..]. simpl.
  apply store_entry_keys. by eapply split_loop_keys.
Qed.

Lemma new_keys bucket_size : keys_inv (new bucket_size : Table).
Proof. intros [|i] p b; [|done]. intros [= <-] [= <-]. simpl. apply NoDup_nil_2. Qed.

Lemma stepwise_keys t : stepwise hash t -> keys_inv t.
Proof.
  induction 1 as [bs|t key p b t' Hst IH Hat _ Hs|t key value p b t' Hst IH Hat _ Hs
                  |t key t' r Hst IH Hr].
  - apply new_keys.
  - eapply split_keys; [by apply stepwise_inv|done..].
  - by eapply store_entry_keys.
  - by eapply Remove_keys.
Qed.

(** *** [Find] after [Insert] and [Remove] *)

Lemma assign_find_other items key value items' k :
  assign items key value = Some items' -> k <> key ->
  List.find (has_key k) items' = List.find (has_key k) items.
Proof.
  revert items'. induction items as [|x items IH]; intros items'; simpl; [done|].
  case_bool_decide as Hx.
  - intros [= <-] Hne. simpl. rewrite !bool_decide_eq_false_2 by congruence. done.
  - destruct (assign items key value) as [r|]; [|done]. simpl. intros [= <-] Hne. simpl.
    destruct (bool_decide (x.1 = k)); [done|]. by apply IH.
Qed.

Lemma find_app_other items key value k :
  k <> key ->
  List.find (has_key k) (items ++ [(key, value)]) = List.find (has_key k) items.
Proof.
  intros Hne. induction items as [|x items IH]; simpl.
  - by rewrite bool_decide_eq_false_2.
  - by destruct (bool_decide (x.1 = k)).
Qed.

Lemma Find_with_bucket t p b b' k q bq :
  dir_ t !! ExtendibleHashTable.IndexOf hash t k = Some q ->
  store_ t !! q = Some bq -> store_ t !! p = Some b ->
  (q = p -> Bucket_Find b' k = Bucket_Find b k) ->
  Find hash t k = Done (t, Bucket_Find bq k) /\
  Find hash (with_bucket t p b') k = Done (with_bucket t p b', Bucket_Find bq k).
Proof.
  intros Hq Hbq Hb Hsame. unfold Find, bucket_at. simpl.
  change (ExtendibleHashTable.IndexOf hash (with_bucket t p b') k)
    with (ExtendibleHashTable.IndexOf hash t k).
  rewrite Hq, Hbq. simpl. split; [done|].
  destruct (decide (q = p)) as [->|Hne].
  - rewrite list_lookup_insert_eq by (by eapply lookup_lt_Some). simpl.
    assert (bq = b) as -> by congruence. by rewrite Hsame.
  - rewrite list_lookup_insert_ne by done. rewrite Hbq. done.
Qed.

Lemma store_entry_other t key value t' k :
  table_inv t -> store_entry hash t key value = Done t' -> k <> key ->
  exists r, Find hash t k = Done (t, r) /\ Find hash t' k = Done (t', r).
Proof.
  intros Hi Hs Hne. unfold store_entry in Hs.
  destruct (bucket_at t (ExtendibleHashTable.IndexOf hash t key)) as [[p b]| | |] eqn:Hat;
    [|done..].
  simpl in Hs. injection Hs as <-. apply bucket_at_Done in Hat as [Hp Hb].
  destruct (target_bucket_exists hash t k Hi) as (q & bq & [Hq Hbq]%bucket_at_Done).
  exists (Bucket_Find bq k).
  apply (Find_with_bucket t p b _ k q bq Hq Hbq Hb). intros _.
  unfold Bucket_Find, GetItems. f_equal.
  destruct (assign (list_ b) key value) as [items|] eqn:Has; simpl.
  - by eapply assign_find_other.
  - unfold Bucket_Insert. destruct (IsFull b); simpl; [done|]. by apply find_app_other.
Qed.

Lemma split_loop_Find fuel t key t' k :
  table_inv t -> split_loop hash fuel t key = Done t' ->
  exists r, Find hash t k = Done (t, r) /\ Find hash t' k = Done (t', r).
Proof.
  revert t. induction fuel as [|fuel IH]; intros t Hi; simpl;
    destruct (bucket_at t (ExtendibleHashTable.IndexOf hash t key)) as [[p b]| | |] eqn:Hat;
    try done; simpl; destruct (IsFull b) eqn:Hfull; try done.
  - intros [= <-]. destruct (Find_Done hash t k Hi) as (q & bq & _ & HF). eauto.
  - pose proof Hat as [Hp Hb]%bucket_at_Done.
    destruct (inv_bucket _ _ Hi _ _ Hp) as (b' & Hb' & _ & Hsz & Hlen & _).
    assert (b' = b) as -> by congruence.
    rewrite (split_closed_form hash t key p b Hat) by lia. simpl. intros Hl.
    destruct (Find_split_of hash t p b key k Hi Hat) as (r & HF & HF1).
    destruct (IH _ (split_of_inv hash t _ p b Hi Hp Hb) Hl) as (r' & HF1' & HF').
    exists r. split; [done|]. congruence.
  - intros [= <-]. destruct (Find_Done hash t k Hi) as (q & bq & _ & HF). eauto.
Qed.

Lemma Insert_Find_inv fuel t key value t' :
  table_inv t -> Insert hash fuel t key value = Done t' ->
  Find hash t' key = Done (t', Some value) /\
  forall k, k <> key ->
    exists r, Find hash t k = Done (t, r) /\ Find hash t' k = Done (t', r).
Proof.
  intros Hi. unfold Insert.
  destruct (split_loop hash fuel t key) as [t1| | |] eqn:Hl; [|done..]. simpl. intros Hs.
  pose proof (split_loop_inv hash _ _ _ _ Hi Hl) as Hi1.
  assert (exists p b, bucket_at t1 (ExtendibleHashTable.IndexOf hash t1 key) = Done (p, b) /\
            IsFull b = false) as (p & b & Hat & Hfull).
  { clear Hs. revert t Hi Hl. induction fuel as [|fuel IH]; intros t Hi; simpl;
      destruct (bucket_at t (ExtendibleHashTable.IndexOf hash t key)) as [[p b]| | |] eqn:Hat;
      try done; simpl; destruct (IsFull b) eqn:Hfull; try done;
      try (intros [= <-]; eauto; fail).
    destruct (ExtendibleHashTable.split hash t key) as [t2| | |] eqn:Hsp; [|done..].
    simpl. apply IH. by eapply split_inv. }
  destruct (store_entry_found hash t1 key value p b Hi1 Hat Hfull) as (t2 & Hs2 & HF).
  assert (t2 = t') as -> by congruence. split; [done|].
  intros k Hne.
  destruct (split_loop_Find fuel t key t1 k Hi Hl) as (r & HF0 & HF1).
  destruct (store_entry_other t1 key value t' k Hi1 Hs Hne) as (r' & HF1' & HF').
  exists r. split; [done|]. congruence.
Qed.

Lemma Remove_Find_inv t key :
  table_inv t -> keys_inv t ->
  exists t' r,
    Remove hash t key = Done (t', bool_decide (is_Some r)) /\
    Find hash t key = Done (t, r) /\
    Find hash t' key = Done (t', None) /\
    (forall k, k <> key ->
       exists r', Find hash t k = Done (t, r') /\ Find hash t' k = Done (t', r')) /\
    dir_ t' = dir_ t /\ global_depth_ t' = global_depth_ t /\
    num_buckets_ t' = num_buckets_ t /\
    (r = None -> t' = t).
Proof.
  intros Hi Hk. destruct (target_bucket_exists hash t key Hi) as (p & b & Hat).
  pose proof Hat as [Hp Hb]%bucket_at_Done. pose proof (Hk _ _ _ Hp Hb) as Hnd.
  unfold Remove. rewrite Hat. simpl. unfold Bucket_Remove.
  destruct (List.find _ (list_ b)) as [item|] eqn:Hfind.
  - apply find_some in Hfind as Hsome. destruct Hsome as [Hin Hkey].
    apply list_elem_of_In in Hin. apply bool_decide_eq_true in Hkey.
    eexists _, (Some item.2). split; [done|].
    split; [unfold Find; rewrite Hat; simpl; unfold Bucket_Find; by rewrite Hfind|].
    split.
    + unfold Find, bucket_at. simpl.
      change (ExtendibleHashTable.IndexOf hash _ key)
        with (ExtendibleHashTable.IndexOf hash t key).
      rewrite Hp, list_lookup_insert_eq by (by eapply lookup_lt_Some). simpl.
      do 2 f_equal. unfold Bucket_Find. simpl.
      destruct (List.find _ (filter (fun x => x <> item) (list_ b)))
        as [x|] eqn:Hx; [|done].
      apply find_some in Hx as [Hxin Hxk]. apply list_elem_of_In in Hxin.
      apply list_elem_of_filter in Hxin as [Hxne Hxin]. apply bool_decide_eq_true in Hxk.
      exfalso. apply Hxne. apply (NoDup_fst_eq (list_ b)); congruence.
    + split; [|done]. intros k Hne.
      destruct (target_bucket_exists hash t k Hi) as (q & bq & [Hq Hbq]%bucket_at_Done).
      exists (Bucket_Find bq k).
      apply (Find_with_bucket t p b _ k q bq Hq Hbq Hb). intros _.
      unfold Bucket_Find. simpl. f_equal. apply find_filter.
      intros x Hx%bool_decide_eq_true ->. congruence.
  - eexists _, None. split; [done|].
    assert (with_bucket t p b = t) as Hsame.
    { unfold with_bucket. rewrite list_insert_id by done. by destruct t. }
    fold (with_bucket t p b). rewrite Hsame.
    assert (Find hash t key = Done (t, None)) as HF.
    { unfold Find. rewrite Hat. simpl. unfold Bucket_Find. by rewrite Hfind. }
    split; [done|]. split; [done|]. split; [|done].
    intros k _. destruct (Find_Done hash t k Hi) as (q & bq & _ & HFk). eauto.
Qed.

(** *** The table as a finite map *)

Lemma target_of_item t i p b key v :
  table_inv t -> dir_ t !! i = Some p -> store_ t !! p = Some b ->
  (key, v) ∈ list_ b ->
  bucket_at t (ExtendibleHashTable.IndexOf hash t key) = Done (p, b).
Proof.
  intros Hi Hp Hb Hin.
  destruct (target_bucket_exists hash t key Hi) as (q & bq & Hat).
  pose proof Hat as [Hq Hbq]%bucket_at_Done.
  destruct (inv_bucket _ _ Hi _ _ Hp) as (b' & Hb' & Hd & _ & _ & Hitems).
  assert (b' = b) as -> by congruence.
  assert (p = q) as <-.
  { apply (inv_share _ _ Hi i _ p q b Hp Hq Hb).
    rewrite <- (Hitems _ Hin). simpl. rewrite IndexOf_mod. by rewrite mod_pow2_mod. }
  rewrite Hat. do 2 f_equal. congruence.
Qed.

Lemma Bucket_Find_Some b key v :
  NoDup (list_ b).*1 -> Bucket_Find b key = Some v <-> (key, v) ∈ list_ b.
Proof.
  intros Hnd. unfold Bucket_Find, GetItems. split.
  - destruct (List.find _ (list_ b)) as [item|] eqn:Hfind; [|done].
    simpl. intros [= <-]. apply find_some in Hfind as [Hin Hkey].
    apply list_elem_of_In in Hin. apply bool_decide_eq_true in Hkey.
    destruct item as [k w]. simpl in *. by subst k.
  - intros Hin. destruct (List.find _ (list_ b)) as [item|] eqn:Hfind.
    + apply find_some in Hfind as [Hin' Hkey].
      apply list_elem_of_In in Hin'. apply bool_decide_eq_true in Hkey.
      by rewrite (NoDup_fst_eq (list_ b) item (key, v)).
    + exfalso. apply list_elem_of_In in Hin.
      pose proof (find_none _ _ Hfind _ Hin) as Hno. simpl in Hno.
      by rewrite bool_decide_eq_true_2 in Hno.
Qed.

Lemma elem_of_entries t item :
  item ∈ entries t <->
  exists i p b, dir_ t !! i = Some p /\ store_ t !! p = Some b /\ item ∈ list_ b.
Proof.
  unfold entries, live, items_at. rewrite list_elem_of_bind. split.
  - intros (p & Hin & Hp). rewrite elem_of_remove_dups in Hp.
    apply list_elem_of_lookup in Hp as [i Hp].
    destruct (store_ t !! p) as [b|] eqn:Hb; simpl in Hin; [|by apply elem_of_nil in Hin].
    eauto 6.
  - intros (i & p & b & Hp & Hb & Hin). exists p. rewrite Hb. simpl. split; [done|].
    apply elem_of_remove_dups. by eapply list_elem_of_lookup_2.
Qed.

Lemma Find_entries t key v :
  table_inv t -> keys_inv t ->
  Find hash t key = Done (t, Some v) <-> (key, v) ∈ entries t.
Proof.
  intros Hi Hk. rewrite elem_of_entries. split.
  - destruct (Find_Done hash t key Hi) as (p & b & [Hp Hb]%bucket_at_Done & ->).
    intros [= HF]. exists (ExtendibleHashTable.IndexOf hash t key), p, b.
    split; [done|]. split; [done|]. apply Bucket_Find_Some; [|done]. by eapply Hk.
  - intros (i & p & b & Hp & Hb & Hin).
    pose proof (target_of_item t i p b key v Hi Hp Hb Hin) as Hat.
    unfold Find. rewrite Hat. simpl. do 2 f_equal.
    apply Bucket_Find_Some; [|done]. by eapply Hk.
Qed.

Lemma fst_bind (l : list nat) (f : nat -> list (K * V)) :
  (l ≫= f).*1 = l ≫= (fun p => (f p).*1).
Proof. induction l as [|p l IH]; csimpl; [done|]. by rewrite fmap_app, IH. Qed.

Lemma entries_keys_NoDup t : table_inv t -> keys_inv t -> NoDup (entries t).*1.
Proof.
  intros Hi Hk. unfold entries. rewrite fst_bind.
  assert (forall p k, p ∈ live t -> k ∈ (items_at t p).*1 ->
            exists i b v, dir_ t !! i = Some p /\ store_ t !! p = Some b /\
              (k, v) ∈ list_ b) as Hitem.
  { intros p k Hp ([k' v] & -> & Hin)%list_elem_of_fmap.
    unfold live in Hp. rewrite elem_of_remove_dups in Hp.
    apply list_elem_of_lookup in Hp as [i Hp]. unfold items_at in Hin.
    destruct (store_ t !! p) as [b|] eqn:Hb; simpl in Hin; [|by apply elem_of_nil in Hin].
    eauto 6. }
  apply NoDup_bind.
  - intros p1 p2 k Hp1 Hp2 Hk1 Hk2.
    destruct (Hitem _ _ Hp1 Hk1) as (i1 & b1 & v1 & Hd1 & Hb1 & Hin1).
    destruct (Hitem _ _ Hp2 Hk2) as (i2 & b2 & v2 & Hd2 & Hb2 & Hin2).
    pose proof (target_of_item t i1 p1 b1 k v1 Hi Hd1 Hb1 Hin1) as Hat1.
    pose proof (target_of_item t i2 p2 b2 k v2 Hi Hd2 Hb2 Hin2) as Hat2.
    congruence.
  - intros p Hp. unfold live in Hp. rewrite elem_of_remove_dups in Hp.
    apply list_elem_of_lookup in Hp as [i Hp]. unfold items_at.
    destruct (store_ t !! p) as [b|] eqn:Hb; simpl; [by eapply Hk|apply NoDup_nil_2].
  - apply NoDup_remove_dups.
Qed.

(** *** The bucket counter *)


(** *** Buckets of capacity zero *)

Lemma Insert_no_room fuel t key value :
  table_inv t -> bucket_size_ t = 0 -> Insert hash fuel t key value = Unfinished.
Proof.
  intros Hi Hz. destruct (target_bucket_exists hash t key Hi) as (p & b & Hat).
  pose proof Hat as [Hp Hb]%bucket_at_Done.
  destruct (inv_bucket _ _ Hi _ _ Hp) as (b' & Hb' & _ & Hsz & Hlen & _).
  assert (b' = b) as -> by congruence.
  assert (list_ b = []) as Hnil by (apply length_zero_iff_nil; lia).
  unfold Insert. rewrite (split_loop_stuck hash fuel t key p b Hi Hat); [done| |].
  - unfold IsFull. rewrite Hnil, Hsz, Hz. done.
  - intros item Hin. rewrite Hnil in Hin. by apply elem_of_nil in Hin.
Qed.

(** *** Local depths *)


(** *** Properties of the table that a caller relies on *)

(** X1 - [Insert] followed by [Find] of the same key: in a state reached from
    a fresh table, when [Insert(key, value)] returns, [Find(key)] on the
    resulting table returns [value], whether the key was stored before or
    not and however many splits the insertion took. *)
Theorem Insert_then_Find fuel t key value t' :
  reachable hash t -> Insert hash fuel t key value = Done t' ->
  Find hash t' key = Done (t', Some value).
Proof.
  intros Hi%reachable_stepwise%stepwise_inv HI.
  by destruct (Insert_Find_inv fuel t key value t' Hi HI).
Qed.

(** X2 - [Insert] touches one key only: for every other key [Find] gives
    after the insertion what it gave before, also when the insertion split
    buckets and doubled the directory. *)
Theorem Insert_keeps_other_keys fuel t key value t' k :
  reachable hash t -> Insert hash fuel t key value = Done t' -> k <> key ->
  exists r, Find hash t k = Done (t, r) /\ Find hash t' k = Done (t', r).
Proof.
  intros Hi%reachable_stepwise%stepwise_inv HI Hne.
  destruct (Insert_Find_inv fuel t key value t' Hi HI) as [_ Hother]. by apply Hother.
Qed.

(** X3 - [Remove] in a state reached from a fresh table: it returns, and its
    result is true exactly when [Find] finds the key; afterwards [Find] does
    not find the key, every other key is found as before, and the directory,
    the global depth and the bucket count are as they were (buckets are never
    merged).  Removing a key that is not stored changes nothing. *)
Theorem Remove_then_Find t key :
  reachable hash t ->
  exists t' r,
    Remove hash t key = Done (t', bool_decide (is_Some r)) /\
    Find hash t key = Done (t, r) /\
    Find hash t' key = Done (t', None) /\
    (forall k, k <> key ->
       exists r', Find hash t k = Done (t, r') /\ Find hash t' k = Done (t', r')) /\
    dir_ t' = dir_ t /\ GetGlobalDepth t' = GetGlobalDepth t /\
    GetNumBuckets t' = GetNumBuckets t /\
    (r = None -> t' = t).
Proof.
  intros Hst%reachable_stepwise.
  apply Remove_Find_inv; [by apply stepwise_inv|by apply stepwise_keys].
Qed.

(** X4 - The table is a finite map: in a state reached from a fresh table no
    key is stored twice, in one bucket or in two, and [Find(key)] returns
    [value] exactly when the pair is an entry of a bucket the directory
    points to. *)
Theorem table_is_finite_map t :
  reachable hash t ->
  NoDup (entries t).*1 /\
  forall key value, Find hash t key = Done (t, Some value) <-> (key, value) ∈ entries t.
Proof.
  intros Hst%reachable_stepwise.
  pose proof (stepwise_inv hash t Hst) as Hi. pose proof (stepwise_keys t Hst) as Hk.
  split; [by apply entries_keys_NoDup|]. intros key value. by apply Find_entries.
Qed.



(** X7 - A table of buckets of capacity zero never takes an entry: every
    bucket counts as full, each split makes two more empty full buckets, and
    [Insert] does not return, whatever the key and however many splits it is
    given. *)
Theorem Insert_bucket_size_zero fuel t key value :
  reachable hash t -> bucket_size_ t = 0 ->
  Insert hash fuel t key value = Unfinished.
Proof. intros Hi%reachable_stepwise%stepwise_inv. by apply Insert_no_room. Qed.

(** X8 - Capacity and placement: in a state reached from a fresh table every
    bucket the directory points to has the capacity the table was made with
    and holds at most that many entries, and the hash of each of its keys
    agrees with the index of every slot pointing to it on the bucket's local
    depth many low bits. *)
Theorem buckets_within_capacity t i p :
  reachable hash t -> dir_ t !! i = Some p ->
  exists b, store_ t !! p = Some b /\
    size_ b = bucket_size_ t /\
    length (GetItems b) <= bucket_size_ t /\
    forall item, item ∈ GetItems b ->
      hash item.1 mod 2 ^ GetDepth b = i mod 2 ^ GetDepth b.
Proof.
  intros Hi%reachable_stepwise%stepwise_inv Hp.
  destruct (inv_bucket _ _ Hi _ _ Hp) as (b & Hb & _ & Hsz & Hlen & Hitems).
  exists b. unfold GetItems, GetDepth. split; [done|]. split; [done|]. split; [lia|done].
Qed.

(** *** The entries after [Insert] and [Remove] *)

Lemma entries_NoDup t : table_inv t -> keys_inv t -> NoDup (entries t).
Proof. intros Hi Hk. eapply NoDup_fmap_1. by apply entries_keys_NoDup. Qed.

Lemma Insert_entries_inv fuel t key value t' :
  table_inv t -> keys_inv t -> Insert hash fuel t key value = Done t' ->
  entries t' ≡ₚ (key, value) :: filter (fun e => e.1 <> key) (entries t).
Proof.
  intros Hi Hk HI.
  pose proof (Insert_inv hash _ _ _ _ _ Hi HI) as Hi'.
  pose proof (Insert_keys _ _ _ _ _ Hi Hk HI) as Hk'.
  destruct (Insert_Find_inv fuel t key value t' Hi HI) as [Hnew Hothers].
  apply NoDup_Permutation.
  - by apply entries_NoDup.
  - apply NoDup_cons. split; [|by apply NoDup_filter, entries_NoDup].
    intros [Hne _]%list_elem_of_filter. by apply Hne.
  - intros [k v]. rewrite <- (Find_entries t' k v Hi' Hk').
    rewrite elem_of_cons, list_elem_of_filter, <- (Find_entries t k v Hi Hk). simpl.
    destruct (decide (k = key)) as [->|Hne].
    + rewrite Hnew. split; [intros [= ->]; by left|].
      intros [[= ->]|[Hne _]]; [done|by destruct Hne].
    + destruct (Hothers k Hne) as (r & -> & ->). split.
      * intros [= ->]. by right.
      * intros [[= Hk0 _]|[_ [= ->]]]; [done|done].
Qed.

Lemma Remove_entries_inv t key t' r :
  table_inv t -> keys_inv t -> Remove hash t key = Done (t', r) ->
  entries t' ≡ₚ filter (fun e => e.1 <> key) (entries t) /\
  (r = true <-> key ∈ (entries t).*1).
Proof.
  intros Hi Hk HR.
  pose proof (Remove_inv hash _ _ _ _ Hi HR) as Hi'.
  pose proof (Remove_keys _ _ _ _ Hk HR) as Hk'.
  destruct (Remove_Find_inv t key Hi Hk)
    as (t2 & r2 & HR2 & HF & HF' & Hothers & _).
  rewrite HR in HR2. injection HR2 as <- ->. split.
  - apply NoDup_Permutation.
    + by apply entries_NoDup.
    + by apply NoDup_filter, entries_NoDup.
    + intros [k v]. rewrite <- (Find_entries t' k v Hi' Hk').
      rewrite list_elem_of_filter, <- (Find_entries t k v Hi Hk). simpl.
      destruct (decide (k = key)) as [->|Hne].
      * rewrite HF'. split; [done|]. by intros [Hne _].
      * destruct (Hothers k Hne) as (r & -> & ->).
        split; [by intros [= ->]|by intros [_ [= ->]]].
  - rewrite bool_decide_eq_true, list_elem_of_fmap. split.
    + intros [v ->]. exists (key, v). split; [done|]. by apply (Find_entries t key v).
    + intros ([k v] & -> & Hin). apply (Find_entries t k v Hi Hk) in Hin.
      simpl in *. rewrite HF in Hin. injection Hin as ->. eauto.
Qed.

(** X23 - [Insert] and [Remove] on the entries of the table: in a state
    reached from a fresh table, the entries after [Insert(key, value)] are
    the entries before without the one of that key, and the pair
    [(key, value)]; the entries after [Remove(key)] are the entries before
    without the one of that key, and [Remove] returns true exactly when
    there was one. *)
Theorem entries_after_Insert_and_Remove t :
  reachable hash t ->
  (forall fuel key value t', Insert hash fuel t key value = Done t' ->
     entries t' ≡ₚ (key, value) :: filter (fun e => e.1 <> key) (entries t)) /\
  (forall key t' r, Remove hash t key = Done (t', r) ->
     entries t' ≡ₚ filter (fun e => e.1 <> key) (entries t) /\
     (r = true <-> key ∈ (entries t).*1)).
Proof.
  intros Hst%reachable_stepwise.
  pose proof (stepwise_inv hash t Hst) as Hi. pose proof (stepwise_keys t Hst) as Hk.
  split.
  - intros fuel key value t'. by apply Insert_entries_inv.
  - intros key t' r. by apply Remove_entries_inv.
Qed.

(** *** The table only grows *)




End map.

(** *** Concrete runs *)

Lemma Insert_then_Find_witness :
  exists t', Insert id 3 two_keys 9 42 = Done t' /\ Find id t' 9 = Done (t', Some 42).
Proof.
  eexists. split; [vm_compute; reflexivity|].
  apply (Insert_then_Find id 3 two_keys 9 42).
  - apply two_keys_reachable.
  - vm_compute; reflexivity.
Defined.

Lemma Insert_keeps_other_keys_witness :
  exists t' r, Insert id 3 two_keys 9 42 = Done t' /\
    Find id two_keys 5 = Done (two_keys, r) /\ Find id t' 5 = Done (t', r).
Proof.
  eexists. apply (ex_intro _ (Some 7)). split; [vm_compute; reflexivity|].
  destruct (Insert_keeps_other_keys id 3 two_keys 9 42 _ 5 two_keys_reachable eq_refl)
    as (r & H1 & H2); [lia|].
  assert (r = Some 7) as -> by (vm_compute in H1; congruence).
  split; [exact H1|exact H2].
Defined.

Lemma Insert_bucket_size_zero_witness : Insert id 4 (new 0) 1 7 = Unfinished.
Proof.
  apply (Insert_bucket_size_zero id 4 (new 0) 1 7); [apply reachable_new|reflexivity].
Defined.

Lemma Remove_then_Find_witness :
  exists t' r,
    Remove id two_keys 5 = Done (t', bool_decide (is_Some r)) /\
    Find id two_keys 5 = Done (two_keys, r) /\
    Find id t' 5 = Done (t', None).
Proof.
  destruct (Remove_then_Find id two_keys 5 two_keys_reachable)
    as (t' & r & H1 & H2 & H3 & _).
  exists t', r. split; [exact H1|]. split; [exact H2|exact H3].
Defined.

Lemma table_is_finite_map_witness :
  NoDup (entries two_keys).*1 /\
  forall key value,
    Find id two_keys key = Done (two_keys, Some value) <-> (key, value) ∈ entries two_keys.
Proof. apply (table_is_finite_map id two_keys), two_keys_reachable. Defined.



Lemma buckets_within_capacity_witness :
  exists b, store_ two_keys !! 0 = Some b /\
    size_ b = bucket_size_ two_keys /\
    length (GetItems b) <= bucket_size_ two_keys /\
    forall item, item ∈ GetItems b ->
      id item.1 mod 2 ^ GetDepth b = 0 mod 2 ^ GetDepth b.
Proof.
  apply (buckets_within_capacity id two_keys 0 0); [apply two_keys_reachable|reflexivity].
Defined.

Lemma entries_after_Insert_and_Remove_witness :
  exists t', Insert id 3 two_keys 9 42 = Done t' /\
    entries t' ≡ₚ (9, 42) :: filter (fun e => e.1 <> 9) (entries two_keys).
Proof.
  eexists. split; [vm_compute; reflexivity|].
  destruct (entries_after_Insert_and_Remove id two_keys two_keys_reachable) as [H _].
  apply (H 3%nat 9 42). vm_compute. reflexivity.
Defined.


End HashTableMap.

(** ** The replacer: lists, flags and [Size] *)

Module ReplacerShape.
Import LRUKReplacer ReplacerProps.

#[local] Open Scope Z_scope.

Implicit Types (r : t) (f x y : Z) (l : list Z) (m : gmap Z bool).

(** *** Lists *)

Lemma elem_of_list_remove f l y : y ∈ list_remove f l <-> y ∈ l /\ y <> f.
Proof. unfold list_remove. rewrite list_elem_of_filter. tauto. Qed.

Lemma NoDup_list_remove f l : NoDup l -> NoDup (list_remove f l).
Proof. apply NoDup_filter. Qed.

Lemma list_remove_absent f l : f ∉ l -> list_remove f l = l.
Proof.
  intros Hf. unfold list_remove. induction l as [|y l IH]; [done|].
  apply not_elem_of_cons in Hf as [Hne Hf].
  rewrite filter_cons_True by done. by rewrite IH.
Qed.

Lemma list_remove_idemp f l : list_remove f (list_remove f l) = list_remove f l.
Proof. apply list_remove_absent. rewrite elem_of_list_remove. tauto. Qed.

Lemma list_remove_snoc f l : list_remove f (l ++ [f]) = list_remove f l.
Proof.
  unfold list_remove. rewrite filter_app, filter_cons_False by (intros H; by apply H).
  by rewrite filter_nil, app_nil_r.
Qed.


(** *** [RecordAccess] and [SetEvictable] *)

(** X9 - [RecordAccess]: a frame id above the number of frames, as an [int],
    throws; any other frame id, the number of frames itself and negative ids
    included, is accepted.  The access count of the frame goes up by one, the
    frame ends up at the tail of the history list when the new count is 1 or
    below k and at the tail of the cache list otherwise, no other frame
    changes its place relative to the others or its count, and the flags and
    [Size] stay as they are. *)
Theorem RecordAccess_moves_one_frame r f :
  (f > to_int (replacer_size_ r) -> RecordAccess r f = Thrown) /\
  (f <= to_int (replacer_size_ r) ->
     exists r', RecordAccess r f = Done r' /\
       access_count r' f = size_t_wrap (access_count r f + 1) /\
       (forall y, y <> f -> access_count_map_ r' !! y = access_count_map_ r !! y) /\
       is_evictable_map r' = is_evictable_map r /\ Size r' = Size r /\
       list_remove f (lru_list_ r') = list_remove f (lru_list_ r) /\
       list_remove f (lru_k_list_ r') = list_remove f (lru_k_list_ r) /\
       (if (access_count r' f =? 1) || (access_count r' f <? k_ r)
        then last (lru_list_ r') = Some f /\ lru_k_list_ r' = lru_k_list_ r
        else last (lru_k_list_ r') = Some f)).
Proof.
  unfold RecordAccess, access_count, Size. split.
  - intros Hgt. by destruct (Z.gtb_spec f (to_int (replacer_size_ r))); [|lia].
  - intros Hle. destruct (Z.gtb_spec f (to_int (replacer_size_ r))); [lia|].
    set (c := size_t_wrap (default 0 (access_count_map_ r !! f) + 1)).
    destruct (c =? 1) eqn:H1; [|destruct (c <? k_ r) eqn:H2; [|destruct (c =? k_ r) eqn:H3]];
      eexists; (split; [done|]); simpl; rewrite lookup_insert_eq; simpl; fold c;
      rewrite H1, ?H2; simpl;
      (split; [done|]); (split; [intros y Hy; by rewrite lookup_insert_ne|]);
      (split; [done|]); (split; [done|]);
      rewrite ?list_remove_snoc, ?list_remove_idemp, ?last_snoc; done.
Qed.

(** X10 - [SetEvictable]: a frame id above the number of frames throws.
    Otherwise the flag of the frame becomes the argument and no other flag
    changes, the lists and the access counts are untouched, [Size] goes up
    by one when a frame that was not flagged evictable becomes evictable,
    down by one when an evictable frame stops being so, and stays otherwise;
    repeating the call changes nothing more. *)
Theorem SetEvictable_sets_flag r f (b : bool) :
  (f > to_int (replacer_size_ r) -> SetEvictable r f b = Thrown) /\
  (f <= to_int (replacer_size_ r) ->
     exists r', SetEvictable r f b = Done r' /\
       is_evictable_map r' !! f = Some b /\
       (forall y, y <> f -> is_evictable_map r' !! y = is_evictable_map r !! y) /\
       access_count_map_ r' = access_count_map_ r /\
       lru_list_ r' = lru_list_ r /\ lru_k_list_ r' = lru_k_list_ r /\
       Size r' =
         (if default false (is_evictable_map r !! f)
          then if b then Size r else size_t_wrap (Size r - 1)
          else if b then size_t_wrap (Size r + 1) else Size r) /\
       SetEvictable r' f b = Done r').
Proof.
  split.
  - intros Hgt. unfold SetEvictable.
    by destruct (Z.gtb_spec f (to_int (replacer_size_ r))); [|lia].
  - intros Hle.
    destruct (SetEvictable_Done r f b Hle)
      as (r' & Hset & Hsz & Hk & Hc & Hl & Hlk & Hm & Hs).
    exists r'. split; [done|]. split; [by rewrite Hm, lookup_insert_eq|].
    split; [intros y Hy; by rewrite Hm, lookup_insert_ne|].
    do 3 (split; [done|]). split.
    + unfold Size, evictable. rewrite Hs.
      destruct (is_evictable_map r !! f) as [[|]|], b; done.
    + assert (f <= to_int (replacer_size_ r')) as Hle' by by rewrite Hsz.
      destruct (SetEvictable_Done r' f b Hle')
        as (r2 & Hset2 & Hsz2 & Hk2 & Hc2 & Hl2 & Hlk2 & Hm2 & Hs2).
      rewrite Hset2. f_equal.
      rewrite Hm, lookup_insert_eq in Hs2. rewrite Hm, insert_insert_eq, <- Hm in Hm2.
      assert (curr_size_ r2 = curr_size_ r') as Hs3 by (by destruct b).
      destruct r2, r'. simpl in *. congruence.
Qed.


(** *** The shape of the lists *)

Lemma access_count_insert r f c y counts :
  counts = <[f := c]> (access_count_map_ r) -> y <> f ->
  default 0 (counts !! y) = access_count r y.
Proof. intros -> Hne. unfold access_count. by rewrite lookup_insert_ne. Qed.

Lemma access_count_zero r f :
  map_Forall (fun _ c => 1 <= c) (access_count_map_ r) ->
  access_count r f = 0 <-> access_count_map_ r !! f = None.
Proof.
  intros Hpos. unfold access_count. split.
  - destruct (access_count_map_ r !! f) as [c|] eqn:Hc; [|done].
    simpl. intros ->. apply Hpos in Hc. lia.
  - by intros ->.
Qed.

Lemma lists_ok_absent r f :
  lists_ok r -> access_count r f = 0 -> 1 <= k_ r ->
  (f ∉ lru_list_ r) /\ (f ∉ lru_k_list_ r).
Proof.
  intros (_ & Hl & Hlk & _) Hz Hk. rewrite Forall_forall in Hl, Hlk. split.
  - intros Hin%Hl. lia.
  - intros Hin%Hlk. lia.
Qed.

Lemma RecordAccess_lists_ok r f r' :
  lists_ok r -> 2 <= k_ r -> access_count r f + 1 < 2 ^ 64 ->
  RecordAccess r f = Done r' -> lists_ok r'.
Proof.
  intros Hok Hk Hmax. pose proof Hok as (Hnd & Hl & Hlk & Hpos).
  assert (0 <= access_count r f) as H0.
  { unfold access_count. destruct (access_count_map_ r !! f) as [c|] eqn:Hc; [|done].
    apply Hpos in Hc. simpl. lia. }
  unfold RecordAccess. destruct (f >? to_int (replacer_size_ r)); [done|].
  fold (access_count r f). unfold size_t_wrap. rewrite Z.mod_small by lia.
  set (c := access_count r f + 1).
  apply NoDup_app in Hnd as (Hnd1 & Hdisj & Hnd2).
  rewrite Forall_forall in Hl, Hlk.
  assert (forall l, NoDup l -> NoDup (list_remove f l ++ [f])) as Hsnoc.
  { intros l Hl'. apply NoDup_app. split; [by apply NoDup_list_remove|].
    split; [|apply NoDup_singleton].
    intros y [_ Hy]%elem_of_list_remove ->%list_elem_of_singleton. done. }
  assert (map_Forall (fun _ c0 => 1 <= c0) (<[f := c]> (access_count_map_ r))) as Hpos'.
  { apply map_Forall_insert_2; [lia|done]. }
  destruct (Z.eqb_spec c 1) as [H1|H1];
    [|destruct (Z.ltb_spec c (k_ r)) as [H2|H2]; [|destruct (Z.eqb_spec c (k_ r)) as [H3|H3]]];
    intros [= <-]; unfold lists_ok, access_count; simpl; rewrite !Forall_forall.
  - destruct (lists_ok_absent r f Hok) as [Hf1 Hf2]; [lia..|].
    split; [|split; [|split; [|done]]].
    + rewrite <- (assoc_L (++)). apply NoDup_app. split; [done|]. split.
      * intros y Hy [->%list_elem_of_singleton|Hy']%elem_of_app; [done|by eapply Hdisj].
      * apply NoDup_app. split; [apply NoDup_singleton|]. split; [|done].
        by intros y ->%list_elem_of_singleton.
    + intros y [Hy| ->%list_elem_of_singleton]%elem_of_app.
      * rewrite lookup_insert_ne by (by intros ->). by apply Hl.
      * rewrite lookup_insert_eq. simpl. lia.
    + intros y Hy. rewrite lookup_insert_ne by (by intros ->). by apply Hlk.
  - assert (f ∉ lru_k_list_ r) as Hf2 by (intros Hin%Hlk; lia).
    split; [|split; [|split; [|done]]].
    + apply NoDup_app. split; [by apply Hsnoc|]. split; [|done].
      intros y [[Hy Hne]%elem_of_list_remove| ->%list_elem_of_singleton]%elem_of_app;
        [by apply Hdisj|done].
    + intros y [[Hy Hne]%elem_of_list_remove| ->%list_elem_of_singleton]%elem_of_app.
      * rewrite lookup_insert_ne by done. by apply Hl.
      * rewrite lookup_insert_eq. simpl. lia.
    + intros y Hy. rewrite lookup_insert_ne by (by intros ->). by apply Hlk.
  - assert (f ∉ lru_k_list_ r) as Hf2 by (intros Hin%Hlk; lia).
    split; [|split; [|split; [|done]]].
    + apply NoDup_app. split; [by apply NoDup_list_remove|]. split.
      * intros y [Hy Hne]%elem_of_list_remove [Hy'| ->%list_elem_of_singleton]%elem_of_app;
          [by eapply Hdisj|done].
      * apply NoDup_app. split; [done|]. split; [|apply NoDup_singleton].
        by intros y Hy ->%list_elem_of_singleton.
    + intros y [Hy Hne]%elem_of_list_remove. rewrite lookup_insert_ne by done. by apply Hl.
    + intros y [Hy| ->%list_elem_of_singleton]%elem_of_app.
      * rewrite lookup_insert_ne by (by intros ->). by apply Hlk.
      * rewrite lookup_insert_eq. simpl. lia.
  - assert (f ∉ lru_list_ r) as Hf1 by (intros Hin%Hl; lia).
    split; [|split; [|split; [|done]]].
    + apply NoDup_app. split; [done|]. split; [|by apply Hsnoc].
      intros y Hy [[Hy' Hne]%elem_of_list_remove| ->%list_elem_of_singleton]%elem_of_app;
        [by eapply Hdisj|done].
    + intros y Hy. rewrite lookup_insert_ne by (by intros ->). by apply Hl.
    + intros y [[Hy Hne]%elem_of_list_remove| ->%list_elem_of_singleton]%elem_of_app.
      * rewrite lookup_insert_ne by done. by apply Hlk.
      * rewrite lookup_insert_eq. simpl. lia.
Qed.


(** A frame taken out of the lists, whatever becomes of its access count. *)
Lemma lists_ok_drop r x counts m size l1 l2 :
  lists_ok r ->
  l1 `sublist_of` lru_list_ r -> l2 `sublist_of` lru_k_list_ r ->
  x ∉ l1 -> x ∉ l2 ->
  (forall y, y <> x -> counts !! y = access_count_map_ r !! y) ->
  map_Forall (fun _ c => 1 <= c) counts ->
  lists_ok (mk (replacer_size_ r) (k_ r) size counts m l1 l2).
Proof.
  intros (Hnd & Hl & Hlk & _) Hs1 Hs2 Hx1 Hx2 Hsame Hpos.
  rewrite Forall_forall in Hl, Hlk.
  unfold lists_ok, access_count. simpl. rewrite !Forall_forall.
  split; [|split; [|split; [|done]]].
  - eapply sublist_NoDup; [done|]. by apply sublist_app.
  - intros y Hy. rewrite Hsame by (by intros ->). apply Hl. by eapply elem_of_sublist.
  - intros y Hy. rewrite Hsame by (by intros ->). apply Hlk. by eapply elem_of_sublist.
Qed.

Lemma Evict_lists_ok r : lists_ok r -> lists_ok (Evict r).1.
Proof.
  intros Hok. destruct (decide (curr_size_ r = 0)) as [Hz|Hnz].
  { unfold Evict. by rewrite Hz. }
  pose proof Hok as (Hnd & _ & _ & Hpos).
  apply NoDup_app in Hnd as (Hnd1 & Hdisj & Hnd2).
  rewrite (Evict_walks r Hnz).
  destruct (first_evictable _ (lru_list_ r) 0) as [[pos x]|] eqn:H1.
  - destruct (first_evictable_Some _ _ _ _ _ H1) as (_ & Hl & _). rewrite Nat.sub_0_r in Hl.
    simpl. apply (lists_ok_drop r x); try done.
    + apply sublist_delete.
    + by apply delete_lookup_NoDup.
    + apply Hdisj. by eapply list_elem_of_lookup_2.
    + intros y Hy. by rewrite lookup_delete_ne.
    + by apply map_Forall_delete.
  - destruct (first_evictable _ (lru_k_list_ r) 0) as [[pos x]|] eqn:H2; simpl.
    + destruct (first_evictable_Some _ _ _ _ _ H2) as (_ & Hl & _).
      rewrite Nat.sub_0_r in Hl.
      apply (lists_ok_drop r x); try done.
      * apply sublist_delete.
      * intros Hin. apply (Hdisj x Hin). by eapply list_elem_of_lookup_2.
      * by apply delete_lookup_NoDup.
      * intros y Hy. by rewrite lookup_delete_ne.
      * by apply map_Forall_delete.
    + done.
Qed.

Lemma Remove_lists_ok r f r' : lists_ok r -> Remove r f = Done r' -> lists_ok r'.
Proof.
  intros Hok. pose proof Hok as (Hnd & Hl & Hlk & Hpos).
  rewrite Forall_forall in Hl, Hlk.
  unfold Remove. destruct (f >? to_int (replacer_size_ r)); [done|].
  destruct (is_evictable_map r !! f) as [[|]|]; [|by intros [= <-]|by intros [= <-]].
  fold (access_count r f).
  assert (forall l, f ∉ list_remove f l) as Hgone.
  { intros l [_ Hne]%elem_of_list_remove. done. }
  assert (forall l, list_remove f l `sublist_of` l) as Hsub.
  { intros l. apply sublist_filter. }
  set (c := size_t_wrap (access_count r f - 1)).
  assert (map_Forall (fun _ c0 => 1 <= c0)
            (if c =? 0 then delete f (access_count_map_ r)
             else <[f := c]> (access_count_map_ r))) as Hpos'.
  { destruct (Z.eqb_spec c 0) as [|Hc]; [by apply map_Forall_delete|].
    apply map_Forall_insert_2; [|done].
    pose proof (size_t_wrap_range (access_count r f - 1)). fold c in H. lia. }
  assert (forall y, y <> f ->
            (if c =? 0 then delete f (access_count_map_ r)
             else <[f := c]> (access_count_map_ r)) !! y = access_count_map_ r !! y) as Hsame.
  { intros y Hy. destruct (c =? 0); [by rewrite lookup_delete_ne|by rewrite lookup_insert_ne]. }
  destruct (Z.ltb_spec (access_count r f) (k_ r)) as [Hlt|Hge]; intros [= <-].
  - apply (lists_ok_drop r f); try done. intros Hin%Hlk. lia.
  - apply (lists_ok_drop r f); try done. intros Hin%Hl. lia.
Qed.

Lemma SetEvictable_lists_ok r f b r' :
  lists_ok r -> SetEvictable r f b = Done r' -> lists_ok r'.
Proof.
  intros Hok Hset.
  destruct (SetEvictable_Done r f b (SetEvictable_inv _ _ _ _ Hset))
    as (r2 & Hset' & _ & Hk & Hc & Hl & Hlk & _).
  assert (r2 = r') as -> by congruence.
  unfold lists_ok, access_count in *. by rewrite Hk, Hc, Hl, Hlk.
Qed.

(** X11 - The shape of the two lists is kept by every operation: each frame
    has at most one node in the history list and the cache list together,
    the history list holds frames with fewer than k accesses and the cache
    list frames with k or more.  For [RecordAccess] this needs k to be at
    least 2 and the access count not to wrap around; [SetEvictable],
    [Remove] and [Evict] keep it as they are. *)
Theorem lists_ok_preserved r :
  lists_ok r ->
  (forall f r', 2 <= k_ r -> access_count r f + 1 < 2 ^ 64 ->
     RecordAccess r f = Done r' -> lists_ok r') /\
  (forall f b r', SetEvictable r f b = Done r' -> lists_ok r') /\
  (forall f r', Remove r f = Done r' -> lists_ok r') /\
  lists_ok (Evict r).1.
Proof.
  intros Hok. split; [|split; [|split]].
  - intros f r'. by apply RecordAccess_lists_ok.
  - intros f b r'. by apply SetEvictable_lists_ok.
  - intros f r'. by apply Remove_lists_ok.
  - by apply Evict_lists_ok.
Qed.


(** *** [Size] and the flags *)

#[local] Abbreviation flagged m := (filter (fun e : Z * bool => e.2 = true) m).

Lemma flagged_lookup m x : flagged m !! x = Some true <-> m !! x = Some true.
Proof. rewrite map_lookup_filter_Some. naive_solver. Qed.

Lemma flagged_lookup_None m x : m !! x <> Some true -> flagged m !! x = None.
Proof.
  intros Hx. apply map_lookup_filter_None. destruct (m !! x) as [[|]|]; [done|right|by left].
  intros b [= <-]. simpl. done.
Qed.

Lemma flagged_size_delete m x :
  Z.of_nat (size (flagged (delete x m))) =
  Z.of_nat (size (flagged m)) - (if bool_decide (m !! x = Some true) then 1 else 0).
Proof.
  rewrite map_filter_delete, map_size_delete. case_bool_decide as Hx.
  - rewrite (proj2 (flagged_lookup m x) Hx).
    assert (size (flagged m) <> 0%nat) as Hne; [|lia].
    intros Hz%map_size_empty_inv. apply flagged_lookup in Hx.
    rewrite Hz in Hx. by rewrite lookup_empty in Hx.
  - rewrite (flagged_lookup_None m x Hx). simpl. lia.
Qed.

Lemma flagged_size_insert m x (b : bool) :
  Z.of_nat (size (flagged (<[x := b]> m))) =
  Z.of_nat (size (flagged m)) - (if bool_decide (m !! x = Some true) then 1 else 0)
  + (if b then 1 else 0).
Proof.
  rewrite <- flagged_size_delete. destruct b.
  - rewrite <- insert_delete_eq, map_filter_insert_True by done.
    rewrite map_size_insert_None; [lia|].
    apply flagged_lookup_None. by rewrite lookup_delete_eq.
  - rewrite map_filter_insert_False by (simpl; congruence). lia.
Qed.

Lemma flagged_scan m l pos : flagged (scan m l pos).1 = flagged m.
Proof.
  revert m pos. induction l as [|x l IH]; intros m pos; simpl; [done|].
  destruct (m !! x) as [[|]|] eqn:Hx; simpl; [done|apply IH|].
  rewrite IH. rewrite map_filter_insert_False by (simpl; congruence).
  by rewrite delete_id.
Qed.

Lemma size_t_wrap_add n d : size_t_wrap (size_t_wrap n + d) = size_t_wrap (n + d).
Proof. unfold size_t_wrap. by rewrite Z.add_mod_idemp_l. Qed.

Lemma size_t_wrap_sub n d : size_t_wrap (size_t_wrap n - d) = size_t_wrap (n - d).
Proof. unfold size_t_wrap. by rewrite Zminus_mod_idemp_l. Qed.

Lemma SetEvictable_size_counts r f b r' :
  size_counts r -> SetEvictable r f b = Done r' -> size_counts r'.
Proof.
  unfold size_counts, evictable_count. intros Hs Hset.
  destruct (SetEvictable_Done r f b (SetEvictable_inv _ _ _ _ Hset))
    as (r2 & Hset' & _ & _ & _ & _ & _ & Hm & Hc).
  assert (r2 = r') as -> by congruence.
  rewrite Hc, Hm, flagged_size_insert, Hs.
  destruct (is_evictable_map r !! f) as [[|]|] eqn:Hf, b; simpl;
    rewrite ?bool_decide_eq_true_2, ?bool_decide_eq_false_2 by congruence;
    rewrite ?size_t_wrap_add, ?size_t_wrap_sub; f_equal; lia.
Qed.

Lemma RecordAccess_size_counts r f r' :
  size_counts r -> RecordAccess r f = Done r' -> size_counts r'.
Proof.
  unfold size_counts, evictable_count. intros Hs Hacc.
  destruct (RecordAccess_Done r f (RecordAccess_inv _ _ _ Hacc))
    as (r2 & Hacc' & _ & _ & Hc & Hm & _).
  assert (r2 = r') as -> by congruence. by rewrite Hc, Hm.
Qed.

Lemma Remove_size_counts r f r' :
  size_counts r -> ~ evictable r f -> Remove r f = Done r' -> size_counts r'.
Proof.
  unfold size_counts, evictable_count, evictable, Remove. intros Hs Hne.
  destruct (f >? to_int (replacer_size_ r)); [done|].
  destruct (is_evictable_map r !! f) as [[|]|] eqn:Hf; [done|by intros [= <-]|].
  intros [= <-]. simpl. rewrite flagged_size_insert, Hs.
  rewrite bool_decide_eq_false_2 by congruence. f_equal. lia.
Qed.

Lemma Evict_size_counts r : size_counts r -> size_counts (Evict r).1.
Proof.
  intros Hs. destruct (decide (curr_size_ r = 0)) as [Hz|Hnz].
  { unfold Evict. by rewrite Hz. }
  rewrite (Evict_walks r Hnz). unfold size_counts, evictable_count in *.
  destruct (first_evictable _ (lru_list_ r) 0) as [[pos x]|] eqn:H1.
  - destruct (first_evictable_Some _ _ _ _ _ H1) as (_ & _ & Hx & _). simpl.
    rewrite flagged_size_delete, bool_decide_eq_true_2 by (by apply scan_flags).
    rewrite flagged_scan, Hs. apply size_t_wrap_sub.
  - destruct (first_evictable _ (lru_k_list_ r) 0) as [[pos x]|] eqn:H2; simpl.
    + destruct (first_evictable_Some _ _ _ _ _ H2) as (_ & _ & Hx & _).
      rewrite flagged_size_delete, bool_decide_eq_true_2 by (by rewrite !scan_flags).
      rewrite !flagged_scan, Hs. apply size_t_wrap_sub.
    + by rewrite !flagged_scan.
Qed.

(** X12 - [Size] is the number of frames flagged evictable, as a [size_t]:
    this holds for a fresh replacer and is kept by [RecordAccess],
    [SetEvictable], [Evict], and by [Remove] of a frame that is not flagged
    evictable. *)
Theorem Size_counts_evictable r :
  (forall num_frames k, size_counts (new num_frames k)) /\
  (size_counts r ->
     (forall f r', RecordAccess r f = Done r' -> size_counts r') /\
     (forall f b r', SetEvictable r f b = Done r' -> size_counts r') /\
     (forall f r', ~ evictable r f -> Remove r f = Done r' -> size_counts r') /\
     size_counts (Evict r).1).
Proof.
  split; [done|]. intros Hs. split; [|split; [|split]].
  - intros f r'. by apply RecordAccess_size_counts.
  - intros f b r'. by apply SetEvictable_size_counts.
  - intros f r'. by apply Remove_size_counts.
  - by apply Evict_size_counts.
Qed.

(** *** What [Evict] leaves alone *)

Lemma delete_NoDup_remove l (i : nat) x :
  NoDup l -> l !! i = Some x -> delete i l = list_remove x l.
Proof.
  revert i. induction l as [|y l IH]; intros i Hnd Hl; [done|].
  apply NoDup_cons in Hnd as [Hy Hnd]. unfold list_remove in *. destruct i as [|i]; simpl in *.
  - injection Hl as ->. rewrite filter_cons_False by (intros H; by apply H).
    symmetry. by apply list_remove_absent.
  - assert (y <> x) as Hne.
    { intros ->. apply Hy. by eapply list_elem_of_lookup_2. }
    rewrite filter_cons_True by done. f_equal. by apply IH.
Qed.

(** X13 - [Evict] takes a frame that is in one of the lists and flagged
    evictable, never another one, and leaves every other frame as it was:
    its access count, whether it is evictable, and its place in the lists
    relative to the others.  When the lists hold no frame twice the lists
    afterwards are the lists before without the victim.  A call that evicts
    nothing changes no count, no list and no [Size]. *)
Theorem Evict_leaves_others r r' victim :
  Evict r = (r', victim) ->
  replacer_size_ r' = replacer_size_ r /\ k_ r' = k_ r /\
  lru_list_ r' `sublist_of` lru_list_ r /\
  lru_k_list_ r' `sublist_of` lru_k_list_ r /\
  (forall y, victim <> Some y -> evictable r' y <-> evictable r y) /\
  match victim with
  | Some x =>
      in_lists r x /\ evictable r x /\
      (forall y, y <> x -> access_count_map_ r' !! y = access_count_map_ r !! y) /\
      (NoDup (lru_list_ r ++ lru_k_list_ r) ->
         lru_list_ r' = list_remove x (lru_list_ r) /\
         lru_k_list_ r' = list_remove x (lru_k_list_ r))
  | None =>
      access_count_map_ r' = access_count_map_ r /\
      lru_list_ r' = lru_list_ r /\ lru_k_list_ r' = lru_k_list_ r /\
      Size r' = Size r
  end.
Proof.
  unfold evictable. destruct (decide (curr_size_ r = 0)) as [Hz|Hnz].
  { unfold Evict. rewrite Hz. simpl. intros [= <- <-]. done. }
  rewrite (Evict_walks r Hnz).
  destruct (first_evictable _ (lru_list_ r) 0) as [[pos x]|] eqn:H1.
  - intros [= <- <-]. simpl.
    destruct (first_evictable_Some _ _ _ _ _ H1) as (_ & Hl & Hm & _).
    rewrite Nat.sub_0_r in Hl.
    do 2 (split; [done|]). split; [apply sublist_delete|]. split; [done|].
    split; [|split; [|split; [|split]]].
    + intros y Hy. rewrite lookup_delete_ne by congruence. apply scan_flags.
    + left. by eapply list_elem_of_lookup_2.
    + done.
    + intros y Hy. by rewrite lookup_delete_ne.
    + intros (Hnd1 & Hdisj & Hnd2)%NoDup_app. split; [by apply delete_NoDup_remove|].
      symmetry. apply list_remove_absent. apply Hdisj. by eapply list_elem_of_lookup_2.
  - destruct (first_evictable _ (lru_k_list_ r) 0) as [[pos x]|] eqn:H2.
    + intros [= <- <-]. simpl.
      destruct (first_evictable_Some _ _ _ _ _ H2) as (_ & Hl & Hm & _).
      rewrite Nat.sub_0_r in Hl.
      do 3 (split; [done|]). split; [apply sublist_delete|].
      split; [|split; [|split; [|split]]].
      * intros y Hy. rewrite lookup_delete_ne by congruence. by rewrite !scan_flags.
      * right. by eapply list_elem_of_lookup_2.
      * done.
      * intros y Hy. by rewrite lookup_delete_ne.
      * intros (Hnd1 & Hdisj & Hnd2)%NoDup_app. split; [|by apply delete_NoDup_remove].
        symmetry. apply list_remove_absent. intros Hin. apply (Hdisj x Hin).
        by eapply list_elem_of_lookup_2.
    + intros [= <- <-]. simpl. do 4 (split; [done|]). split; [|done].
      intros y _. by rewrite !scan_flags.
Qed.


(** *** Concrete runs *)

Lemma RecordAccess_moves_one_frame_witness :
  exists r', RecordAccess cached_frame 1 = Done r' /\
    access_count r' 1 = size_t_wrap (access_count cached_frame 1 + 1).
Proof.
  destruct (RecordAccess_moves_one_frame cached_frame 1) as [_ H].
  destruct H as (r' & H1 & H2 & _); [vm_compute; discriminate|].
  exists r'. split; [exact H1|exact H2].
Defined.

Lemma SetEvictable_sets_flag_witness :
  exists r', SetEvictable cached_frame 1 false = Done r' /\
    is_evictable_map r' !! 1 = Some false.
Proof.
  destruct (SetEvictable_sets_flag cached_frame 1 false) as [_ H].
  destruct H as (r' & H1 & H2 & _); [vm_compute; discriminate|].
  exists r'. split; [exact H1|exact H2].
Defined.

Lemma lists_ok_preserved_witness : lists_ok (Evict cached_frame).1.
Proof.
  apply (lists_ok_preserved cached_frame).
  apply (bool_decide_unpack _). vm_compute. exact I.
Defined.

Lemma Size_counts_evictable_witness : size_counts (Evict cached_frame).1.
Proof.
  destruct (Size_counts_evictable cached_frame) as [_ H].
  apply H. vm_compute. reflexivity.
Defined.

Lemma Evict_leaves_others_witness :
  exists r', Evict cached_frame = (r', Some 1) /\
    lru_k_list_ r' `sublist_of` lru_k_list_ cached_frame.
Proof.
  eexists. split; [vm_compute; reflexivity|].
  eapply (Evict_leaves_others cached_frame _ (Some 1)). vm_compute. reflexivity.
Defined.

End ReplacerShape.

(** ** The buffer pool: page table, frames, free list and disk *)

Module BufferPoolConsistency.
Import BufferPoolManagerInstance.
Import HashTableProps ReplacerProps BufferPoolProps HashTableMap.

#[local] Open Scope Z_scope.

#[local] Abbreviation table_inv := (ExtendibleHashTable.table_inv hash_page_id).
#[local] Abbreviation keys_inv := (ExtendibleHashTable.keys_inv (K:=Z) (V:=Z)).

Implicit Types (s : t) (pg : Page) (pages : list Page).
Implicit Types (pt : ExtendibleHashTable.Table Z Z).

(** *** The page table as a map *)

Lemma pt_Find_found pt page_id :
  table_inv pt -> pt_Find pt page_id = Done (pt, found_in pt page_id).
Proof.
  intros Hi. unfold found_in.
  destruct (Find_Done hash_page_id pt page_id Hi) as (p & b & _ & HF).
  unfold pt_Find. by rewrite HF.
Qed.

Lemma found_in_Some pt page_id t' f :
  pt_Find pt page_id = Done (t', Some f) -> found_in pt page_id = Some f.
Proof. unfold found_in. by intros ->. Qed.

Lemma found_in_new bucket_size page_id :
  found_in (ExtendibleHashTable.new bucket_size) page_id = None.
Proof.
  unfold found_in, pt_Find, ExtendibleHashTable.Find, ExtendibleHashTable.bucket_at,
    ExtendibleHashTable.IndexOf. simpl. by rewrite Nat.land_0_r.
Qed.

Lemma found_in_Insert fuel pt page_id f pt' :
  table_inv pt -> pt_Insert fuel pt page_id f = Done pt' ->
  found_in pt' page_id = Some f /\
  forall k, k <> page_id -> found_in pt' k = found_in pt k.
Proof.
  intros Hi HI. destruct (Insert_Find_inv hash_page_id fuel pt page_id f pt' Hi HI) as [HF Ho].
  unfold found_in, pt_Find. rewrite HF. split; [done|].
  intros k Hk. destruct (Ho k Hk) as (r & -> & ->). done.
Qed.

Lemma found_in_Remove pt page_id pt' r :
  table_inv pt -> keys_inv pt -> pt_Remove pt page_id = Done (pt', r) ->
  found_in pt' page_id = None /\
  (forall k, k <> page_id -> found_in pt' k = found_in pt k) /\
  (found_in pt page_id = None -> pt' = pt).
Proof.
  intros Hi Hk HR.
  destruct (Remove_Find_inv hash_page_id pt page_id Hi Hk)
    as (t2 & r2 & HR2 & HF & HF' & Ho & _ & _ & _ & Hsame).
  unfold pt_Remove in HR. rewrite HR in HR2. injection HR2 as <- _.
  unfold found_in, pt_Find. rewrite HF', HF. split; [done|]. split; [|done].
  intros k Hne. destruct (Ho k Hne) as (r' & -> & ->). done.
Qed.


(** *** Page table, frames and free list *)

Lemma pool_new_consistent pool_size disk replacer_k bucket_size :
  pool_consistent (new pool_size disk replacer_k bucket_size).
Proof.
  split; simpl.
  - apply new_keys.
  - intros page_id f. unfold frame_of. simpl. by rewrite found_in_new.
  - intros f (n & -> & Hn)%list_elem_of_fmap. apply elem_of_seq in Hn.
    apply page_at_Done. split; [lia|]. rewrite Nat2Z.id.
    apply lookup_replicate. split; [done|lia].
  - apply NoDup_fmap; [apply Nat2Z.inj'|apply NoDup_seq].
Qed.

(** The frame [make_room] gives: it was unpinned, it is now zeroed and clean,
    its dirty page is on the disk, and the page table, the free list and the
    other frames agree as before. *)
Lemma make_room_consistent s f pages pt rep fl disk :
  bpm_inv s -> pool_consistent s ->
  make_room s = Done (f, pages, pt, rep, fl, disk) ->
  keys_inv pt /\
  (forall page_id g, found_in pt page_id = Some g ->
     g <> f /\ (g ∉ fl) /\ exists pg, page_at pages g = Done pg /\ page_id_ pg = page_id) /\
  (forall g, g ∈ fl -> page_at pages g = Done free_page) /\
  NoDup fl /\ (f ∉ fl) /\
  exists pg0, page_at (pages_ s) f = Done pg0 /\ pin_count_ pg0 = 0 /\
    page_at pages f = Done (mkPage zeroed (page_id_ pg0) 0 false) /\
    disk = (if is_dirty_ pg0
            then WritePage (disk_manager_ s) (page_id_ pg0) (data_ pg0)
            else disk_manager_ s) /\
    (forall page_id, page_id <> page_id_ pg0 ->
       found_in pt page_id = frame_of s page_id).
Proof.
  intros Hi Hc. unfold make_room. destruct (free_list_ s) as [|front rest] eqn:Hfl.
  - destruct (LRUKReplacer.Evict (replacer_ s)) as [r [x|]] eqn:HE; [|done].
    intros (pg & Hpg & Hk)%bind_Done.
    destruct (Evict_victim _ _ _ HE) as (_ & Hin & Hflag & _).
    destruct (inv_pins s Hi x pg Hpg) as (Hpin0 & Hpin & _).
    assert (pin_count_ pg = 0) as Hz.
    { destruct (decide (pin_count_ pg = 0)) as [|Hnz]; [done|].
      apply Hpin in Hnz. unfold flag in Hnz. congruence. }
    pose proof (page_at_frame_ok _ _ _ Hpg) as Hok.
    assert (exists pt' b,
              pt_Remove (page_table_ s) (GetPageId pg) = Done (pt', b) /\
              (f, pages, pt, rep, fl, disk) =
              (x, set_page (pages_ s) x (mkPage zeroed (page_id_ pg) 0 false), pt', r, [],
               if is_dirty_ pg then WritePage (disk_manager_ s) (page_id_ pg) (data_ pg)
               else disk_manager_ s)) as (pt' & b & Hrem & Heq).
    { unfold IsDirty, GetData, ResetMemory in Hk. destruct (is_dirty_ pg) eqn:Hd;
        apply bind_Done in Hk as ([pt' b] & Hrem & Hk); exists pt', b; (split; [done|]);
        injection Hk as <- <- <- <- <- <-; simpl; rewrite ?Hz, ?Hd; done. }
    injection Heq as -> -> -> -> -> ->. unfold GetPageId in Hrem.
    destruct (found_in_Remove _ _ _ _ (inv_table s Hi) (pc_keys s Hc) Hrem)
      as (Hgone & Hothers & _).
    split; [by eapply Remove_keys; [apply (pc_keys s Hc)|]|].
    split.
    { intros page_id g Hg.
      assert (page_id <> page_id_ pg) as Hne by (intros ->; congruence).
      rewrite Hothers in Hg by done.
      destruct (pc_resident s Hc page_id g Hg) as (_ & pg' & Hpg' & Hid).
      assert (g <> x) as Hgx by (intros ->; congruence).
      split; [done|]. split; [apply not_elem_of_nil|].
      exists pg'. split; [|done]. rewrite page_at_set_ne; [done|apply Hok|done]. }
    split; [by intros g Hg%elem_of_nil|]. split; [apply NoDup_nil_2|].
    split; [apply not_elem_of_nil|].
    exists pg. split; [done|]. split; [done|]. split; [by apply page_at_set_eq|].
    split; [done|]. intros page_id Hne. by apply Hothers.
  - intros [= <- <- <- <- <- <-].
    pose proof (pc_nodup s Hc) as Hnd. rewrite Hfl in Hnd.
    apply NoDup_cons in Hnd as [Hfront Hnd].
    assert (page_at (pages_ s) front = Done free_page) as Hpg.
    { apply (pc_free s Hc). rewrite Hfl. left. }
    split; [apply (pc_keys s Hc)|]. split.
    { intros page_id g Hg.
      destruct (pc_resident s Hc page_id g Hg) as (Hnot & pg' & Hpg' & Hid).
      rewrite Hfl in Hnot. apply not_elem_of_cons in Hnot as [Hne Hnot]. eauto. }
    split; [intros g Hg; apply (pc_free s Hc); rewrite Hfl; by right|].
    split; [done|]. split; [done|].
    exists free_page. split; [done|]. split; [done|]. split; [done|]. split; [done|]. done.
Qed.

(** The second half of [NewPgImp] and of the miss path of [FetchPgImp]. *)
Lemma install_consistent fuel s f pages pt rep fl disk page_id pt' rep' pg' next disk' :
  bpm_inv s -> pool_consistent s ->
  make_room s = Done (f, pages, pt, rep, fl, disk) ->
  pt_Insert fuel pt page_id f = Done pt' ->
  page_id_ pg' = page_id ->
  pool_consistent (mk (set_page pages f pg') pt' rep' fl next disk').
Proof.
  intros Hi Hc Hroom Hins Hid.
  destruct (make_room_Done _ _ _ _ _ _ _ Hi Hroom) as (Hf & Hlen & Htab & _).
  destruct (make_room_consistent _ _ _ _ _ _ _ Hi Hc Hroom)
    as (Hkeys & Hres & Hfree & Hnd & Hnot & _).
  destruct (found_in_Insert _ _ _ _ _ Htab Hins) as [Hnew Hothers].
  assert (frame_ok pages f) as Hf' by by eapply frame_ok_length.
  split; simpl.
  - by eapply Insert_keys.
  - intros id g. unfold frame_of. simpl. destruct (decide (id = page_id)) as [->|Hne].
    + rewrite Hnew. intros [= <-]. split; [done|]. exists pg'.
      split; [by apply page_at_set_eq|done].
    + rewrite Hothers by done. intros (Hgf & Hgfl & pg & Hpg & Hpid)%Hres.
      split; [done|]. exists pg. split; [|done].
      rewrite page_at_set_ne; [done|apply Hf|done].
  - intros g Hg. rewrite page_at_set_ne; [by apply Hfree|apply Hf|].
    intros ->. done.
  - done.
Qed.

Lemma NewPgImp_consistent fuel s s' r :
  bpm_inv s -> pool_consistent s -> NewPgImp fuel s = Done (s', r) -> pool_consistent s'.
Proof.
  intros Hi Hc. rewrite NewPgImp_unfold.
  destruct (negb (has_avail_frame (pages_ s))); [by intros [= <- _]|].
  intros ([[[[[f pages] pt] rep] fl] disk] & Hroom & Hk)%bind_Done.
  apply bind_Done in Hk as (pt' & Hins & Hk).
  apply bind_Done in Hk as (pg & Hpg & Hk).
  apply bind_Done in Hk as (rep2 & Hacc & Hk).
  apply bind_Done in Hk as (rep3 & Hset & Hk).
  injection Hk as <- _. by eapply install_consistent.
Qed.

(** A call that rewrites in place the frame of a resident page. *)
Lemma update_consistent s page_id f pg pg' rep' next disk' :
  pool_consistent s -> frame_of s page_id = Some f ->
  page_at (pages_ s) f = Done pg -> page_id_ pg' = page_id_ pg ->
  pool_consistent
    (mk (set_page (pages_ s) f pg') (page_table_ s) rep' (free_list_ s) next disk').
Proof.
  intros Hc Hfound Hpg Hid.
  pose proof (page_at_frame_ok _ _ _ Hpg) as Hok.
  destruct (pc_resident s Hc _ _ Hfound) as (Hnot & _).
  split; simpl.
  - apply (pc_keys s Hc).
  - intros id g Hg. destruct (pc_resident s Hc id g Hg) as (Hgfl & pg2 & Hpg2 & Hid2).
    split; [done|]. destruct (decide (g = f)) as [->|Hne].
    + exists pg'. split; [by apply page_at_set_eq|]. congruence.
    + exists pg2. split; [|done]. rewrite page_at_set_ne; [done|apply Hok|done].
  - intros g Hg. rewrite page_at_set_ne; [by apply (pc_free s Hc)|apply Hok|].
    intros ->. done.
  - apply (pc_nodup s Hc).
Qed.

Lemma FetchPgImp_consistent fuel s page_id s' r :
  bpm_inv s -> pool_consistent s ->
  FetchPgImp fuel s page_id = Done (s', r) -> pool_consistent s'.
Proof.
  intros Hi Hc. rewrite FetchPgImp_unfold.
  intros ([t' [f|]] & HF & Hk)%bind_Done.
  - destruct (found_frame s page_id t' f Hi HF) as (pg & Hpg & _).
    rewrite Hpg in Hk. simpl in Hk.
    destruct (pin_count_ pg =? INT_MAX); [done|].
    apply bind_Done in Hk as (rep2 & Hacc & Hk).
    apply bind_Done in Hk as (rep3 & Hset & Hk). injection Hk as <- _.
    eapply update_consistent; [done|by eapply found_in_Some|done|done].
  - destruct (negb (has_avail_frame (pages_ s))); [by injection Hk as <- _|].
    apply bind_Done in Hk as ([[[[[f pages] pt] rep] fl] disk] & Hroom & Hk).
    apply bind_Done in Hk as (pt' & Hins & Hk).
    apply bind_Done in Hk as (pg & Hpg & Hk).
    apply bind_Done in Hk as (rep2 & Hacc & Hk).
    apply bind_Done in Hk as (rep3 & Hset & Hk).
    injection Hk as <- _. by eapply install_consistent.
Qed.

Lemma UnpinPgImp_consistent s page_id is_dirty s' r :
  bpm_inv s -> pool_consistent s ->
  UnpinPgImp s page_id is_dirty = Done (s', r) -> pool_consistent s'.
Proof.
  intros Hi Hc. unfold UnpinPgImp.
  intros ([t' [f|]] & HF & Hk)%bind_Done; [|by injection Hk as <- _].
  destruct (found_frame s page_id t' f Hi HF) as (pg & Hpg & _).
  rewrite Hpg in Hk. simpl in Hk.
  destruct (GetPinCount pg =? 0); [by injection Hk as <- _|].
  destruct (pin_count_ pg =? INT_MIN); [done|].
  apply bind_Done in Hk as (rep' & Hrep & Hk). injection Hk as <- _.
  eapply update_consistent; [done|by eapply found_in_Some|done|done].
Qed.

Lemma FlushPgImp_consistent s page_id s' r :
  bpm_inv s -> pool_consistent s ->
  FlushPgImp s page_id = Done (s', r) -> pool_consistent s'.
Proof.
  intros Hi Hc. unfold FlushPgImp.
  intros ([t' [f|]] & HF & Hk)%bind_Done; [|by injection Hk as <- _].
  destruct (found_frame s page_id t' f Hi HF) as (pg & Hpg & _).
  rewrite Hpg in Hk. simpl in Hk. injection Hk as <- _.
  eapply update_consistent; [done|by eapply found_in_Some|done|done].
Qed.

(** [DeletePgImp] past its two tests. *)
Lemma DeletePgImp_frees s page_id t' f pg s' r :
  bpm_inv s -> pool_consistent s ->
  pt_Find (page_table_ s) page_id = Done (t', Some f) ->
  page_at (pages_ s) f = Done pg -> pin_count_ pg <= 0 ->
  DeletePgImp s page_id = Done (s', r) ->
  exists pt' b rep',
    pt_Remove (page_table_ s) page_id = Done (pt', b) /\
    LRUKReplacer.Remove (replacer_ s) f = Done rep' /\
    r = true /\
    s' = mk (set_page (pages_ s) f free_page) pt' rep' (free_list_ s ++ [f])
           (next_page_id_ s)
           (if is_dirty_ pg then WritePage (disk_manager_ s) page_id (data_ pg)
            else disk_manager_ s).
Proof.
  intros Hi Hc HF Hpg Hpin. unfold DeletePgImp. rewrite HF. simpl. rewrite Hpg. simpl.
  unfold GetPinCount. destruct (Z.gtb_spec (pin_count_ pg) 0) as [|_]; [lia|].
  unfold IsDirty, GetData, ResetMemory.
  destruct (is_dirty_ pg) eqn:Hd; simpl;
    intros ([pt' b] & Hrem & Hk)%bind_Done;
    apply bind_Done in Hk as (rep' & Hrep & Hk); injection Hk as <- <-;
    exists pt', b, rep'; rewrite ?Hd; done.
Qed.

Lemma DeletePgImp_consistent s page_id s' r :
  bpm_inv s -> pool_consistent s ->
  DeletePgImp s page_id = Done (s', r) -> pool_consistent s'.
Proof.
  intros Hi Hc HD. pose proof HD as HD'. unfold DeletePgImp in HD'.
  apply bind_Done in HD' as ([t' [f|]] & HF & Hk); [|by injection Hk as <- _].
  destruct (found_frame s page_id t' f Hi HF) as (pg & Hpg & Hok & _).
  rewrite Hpg in Hk. simpl in Hk. unfold GetPinCount in Hk.
  destruct (Z.gtb_spec (pin_count_ pg) 0) as [|Hpin]; [by injection Hk as <- _|].
  clear Hk.
  destruct (DeletePgImp_frees s page_id t' f pg s' r Hi Hc HF Hpg Hpin HD)
    as (pt' & b & rep' & Hrem & Hrep & -> & ->).
  pose proof (found_in_Some _ _ _ _ HF) as Hfound.
  destruct (pc_resident s Hc _ _ Hfound) as (Hnot & pg2 & Hpg2 & Hid).
  assert (pg2 = pg) as -> by congruence.
  destruct (found_in_Remove _ _ _ _ (inv_table s Hi) (pc_keys s Hc) Hrem)
    as (Hgone & Hothers & _).
  split; simpl.
  - by eapply Remove_keys; [apply (pc_keys s Hc)|].
  - intros id g. unfold frame_of. simpl. intros Hg.
    assert (id <> page_id) as Hne by (intros ->; congruence).
    rewrite Hothers in Hg by done.
    destruct (pc_resident s Hc id g Hg) as (Hgfl & pg3 & Hpg3 & Hid3).
    assert (g <> f) as Hgf by (intros ->; congruence).
    split.
    + rewrite elem_of_app, list_elem_of_singleton. tauto.
    + exists pg3. split; [|done]. rewrite page_at_set_ne; [done|apply Hok|done].
  - intros g [Hg| ->%list_elem_of_singleton]%elem_of_app.
    + rewrite page_at_set_ne; [by apply (pc_free s Hc)|apply Hok|]. intros ->. done.
    + by apply page_at_set_eq.
  - apply NoDup_app. split; [apply (pc_nodup s Hc)|]. split; [|apply NoDup_singleton].
    intros g Hg ->%list_elem_of_singleton. done.
Qed.

Lemma reachable_consistent s : reachable s -> pool_consistent s.
Proof.
  induction 1 as [| fuel s s' r Hr IH Hs | fuel s page_id s' r Hr IH Hs
                  | s page_id is_dirty s' r Hr IH Hs | s page_id s' r Hr IH Hs
                  | s page_id s' r Hr IH Hs];
    try pose proof (reachable_inv s Hr) as Hi.
  - apply pool_new_consistent.
  - by eapply NewPgImp_consistent.
  - by eapply FetchPgImp_consistent.
  - by eapply UnpinPgImp_consistent.
  - by eapply FlushPgImp_consistent.
  - by eapply DeletePgImp_consistent.
Qed.


(** *** What the calls return *)

(** The frame installed by [NewPgImp] and by the miss path of [FetchPgImp]. *)
Lemma install_post fuel s f pages pt rep fl disk page_id pt' pg1 rep2 rep3 pg' next :
  bpm_inv s -> pool_consistent s ->
  make_room s = Done (f, pages, pt, rep, fl, disk) ->
  pt_Insert fuel pt page_id f = Done pt' ->
  page_at pages f = Done pg1 ->
  LRUKReplacer.RecordAccess rep f = Done rep2 ->
  LRUKReplacer.SetEvictable rep2 f false = Done rep3 ->
  let s' := mk (set_page pages f pg') pt' rep3 fl next disk in
  frame_of s' page_id = Some f /\
  page_at (pages_ s') f = Done pg' /\
  flag s' f = Some false /\
  (forall g, g <> f -> page_at (pages_ s') g = page_at (pages_ s) g) /\
  exists pg0, page_at (pages_ s) f = Done pg0 /\ pin_count_ pg0 = 0 /\
    pg1 = mkPage zeroed (page_id_ pg0) 0 false /\
    disk = (if is_dirty_ pg0
            then WritePage (disk_manager_ s) (page_id_ pg0) (data_ pg0)
            else disk_manager_ s) /\
    (forall id, id <> page_id -> id <> page_id_ pg0 -> frame_of s' id = frame_of s id).
Proof.
  intros Hi Hc Hroom Hins Hpg1 Hacc Hset s'.
  destruct (make_room_Done _ _ _ _ _ _ _ Hi Hroom)
    as (Hf & Hlen & Htab & _ & _ & _ & _ & _ & _ & Hpages).
  destruct (make_room_consistent _ _ _ _ _ _ _ Hi Hc Hroom)
    as (_ & _ & _ & _ & _ & pg0 & Hpg0 & Hpin & Hpg1' & Hdisk & Hpt).
  destruct (found_in_Insert _ _ _ _ _ Htab Hins) as [Hnew Hothers].
  destruct (SetEvictable_Done rep2 f false (SetEvictable_inv _ _ _ _ Hset))
    as (r3 & Hset' & _ & _ & _ & _ & _ & Hm3 & _).
  assert (r3 = rep3) as -> by congruence.
  assert (frame_ok pages f) as Hf' by by eapply frame_ok_length.
  subst s'. unfold frame_of, flag. simpl.
  split; [done|]. split; [by apply page_at_set_eq|].
  split; [by rewrite Hm3, lookup_insert_eq|].
  split; [intros g Hg; rewrite page_at_set_ne; [by apply Hpages|apply Hf|done]|].
  exists pg0. do 2 (split; [done|]). split; [congruence|]. split; [done|].
  intros id Hid Hid0. rewrite Hothers by done. by apply Hpt.
Qed.

Lemma NewPgImp_post fuel s s' page_id f :
  bpm_inv s -> pool_consistent s ->
  NewPgImp fuel s = Done (s', Some (page_id, f)) ->
  page_id = next_page_id_ s /\ next_page_id_ s' = int_wrap (page_id + 1) /\
  frame_of s' page_id = Some f /\
  page_at (pages_ s') f = Done (mkPage zeroed page_id 1 false) /\
  flag s' f = Some false /\
  (forall g, g <> f -> page_at (pages_ s') g = page_at (pages_ s) g) /\
  exists pg0, page_at (pages_ s) f = Done pg0 /\ pin_count_ pg0 = 0 /\
    disk_manager_ s' =
      (if is_dirty_ pg0
       then WritePage (disk_manager_ s) (page_id_ pg0) (data_ pg0)
       else disk_manager_ s) /\
    (forall id, id <> page_id -> id <> page_id_ pg0 -> frame_of s' id = frame_of s id).
Proof.
  intros Hi Hc. rewrite NewPgImp_unfold.
  destruct (negb (has_avail_frame (pages_ s))); [done|].
  intros ([[[[[f' pages] pt] rep] fl] disk] & Hroom & Hk)%bind_Done.
  apply bind_Done in Hk as (pt' & Hins & Hk).
  apply bind_Done in Hk as (pg1 & Hpg1 & Hk).
  apply bind_Done in Hk as (rep2 & Hacc & Hk).
  apply bind_Done in Hk as (rep3 & Hset & Hk).
  injection Hk as <- <- <-.
  destruct (install_post fuel s f' pages pt rep fl disk (next_page_id_ s) pt' pg1 rep2 rep3
              (mkPage (data_ pg1) (next_page_id_ s) 1 (is_dirty_ pg1))
              (int_wrap (next_page_id_ s + 1)) Hi Hc Hroom Hins Hpg1 Hacc Hset)
    as (Hfound & Hpage & Hflag & Hrest & pg0 & Hpg0 & Hpin & -> & Hdisk & Hpt).
  do 3 (split; [done|]). split; [done|]. split; [done|]. split; [done|].
  exists pg0. do 2 (split; [done|]). split; [done|]. done.
Qed.




Lemma DeletePgImp_post s page_id :
  bpm_inv s -> pool_consistent s ->
  exists s' ret, DeletePgImp s page_id = Done (s', ret) /\
    match frame_of s page_id with
    | None => ret = true /\ s' = s
    | Some f =>
        exists pg, page_at (pages_ s) f = Done pg /\ page_id_ pg = page_id /\
          if pin_count_ pg >? 0 then ret = false /\ s' = s
          else
            ret = true /\ frame_of s' page_id = None /\
            (forall id, id <> page_id -> frame_of s' id = frame_of s id) /\
            page_at (pages_ s') f = Done free_page /\
            (forall g, g <> f -> page_at (pages_ s') g = page_at (pages_ s) g) /\
            free_list_ s' = free_list_ s ++ [f] /\
            next_page_id_ s' = next_page_id_ s /\
            disk_manager_ s' =
              (if is_dirty_ pg then WritePage (disk_manager_ s) page_id (data_ pg)
               else disk_manager_ s)
    end.
Proof.
  intros Hi Hc. pose proof (pt_Find_found _ page_id (inv_table s Hi)) as HF.
  unfold frame_of. destruct (found_in (page_table_ s) page_id) as [f|] eqn:Hfound.
  - destruct (found_frame s page_id _ f Hi HF) as (pg & Hpg & Hok & Hflag & Hle).
    destruct (pc_resident s Hc page_id f Hfound) as (_ & pg2 & Hpg2 & Hid).
    assert (pg2 = pg) as -> by congruence.
    destruct (Z.gtb_spec (pin_count_ pg) 0) as [Hpin|Hpin].
    + exists s, false. split; [|exists pg; by rewrite (proj2 (Z.gtb_gt _ _)) by lia].
      unfold DeletePgImp. rewrite HF. simpl. rewrite Hpg. simpl. unfold GetPinCount.
      by rewrite (proj2 (Z.gtb_gt _ _)) by lia.
    + destruct (Remove_total hash_page_id (page_table_ s) page_id (inv_table s Hi))
        as (pt' & b & Hrem).
      destruct (Remove_Done (replacer_ s) f Hle) as (rep' & Hrep & _).
      assert (exists s' ret, DeletePgImp s page_id = Done (s', ret)) as (s' & ret & HD).
      { unfold DeletePgImp. rewrite HF. simpl. rewrite Hpg. simpl. unfold GetPinCount.
        destruct (Z.gtb_spec (pin_count_ pg) 0); [lia|].
        fold (pt_Remove (page_table_ s) page_id) in Hrem.
        destruct (IsDirty pg); rewrite Hrem; simpl; rewrite Hrep; simpl; eauto. }
      exists s', ret. split; [done|]. exists pg. do 2 (split; [done|]).
      destruct (Z.gtb_spec (pin_count_ pg) 0); [lia|].
      destruct (DeletePgImp_frees s page_id _ f pg s' ret Hi Hc HF Hpg Hpin HD)
        as (pt2 & b2 & rep2 & Hrem2 & Hrep2 & -> & ->).
      destruct (found_in_Remove _ _ _ _ (inv_table s Hi) (pc_keys s Hc) Hrem2)
        as (Hgone & Hothers & _).
      simpl. split; [done|]. split; [done|]. split; [done|].
      split; [by apply page_at_set_eq|].
      split; [intros g Hg; rewrite page_at_set_ne; [done|apply Hok|done]|]. done.
  - exists s, true. split; [|done]. unfold DeletePgImp. by rewrite HF.
Qed.

Lemma FlushPgImp_post s page_id :
  bpm_inv s -> pool_consistent s ->
  exists s' ret, FlushPgImp s page_id = Done (s', ret) /\
    match frame_of s page_id with
    | None => ret = false /\ s' = s
    | Some f =>
        exists pg, page_at (pages_ s) f = Done pg /\ page_id_ pg = page_id /\
          ret = true /\
          disk_manager_ s' = WritePage (disk_manager_ s) page_id (data_ pg) /\
          ReadPage (disk_manager_ s') page_id = data_ pg /\
          pages_ s' =
            set_page (pages_ s) f (mkPage (data_ pg) page_id (pin_count_ pg) false) /\
          page_table_ s' = page_table_ s /\ replacer_ s' = replacer_ s /\
          free_list_ s' = free_list_ s /\ next_page_id_ s' = next_page_id_ s
    end.
Proof.
  intros Hi Hc. pose proof (pt_Find_found _ page_id (inv_table s Hi)) as HF.
  unfold frame_of, FlushPgImp. rewrite HF. simpl.
  destruct (found_in (page_table_ s) page_id) as [f|] eqn:Hfound; [|eauto].
  destruct (pc_resident s Hc page_id f Hfound) as (_ & pg & Hpg & Hid).
  rewrite Hpg. simpl. eexists _, _. split; [done|]. exists pg. simpl.
  do 4 (split; [done|]). split.
  - unfold ReadPage, WritePage, GetData. by rewrite lookup_insert_eq.
  - rewrite Hid. done.
Qed.

(** *** Dirty pages *)




(** *** [FlushAllPgsImp] *)

Lemma flush_from_spec s n i :
  Z.of_nat i + Z.of_nat n = Z.of_nat (length (pages_ s)) ->
  flush_from n i s =
  if forallb (fun pg => GetPageId pg =? INVALID_PAGE_ID) (drop i (pages_ s))
  then Done s else Undefined.
Proof.
  revert i. induction n as [|n IH]; intros i Hlen; simpl.
  - rewrite drop_ge by lia. done.
  - destruct (lookup_lt_is_Some_2 (pages_ s) i) as [pg Hpg]; [lia|].
    rewrite (proj2 (page_at_Done _ _ pg)) by (rewrite Nat2Z.id; split; [lia|done]).
    simpl. rewrite (drop_S _ _ _ Hpg). simpl.
    destruct (GetPageId pg =? INVALID_PAGE_ID); simpl; [|done].
    apply IH. lia.
Qed.


(** *** Capacity *)

Lemma found_in_entries pt page_id f :
  table_inv pt -> keys_inv pt ->
  found_in pt page_id = Some f <-> (page_id, f) ∈ ExtendibleHashTable.entries pt.
Proof.
  intros Hi Hk. rewrite <- (Find_entries hash_page_id pt page_id f Hi Hk).
  fold (pt_Find pt page_id). rewrite (pt_Find_found pt page_id Hi).
  split; [by intros ->|by intros [= ->]].
Qed.

Lemma resident_and_free_fit s :
  bpm_inv s -> pool_consistent s ->
  (length (ExtendibleHashTable.entries (page_table_ s)) + length (free_list_ s)
   <= length (pages_ s))%nat.
Proof.
  intros Hi Hc.
  pose proof (found_in_entries (page_table_ s)) as Hent.
  specialize (fun id f => Hent id f (inv_table s Hi) (pc_keys s Hc)).
  assert (length (Z.of_nat <$> seq 0 (length (pages_ s))) = length (pages_ s)) as Hn
    by (by rewrite length_fmap, length_seq).
  rewrite <- (length_fmap snd), <- length_app, <- Hn.
  apply submseteq_length, NoDup_submseteq.
  - apply NoDup_app. split; [|split; [|apply (pc_nodup s Hc)]].
    + apply NoDup_fmap_2_strong;
        [|apply (entries_NoDup hash_page_id); [apply (inv_table s Hi)|apply (pc_keys s Hc)]].
      intros [id1 f1] [id2 f2] H1%Hent H2%Hent. simpl. intros <-.
      destruct (pc_resident s Hc _ _ H1) as (_ & pg1 & Hpg1 & Hid1).
      destruct (pc_resident s Hc _ _ H2) as (_ & pg2 & Hpg2 & Hid2).
      f_equal. congruence.
    + intros f ([id f'] & -> & Hin%Hent)%list_elem_of_fmap. simpl.
      by destruct (pc_resident s Hc _ _ Hin) as (Hnot & _).
  - intros f. assert (frame_ok (pages_ s) f -> f ∈ Z.of_nat <$> seq 0 (length (pages_ s)))
      as Hrange.
    { intros [H0 Hlt]. apply list_elem_of_fmap. exists (Z.to_nat f). split; [lia|].
      apply elem_of_seq. lia. }
    intros [([id f'] & -> & Hin%Hent)%list_elem_of_fmap|Hfree]%elem_of_app; apply Hrange.
    + destruct (pc_resident s Hc _ _ Hin) as (_ & pg & Hpg & _). simpl.
      by eapply page_at_frame_ok.
    + by apply (inv_free s Hi).
Qed.

(** *** Properties of the pool that a caller relies on *)

(** X14 - Page table and frames agree: in a state reached from a fresh pool,
    the frame the page table gives for a page id holds that page id, is not
    on the free list, and is the frame of no other page id. *)
Theorem page_table_agrees_with_frames s page_id t' f :
  reachable s -> pt_Find (page_table_ s) page_id = Done (t', Some f) ->
  (exists pg, page_at (pages_ s) f = Done pg /\ page_id_ pg = page_id) /\
  (f ∉ free_list_ s) /\
  forall page_id' t'', pt_Find (page_table_ s) page_id' = Done (t'', Some f) ->
    page_id' = page_id.
Proof.
  intros Hc%reachable_consistent HF%found_in_Some.
  destruct (pc_resident s Hc _ _ HF) as (Hnot & pg & Hpg & Hid).
  split; [eauto|]. split; [done|]. intros id t2 HF2%found_in_Some.
  destruct (pc_resident s Hc _ _ HF2) as (_ & pg2 & Hpg2 & Hid2). congruence.
Qed.

(** X15 - The free list: in a state reached from a fresh pool it holds no
    frame twice, and each of its frames is unpinned, clean, zeroed, has the
    page id [INVALID_PAGE_ID], and is the frame of no page id in the page
    table. *)
Theorem free_list_frames_hold_no_page s :
  reachable s ->
  NoDup (free_list_ s) /\
  forall f, f ∈ free_list_ s ->
    page_at (pages_ s) f = Done (mkPage zeroed INVALID_PAGE_ID 0 false) /\
    forall page_id, frame_of s page_id <> Some f.
Proof.
  intros Hc%reachable_consistent. split; [apply (pc_nodup s Hc)|].
  intros f Hf. split; [by apply (pc_free s Hc)|].
  intros page_id Hfound. by destruct (pc_resident s Hc _ _ Hfound) as (Hnot & _).
Qed.




(** X19 - [DeletePage] in a state reached from a fresh pool always returns:
    true without a change for a page that is not resident; false without a
    change for a resident page that is pinned; and true for a resident page
    that is not pinned, whose frame then is zeroed, clean, without page id
    and unpinned, at the tail of the free list, the page id gone from the
    page table, the bytes written to the disk exactly if the page was dirty,
    and the other frames and page ids as they were. *)
Theorem DeletePgImp_spec s page_id :
  reachable s ->
  exists s' ret, DeletePgImp s page_id = Done (s', ret) /\
    match frame_of s page_id with
    | None => ret = true /\ s' = s
    | Some f =>
        exists pg, page_at (pages_ s) f = Done pg /\ page_id_ pg = page_id /\
          if pin_count_ pg >? 0 then ret = false /\ s' = s
          else
            ret = true /\ frame_of s' page_id = None /\
            (forall id, id <> page_id -> frame_of s' id = frame_of s id) /\
            page_at (pages_ s') f = Done free_page /\
            (forall g, g <> f -> page_at (pages_ s') g = page_at (pages_ s) g) /\
            free_list_ s' = free_list_ s ++ [f] /\
            next_page_id_ s' = next_page_id_ s /\
            disk_manager_ s' =
              (if is_dirty_ pg then WritePage (disk_manager_ s) page_id (data_ pg)
               else disk_manager_ s)
    end.
Proof.
  intros Hr. apply DeletePgImp_post; [by apply reachable_inv|by apply reachable_consistent].
Qed.

(** X20 - [FlushPage] in a state reached from a fresh pool always returns:
    false without a change for a page that is not resident; true for a
    resident page, pinned or not, dirty or not, after which the disk has the
    bytes of the frame under the page id and the frame is clean, with its
    bytes and pin count, the page table, the replacer and the free list as
    they were. *)
Theorem FlushPgImp_spec s page_id :
  reachable s ->
  exists s' ret, FlushPgImp s page_id = Done (s', ret) /\
    match frame_of s page_id with
    | None => ret = false /\ s' = s
    | Some f =>
        exists pg, page_at (pages_ s) f = Done pg /\ page_id_ pg = page_id /\
          ret = true /\
          disk_manager_ s' = WritePage (disk_manager_ s) page_id (data_ pg) /\
          ReadPage (disk_manager_ s') page_id = data_ pg /\
          pages_ s' =
            set_page (pages_ s) f (mkPage (data_ pg) page_id (pin_count_ pg) false) /\
          page_table_ s' = page_table_ s /\ replacer_ s' = replacer_ s /\
          free_list_ s' = free_list_ s /\ next_page_id_ s' = next_page_id_ s
    end.
Proof.
  intros Hr. apply FlushPgImp_post; [by apply reachable_inv|by apply reachable_consistent].
Qed.

(** X21 - [NewPage], [UnpinPage], [DeletePage] in a row: after a [NewPage]
    that returned a page, unpinning it succeeds and deleting it then
    succeeds; the page id is gone from the page table, the frame is back at
    the tail of the free list, zeroed and unpinned, the zeroed bytes of the
    page have been written to the disk exactly if it was unpinned as dirty,
    and the other frames are as they were after [NewPage]. *)
Theorem New_Unpin_Delete fuel s s1 page_id f is_dirty :
  reachable s -> NewPgImp fuel s = Done (s1, Some (page_id, f)) ->
  exists s2 s3,
    UnpinPgImp s1 page_id is_dirty = Done (s2, true) /\
    DeletePgImp s2 page_id = Done (s3, true) /\
    frame_of s3 page_id = None /\
    page_at (pages_ s3) f = Done free_page /\
    free_list_ s3 = free_list_ s1 ++ [f] /\
    disk_manager_ s3 =
      (if is_dirty then WritePage (disk_manager_ s1) page_id zeroed
       else disk_manager_ s1) /\
    forall g, g <> f -> page_at (pages_ s3) g = page_at (pages_ s1) g.
Proof.
  intros Hr HN. pose proof (reachable_inv s Hr) as Hi.
  pose proof (reachable_consistent s Hr) as Hc.
  destruct (NewPgImp_post _ _ _ _ _ Hi Hc HN) as (_ & _ & Hfound & Hpg & _).
  pose proof (reachable_NewPage _ _ _ _ Hr HN) as Hr1.
  pose proof (reachable_inv s1 Hr1) as Hi1.
  pose proof (pt_Find_found _ page_id (inv_table s1 Hi1)) as HF.
  unfold frame_of in Hfound. rewrite Hfound in HF.
  destruct (found_frame s1 page_id _ f Hi1 HF) as (_ & _ & Hok & _ & Hle).
  destruct (SetEvictable_Done (replacer_ s1) f true Hle) as (rep' & Hset & _).
  assert (UnpinPgImp s1 page_id is_dirty =
          Done (mk (set_page (pages_ s1) f (mkPage zeroed page_id 0 is_dirty))
                  (page_table_ s1) rep' (free_list_ s1) (next_page_id_ s1)
                  (disk_manager_ s1), true)) as HU.
  { unfold UnpinPgImp. rewrite HF. simpl. rewrite Hpg. simpl. rewrite Hset. simpl.
    by destruct is_dirty. }
  match type of HU with _ = Done (?x, _) => set (s2 := x) in * end.
  pose proof (reachable_UnpinPage _ _ _ _ _ Hr1 HU) as Hr2.
  destruct (DeletePgImp_post s2 page_id (reachable_inv s2 Hr2) (reachable_consistent s2 Hr2))
    as (s3 & ret & HD & Hpost).
  assert (frame_of s2 page_id = Some f) as Hfound2 by done.
  rewrite Hfound2 in Hpost. destruct Hpost as (pg & Hpg2 & _ & Hcase).
  assert (pg = mkPage zeroed page_id 0 is_dirty) as ->.
  { subst s2. simpl in Hpg2. rewrite page_at_set_eq in Hpg2 by done. congruence. }
  simpl in Hcase. destruct Hcase as (-> & Hgone & _ & Hfree & Hrest & Hfl & _ & Hdisk).
  exists s2, s3. do 5 (split; [done|]). split; [done|].
  intros g Hg. rewrite Hrest by done. subst s2. simpl.
  rewrite page_at_set_ne; [done|apply Hok|done].
Qed.

(** X22 - [FlushAllPages] writes nothing: it takes the latch and then, for
    the first frame that holds a page, calls [FlushPgImp], which takes the
    same latch again.  It returns, with the state unchanged, when no frame
    holds a page; when some frame holds a page its behaviour is undefined.
    In no case is a page written to the disk or a dirty flag cleared. *)
Theorem FlushAllPgsImp_relocks s :
  (Forall (fun pg => page_id_ pg = INVALID_PAGE_ID) (pages_ s) ->
     FlushAllPgsImp s = Done s) /\
  (Exists (fun pg => page_id_ pg <> INVALID_PAGE_ID) (pages_ s) ->
     FlushAllPgsImp s = Undefined).
Proof.
  unfold FlushAllPgsImp. rewrite flush_from_spec by lia. rewrite drop_0.
  destruct (forallb _ (pages_ s)) eqn:Hall.
  - split; [done|]. intros Hex. apply Exists_exists in Hex as (pg & Hin & Hne).
    rewrite forallb_forall in Hall. apply list_elem_of_In in Hin.
    apply Hall in Hin. unfold GetPageId in Hin. lia.
  - split; [|done]. intros Hfa. assert (forallb
      (fun pg => GetPageId pg =? INVALID_PAGE_ID) (pages_ s) = true) as Ht; [|congruence].
    apply forallb_forall. intros pg Hin%list_elem_of_In.
    rewrite Forall_forall in Hfa. apply Z.eqb_eq. by apply Hfa.
Qed.


(** X26 - The pool is never over-committed: in a state reached from a fresh
    pool, the number of pages in the page table and the number of frames on
    the free list together are at most the number of frames. *)
Theorem resident_pages_fit_pool s :
  reachable s ->
  (length (ExtendibleHashTable.entries (page_table_ s)) + length (free_list_ s)
   <= length (pages_ s))%nat.
Proof.
  intros Hr. apply resident_and_free_fit; [by apply reachable_inv|by apply reachable_consistent].
Qed.

(** *** Concrete runs *)

Lemma page_table_agrees_with_frames_witness :
  exists pg, page_at (pages_ one_page) 0 = Done pg /\ page_id_ pg = 0.
Proof.
  apply (page_table_agrees_with_frames one_page 0 (page_table_ one_page) 0).
  - apply one_page_reachable.
  - vm_compute. reflexivity.
Defined.

Lemma free_list_frames_hold_no_page_witness :
  NoDup (free_list_ one_page) /\
  forall f, f ∈ free_list_ one_page ->
    page_at (pages_ one_page) f = Done (mkPage zeroed INVALID_PAGE_ID 0 false) /\
    forall page_id, frame_of one_page page_id <> Some f.
Proof. apply (free_list_frames_hold_no_page one_page), one_page_reachable. Defined.




Lemma DeletePgImp_spec_witness :
  exists s' ret, DeletePgImp one_page 0 = Done (s', ret).
Proof.
  destruct (DeletePgImp_spec one_page 0 one_page_reachable) as (s' & ret & H & _).
  exists s', ret. exact H.
Defined.

Lemma FlushPgImp_spec_witness :
  exists s' ret, FlushPgImp one_page 0 = Done (s', ret).
Proof.
  destruct (FlushPgImp_spec one_page 0 one_page_reachable) as (s' & ret & H & _).
  exists s', ret. exact H.
Defined.

Lemma New_Unpin_Delete_witness :
  exists s1 s2 s3,
    NewPgImp 64 one_page = Done (s1, Some (1, 1)) /\
    UnpinPgImp s1 1 true = Done (s2, true) /\
    DeletePgImp s2 1 = Done (s3, true) /\
    free_list_ s3 = free_list_ s1 ++ [1].
Proof.
  eexists. 
  assert (NewPgImp 64 one_page = Done (_, Some (1, 1))) as HN by (vm_compute; reflexivity).
  destruct (New_Unpin_Delete 64 one_page _ 1 1 true one_page_reachable HN)
    as (s2 & s3 & HU & HD & _ & _ & Hfl & _).
  exists s2, s3. split; [exact HN|]. split; [exact HU|]. split; [exact HD|exact Hfl].
Defined.

Lemma FlushAllPgsImp_relocks_witness :
  FlushAllPgsImp (new 2 ∅ 2 4) = Done (new 2 ∅ 2 4) /\ FlushAllPgsImp one_page = Undefined.
Proof.
  split.
  - apply (FlushAllPgsImp_relocks (new 2 ∅ 2 4)). vm_compute.
    repeat constructor.
  - apply (FlushAllPgsImp_relocks one_page). apply Exists_cons_hd. vm_compute. discriminate.
Defined.

Lemma resident_pages_fit_pool_witness :
  (length (ExtendibleHashTable.entries (page_table_ one_page)) + length (free_list_ one_page)
   <= length (pages_ one_page))%nat.
Proof. apply (resident_pages_fit_pool one_page), one_page_reachable. Defined.

End BufferPoolConsistency.

(** ** The buffer pool without [DeletePage] *)

Module BufferPoolDefined.
Import BufferPoolManagerInstance.
Import HashTableProps ReplacerProps BufferPoolProps HashTableMap ReplacerShape.
Import BufferPoolConsistency.

#[local] Open Scope Z_scope.

#[local] Abbreviation in_lists := LRUKReplacer.in_lists.
#[local] Abbreviation table_inv := (ExtendibleHashTable.table_inv hash_page_id).

Implicit Types (s : t) (pg : Page) (pages : list Page).
Implicit Types (pt : ExtendibleHashTable.Table Z Z).

(** *** Calls on the page table and the replacer that cannot go wrong *)

Lemma split_loop_defined fuel pt key :
  table_inv pt ->
  (exists pt', ExtendibleHashTable.split_loop hash_page_id fuel pt key = Done pt') \/
  ExtendibleHashTable.split_loop hash_page_id fuel pt key = Unfinished.
Proof.
  revert pt. induction fuel as [|fuel IH]; intros pt Hi; simpl;
    destruct (target_bucket_exists hash_page_id pt key Hi) as (p & b & Hat);
    rewrite Hat; simpl; destruct (ExtendibleHashTable.IsFull b) eqn:Hfull; eauto.
  pose proof Hat as [Hp Hb]%bucket_at_Done.
  destruct (ExtendibleHashTable.inv_bucket _ _ Hi _ _ Hp) as (b' & Hb' & _ & Hsz & Hlen & _).
  assert (b' = b) as -> by congruence.
  rewrite (split_closed_form hash_page_id pt key p b Hat) by lia. simpl.
  apply IH. by eapply split_of_inv.
Qed.

Lemma pt_Insert_defined fuel pt key value :
  table_inv pt ->
  (exists pt', pt_Insert fuel pt key value = Done pt') \/
  pt_Insert fuel pt key value = Unfinished.
Proof.
  intros Hi. unfold pt_Insert, ExtendibleHashTable.Insert.
  destruct (split_loop_defined fuel pt key Hi) as [[pt1 Hl]|Hl]; rewrite Hl; simpl; [|by right].
  left. pose proof (split_loop_inv hash_page_id _ _ _ _ Hi Hl) as Hi1.
  destruct (target_bucket_exists hash_page_id pt1 key Hi1) as (p & b & Hat).
  unfold ExtendibleHashTable.store_entry. rewrite Hat. simpl. eauto.
Qed.

Lemma elem_of_delete_ne (l : list Z) (i : nat) x y :
  l !! i = Some x -> y ∈ l -> y <> x -> y ∈ delete i l.
Proof.
  revert i. induction l as [|z l IH]; intros i Hl Hy Hne; [by apply elem_of_nil in Hy|].
  destruct i as [|i]; simpl in *.
  - injection Hl as ->. apply elem_of_cons in Hy as [->|Hy]; done.
  - apply elem_of_cons in Hy as [->|Hy]; [left|right; by eapply IH].
Qed.

Lemma Evict_keeps_lists r r' x y :
  LRUKReplacer.Evict r = (r', Some x) -> in_lists r y -> y <> x -> in_lists r' y.
Proof.
  destruct (decide (LRUKReplacer.curr_size_ r = 0)) as [Hz|Hnz].
  { unfold LRUKReplacer.Evict. by rewrite Hz. }
  rewrite (Evict_walks r Hnz). unfold LRUKReplacer.in_lists.
  destruct (LRUKReplacer.first_evictable _ (LRUKReplacer.lru_list_ r) 0)
    as [[pos z]|] eqn:H1.
  - intros [= <- <-]. simpl.
    destruct (first_evictable_Some _ _ _ _ _ H1) as (_ & Hl & _). rewrite Nat.sub_0_r in Hl.
    intros [Hy|Hy] Hne; [left; by eapply elem_of_delete_ne|by right].
  - destruct (LRUKReplacer.first_evictable _ (LRUKReplacer.lru_k_list_ r) 0)
      as [[pos z]|] eqn:H2; [|done].
    intros [= <- <-]. simpl.
    destruct (first_evictable_Some _ _ _ _ _ H2) as (_ & Hl & _). rewrite Nat.sub_0_r in Hl.
    intros [Hy|Hy] Hne; [by left|right; by eapply elem_of_delete_ne].
Qed.

Lemma RecordAccess_keeps_lists r f r' y :
  LRUKReplacer.RecordAccess r f = Done r' -> in_lists r y -> in_lists r' y.
Proof.
  intros Hacc Hy.
  destruct (RecordAccess_Done r f (RecordAccess_inv _ _ _ Hacc)) as (r2 & Hacc' & _ & _ & _ & _ & Hf & _).
  assert (r2 = r') as -> by congruence.
  destruct (decide (y = f)) as [->|Hne]; [done|].
  clear Hacc' Hf. unfold LRUKReplacer.RecordAccess in Hacc.
  destruct (f >? _); [done|]. unfold LRUKReplacer.in_lists in *.
  repeat case_match; simplify_eq; simpl;
    rewrite ?elem_of_app, ?elem_of_list_remove; tauto.
Qed.

(** The flagged frames are frames of the pool, so [Size] does not wrap. *)
Lemma flagged_count_le (m : gmap Z bool) (n : nat) :
  (forall f, is_Some (m !! f) -> 0 <= f < Z.of_nat n) ->
  Z.of_nat (size (filter (fun e : Z * bool => e.2 = true) m)) <= Z.of_nat n.
Proof.
  intros Hdom. apply inj_le.
  etrans; [apply map_subseteq_size, map_filter_subseteq|].
  assert (length (Z.of_nat <$> seq 0 n) = n) as Hn by (by rewrite length_fmap, length_seq).
  rewrite <- length_map_to_list, <- (length_fmap fst), <- Hn at 1.
  apply submseteq_length, NoDup_submseteq; [apply NoDup_fst_map_to_list|].
  intros f ([f' b] & -> & Hin%elem_of_map_to_list)%list_elem_of_fmap. simpl.
  destruct (Hdom f') as [H0 Hlt]; [eauto|].
  apply list_elem_of_fmap. exists (Z.to_nat f'). split; [lia|].
  apply elem_of_seq. lia.
Qed.


(** *** What [Evict] needs is kept without [DeletePage] *)

Lemma make_room_cases s f pages pt rep fl disk :
  make_room s = Done (f, pages, pt, rep, fl, disk) ->
  (free_list_ s = f :: fl /\ rep = replacer_ s) \/
  (free_list_ s = [] /\ fl = [] /\ LRUKReplacer.Evict (replacer_ s) = (rep, Some f)).
Proof.
  unfold make_room. destruct (free_list_ s) as [|front rest].
  - destruct (LRUKReplacer.Evict (replacer_ s)) as [r [x|]]; [|done].
    intros (pg & Hpg & Hk)%bind_Done.
    destruct (IsDirty pg); apply bind_Done in Hk as ([pt' b] & Hrem & Hk);
      injection Hk as <- <- <- <- <- <-; by right.
  - intros [= <- <- <- <- <- <-]. by left.
Qed.

Lemma pool_new_ready pool_size disk replacer_k bucket_size :
  Z.of_nat pool_size <= INT_MAX -> evict_ready (new pool_size disk replacer_k bucket_size).
Proof.
  intros Hsize. split; simpl.
  - done.
  - unfold flag. simpl. intros f. rewrite lookup_empty. by intros [? ?].
  - intros f [H0 Hlt] Hnot. exfalso. apply Hnot. rewrite length_replicate in Hlt.
    apply list_elem_of_fmap. exists (Z.to_nat f). split; [lia|]. apply elem_of_seq. lia.
  - by rewrite length_replicate.
Qed.

(** The second half of [NewPgImp] and of the miss path of [FetchPgImp]. *)
Lemma install_ready s f pages pt rep fl disk rep2 rep3 pg' pt' next disk' :
  bpm_inv s -> evict_ready s ->
  make_room s = Done (f, pages, pt, rep, fl, disk) ->
  LRUKReplacer.RecordAccess rep f = Done rep2 ->
  LRUKReplacer.SetEvictable rep2 f false = Done rep3 ->
  evict_ready (mk (set_page pages f pg') pt' rep3 fl next disk').
Proof.
  intros Hi He Hroom Hacc Hset.
  destruct (make_room_Done _ _ _ _ _ _ _ Hi Hroom)
    as (Hf & Hlen & _ & _ & _ & _ & _ & _ & Hflags & _).
  destruct (SetEvictable_Done rep2 f false (SetEvictable_inv _ _ _ _ Hset))
    as (r3 & Hset' & _ & _ & _ & Hlru3 & Hlruk3 & Hm3 & _).
  assert (r3 = rep3) as -> by congruence.
  destruct (RecordAccess_Done rep f (RecordAccess_inv _ _ _ Hacc))
    as (r2 & Hacc' & _ & _ & _ & Hm2 & Hin2 & _).
  assert (r2 = rep2) as -> by congruence.
  assert (forall g, in_lists rep2 g -> in_lists rep3 g) as Hkeep.
  { intros g. unfold LRUKReplacer.in_lists. by rewrite Hlru3, Hlruk3. }
  assert (LRUKReplacer.size_counts rep) as Hsize.
  { destruct (make_room_cases _ _ _ _ _ _ _ Hroom) as [[_ ->]|(_ & _ & HE)].
    - apply (er_size s He).
    - pose proof (Evict_size_counts (replacer_ s) (er_size s He)) as Hs.
      by rewrite HE in Hs. }
  split; simpl.
  - eapply SetEvictable_size_counts; [|done]. by eapply RecordAccess_size_counts.
  - unfold flag. simpl. intros g. rewrite Hm3, Hm2. rewrite frame_ok_set.
    destruct (decide (g = f)) as [->|Hne]; [intros _; by eapply frame_ok_length|].
    rewrite lookup_insert_ne by done. rewrite Hflags by done.
    intros Hg. eapply frame_ok_length; [done|]. by apply (er_flags s He).
  - intros g Hg Hnot. apply Hkeep. rewrite frame_ok_set in Hg.
    destruct (decide (g = f)) as [->|Hne]; [done|].
    eapply RecordAccess_keeps_lists; [done|].
    assert (frame_ok (pages_ s) g) as Hg'.
    { unfold frame_ok in *. by rewrite <- Hlen. }
    destruct (make_room_cases _ _ _ _ _ _ _ Hroom) as [[Hfl ->]|(Hfl & -> & HE)].
    + apply (er_lists s He g Hg'). rewrite Hfl. by apply not_elem_of_cons.
    + eapply Evict_keeps_lists; [done| |done].
      apply (er_lists s He g Hg'). rewrite Hfl. apply not_elem_of_nil.
  - rewrite set_page_length, Hlen. apply (er_pool s He).
Qed.

(** A call that rewrites one frame in place and, at most, sets its flag. *)
Lemma update_ready s f pg' pt' rep' next disk' (b : bool) :
  evict_ready s -> frame_ok (pages_ s) f ->
  LRUKReplacer.size_counts rep' ->
  (forall g, in_lists (replacer_ s) g -> in_lists rep' g) ->
  (LRUKReplacer.is_evictable_map rep' = LRUKReplacer.is_evictable_map (replacer_ s) \/
   LRUKReplacer.is_evictable_map rep' =
     <[f := b]> (LRUKReplacer.is_evictable_map (replacer_ s))) ->
  evict_ready (mk (set_page (pages_ s) f pg') pt' rep' (free_list_ s) next disk').
Proof.
  intros He Hf Hsize Hkeep Hm. split; simpl.
  - done.
  - unfold flag. simpl. intros g. rewrite frame_ok_set. destruct Hm as [->| ->].
    + apply (er_flags s He).
    + destruct (decide (g = f)) as [->|Hne]; [done|].
      rewrite lookup_insert_ne by done. apply (er_flags s He).
  - intros g Hg Hnot. apply Hkeep. rewrite frame_ok_set in Hg. by apply (er_lists s He).
  - rewrite set_page_length. apply (er_pool s He).
Qed.

Lemma NewPgImp_ready fuel s s' r :
  bpm_inv s -> evict_ready s -> NewPgImp fuel s = Done (s', r) -> evict_ready s'.
Proof.
  intros Hi He. rewrite NewPgImp_unfold.
  destruct (negb (has_avail_frame (pages_ s))); [by intros [= <- _]|].
  intros ([[[[[f pages] pt] rep] fl] disk] & Hroom & Hk)%bind_Done.
  apply bind_Done in Hk as (pt' & Hins & Hk).
  apply bind_Done in Hk as (pg & Hpg & Hk).
  apply bind_Done in Hk as (rep2 & Hacc & Hk).
  apply bind_Done in Hk as (rep3 & Hset & Hk).
  injection Hk as <- _. by eapply install_ready.
Qed.

Lemma FetchPgImp_ready fuel s page_id s' r :
  bpm_inv s -> evict_ready s -> FetchPgImp fuel s page_id = Done (s', r) -> evict_ready s'.
Proof.
  intros Hi He. rewrite FetchPgImp_unfold.
  intros ([t' [f|]] & HF & Hk)%bind_Done.
  - destruct (found_frame s page_id t' f Hi HF) as (pg & Hpg & Hok & _).
    rewrite Hpg in Hk. simpl in Hk.
    destruct (pin_count_ pg =? INT_MAX); [done|].
    apply bind_Done in Hk as (rep2 & Hacc & Hk).
    apply bind_Done in Hk as (rep3 & Hset & Hk). injection Hk as <- _.
    destruct (SetEvictable_Done rep2 f false (SetEvictable_inv _ _ _ _ Hset))
      as (r3 & Hset' & _ & _ & _ & Hlru3 & Hlruk3 & Hm3 & _).
    assert (r3 = rep3) as -> by congruence.
    destruct (RecordAccess_Done _ f (RecordAccess_inv _ _ _ Hacc))
      as (r2 & Hacc' & _ & _ & _ & Hm2 & _).
    assert (r2 = rep2) as -> by congruence.
    apply (update_ready s f _ _ rep3 _ _ false); [done|done| | |].
    + eapply SetEvictable_size_counts; [|done].
      eapply RecordAccess_size_counts; [|done]. apply (er_size s He).
    + intros g Hg. unfold LRUKReplacer.in_lists. rewrite Hlru3, Hlruk3.
      by eapply RecordAccess_keeps_lists.
    + right. by rewrite Hm3, Hm2.
  - destruct (negb (has_avail_frame (pages_ s))); [by injection Hk as <- _|].
    apply bind_Done in Hk as ([[[[[f pages] pt] rep] fl] disk] & Hroom & Hk).
    apply bind_Done in Hk as (pt' & Hins & Hk).
    apply bind_Done in Hk as (pg & Hpg & Hk).
    apply bind_Done in Hk as (rep2 & Hacc & Hk).
    apply bind_Done in Hk as (rep3 & Hset & Hk).
    injection Hk as <- _. by eapply install_ready.
Qed.

Lemma UnpinPgImp_ready s page_id is_dirty s' r :
  bpm_inv s -> evict_ready s ->
  UnpinPgImp s page_id is_dirty = Done (s', r) -> evict_ready s'.
Proof.
  intros Hi He. unfold UnpinPgImp.
  intros ([t' [f|]] & HF & Hk)%bind_Done; [|by injection Hk as <- _].
  destruct (found_frame s page_id t' f Hi HF) as (pg & Hpg & Hok & _).
  rewrite Hpg in Hk. simpl in Hk.
  destruct (GetPinCount pg =? 0); [by injection Hk as <- _|].
  destruct (pin_count_ pg =? INT_MIN); [done|].
  apply bind_Done in Hk as (rep' & Hrep & Hk). injection Hk as <- _.
  simpl in Hrep. destruct (pin_count_ pg - 1 =? 0).
  - destruct (SetEvictable_Done _ f true (SetEvictable_inv _ _ _ _ Hrep))
      as (r3 & Hset' & _ & _ & _ & Hlru3 & Hlruk3 & Hm3 & _).
    assert (r3 = rep') as -> by congruence.
    apply (update_ready s f _ _ rep' _ _ true); [done|done| | |].
    + eapply SetEvictable_size_counts; [|done]. apply (er_size s He).
    + intros g. unfold LRUKReplacer.in_lists. by rewrite Hlru3, Hlruk3.
    + by right.
  - injection Hrep as <-.
    apply (update_ready s f _ _ (replacer_ s) _ _ true); [done|done| |done|by left].
    apply (er_size s He).
Qed.

Lemma FlushPgImp_ready s page_id s' r :
  bpm_inv s -> evict_ready s -> FlushPgImp s page_id = Done (s', r) -> evict_ready s'.
Proof.
  intros Hi He. unfold FlushPgImp.
  intros ([t' [f|]] & HF & Hk)%bind_Done; [|by injection Hk as <- _].
  destruct (found_frame s page_id t' f Hi HF) as (pg & Hpg & Hok & _).
  rewrite Hpg in Hk. simpl in Hk. injection Hk as <- _.
  apply (update_ready s f _ _ (replacer_ s) _ _ true); [done|done| |done|by left].
  apply (er_size s He).
Qed.

Lemma without_Delete_reachable s : reachable_without_Delete s -> reachable s.
Proof.
  induction 1.
  - by apply reachable_new.
  - by eapply reachable_NewPage.
  - by eapply reachable_FetchPage.
  - by eapply reachable_UnpinPage.
  - by eapply reachable_FlushPage.
Qed.

Lemma without_Delete_ready s : reachable_without_Delete s -> evict_ready s.
Proof.
  induction 1 as [| fuel s s' r Hr IH Hs | fuel s page_id s' r Hr IH Hs
                  | s page_id is_dirty s' r Hr IH Hs | s page_id s' r Hr IH Hs];
    try pose proof (reachable_inv s (without_Delete_reachable s Hr)) as Hi.
  - by apply pool_new_ready.
  - by eapply NewPgImp_ready.
  - by eapply FetchPgImp_ready.
  - by eapply UnpinPgImp_ready.
  - by eapply FlushPgImp_ready.
Qed.

(** *** [NewPgImp] and [FetchPgImp] find their frame *)

Lemma make_room_defined s :
  bpm_inv s -> evict_ready s -> has_avail_frame (pages_ s) = true ->
  exists res, make_room s = Done res.
Proof.
  intros Hi He Hav. unfold make_room.
  destruct (free_list_ s) as [|front rest] eqn:Hfl; [|eauto].
  unfold has_avail_frame in Hav. apply existsb_exists in Hav as (pg & Hin & Hz).
  apply list_elem_of_In, list_elem_of_lookup in Hin as [i Hpg].
  unfold GetPinCount in Hz. apply Z.eqb_eq in Hz.
  assert (page_at (pages_ s) (Z.of_nat i) = Done pg) as Hat.
  { apply page_at_Done. rewrite Nat2Z.id. split; [lia|done]. }
  pose proof (page_at_frame_ok _ _ _ Hat) as Hok.
  assert (in_lists (replacer_ s) (Z.of_nat i)) as Hlist.
  { apply (er_lists s He); [done|]. rewrite Hfl. apply not_elem_of_nil. }
  destruct (inv_lists s Hi _ Hlist) as [_ [b Hb]].
  destruct (inv_pins s Hi _ _ Hat) as (_ & Hpin & _).
  assert (flag s (Z.of_nat i) = Some true) as Htrue.
  { destruct b; [done|]. apply Hpin in Hb. lia. }
  unfold flag in Htrue.
  assert (LRUKReplacer.curr_size_ (replacer_ s) <> 0) as Hnz.
  { rewrite (er_size s He). unfold LRUKReplacer.evictable_count.
    pose proof (flagged_count_le (LRUKReplacer.is_evictable_map (replacer_ s))
                  (length (pages_ s)) (er_flags s He)) as Hle.
    pose proof (er_pool s He) as Hpool. unfold INT_MAX in Hpool.
    assert (size (filter (fun e : Z * bool => e.2 = true)
                    (LRUKReplacer.is_evictable_map (replacer_ s))) <> 0%nat) as Hsz.
    { intros Hempty%map_size_empty_inv. apply flagged_lookup in Htrue.
      rewrite Hempty in Htrue. by rewrite lookup_empty in Htrue. }
    unfold LRUKReplacer.size_t_wrap. rewrite Z.mod_small; lia. }
  destruct (LRUKReplacer.Evict (replacer_ s)) as [r [x|]] eqn:HE.
  - destruct (Evict_victim _ _ _ HE) as (_ & Hin & _).
    destruct (inv_lists s Hi _ Hin) as [Hx _].
    destruct (page_at_ok _ _ Hx) as [pgx Hpgx]. rewrite Hpgx. simpl.
    destruct (Remove_total hash_page_id (page_table_ s) (GetPageId pgx) (inv_table s Hi))
      as (pt' & b' & Hrem).
    fold (pt_Remove (page_table_ s) (GetPageId pgx)) in Hrem.
    destruct (IsDirty pgx); rewrite Hrem; simpl; eauto.
  - destruct (Evict_none _ _ HE) as [Hz0|Hnone]; [done|].
    by destruct (Hnone _ Hlist).
Qed.

Lemma install_defined {R} fuel s f pages pt rep fl disk page_id
    (k : Page -> ExtendibleHashTable.Table Z Z -> LRUKReplacer.t -> R) :
  bpm_inv s -> make_room s = Done (f, pages, pt, rep, fl, disk) ->
  let call :=
    page_table ← pt_Insert fuel pt page_id f;
    pg ← page_at pages f;
    replacer ← LRUKReplacer.RecordAccess rep f;
    replacer ← LRUKReplacer.SetEvictable replacer f false;
    Done (k pg page_table replacer) in
  (exists res, call = Done res) \/ call = Unfinished.
Proof.
  intros Hi Hroom call. subst call.
  destruct (make_room_Done _ _ _ _ _ _ _ Hi Hroom)
    as (Hf & Hlen & Htab & _ & _ & Hsz & _).
  destruct (pt_Insert_defined fuel pt page_id f Htab) as [[pt' ->]| ->]; [|by right].
  simpl. left.
  destruct (page_at_ok pages f) as [pg ->]; [by eapply frame_ok_length|]. simpl.
  assert (f <= LRUKReplacer.to_int (LRUKReplacer.replacer_size_ rep)) as Hle.
  { rewrite Hsz, (inv_size s Hi). unfold frame_ok in Hf. lia. }
  destruct (RecordAccess_Done rep f Hle) as (rep2 & -> & Hsz2 & _). simpl.
  destruct (SetEvictable_Done rep2 f false) as (rep3 & -> & _); [by rewrite Hsz2|].
  simpl. eauto.
Qed.


(** X24 - As long as [DeletePage] is not called, [NewPage] and [FetchPage]
    always find their frame: in a state reached from a fresh pool by
    [NewPage], [FetchPage], [UnpinPage] and [FlushPage], [NewPage] returns,
    unless the split loop of the page table does not end, and so does
    [FetchPage], unless the page is resident with a pin count of [INT_MAX],
    which the increment overflows.  In particular [Evict] returns a victim
    whenever some frame is unpinned and the free list is empty, and no frame
    id is read before it is written. *)
Theorem NewPgImp_and_FetchPgImp_defined fuel s :
  reachable_without_Delete s ->
  ((exists res, NewPgImp fuel s = Done res) \/ NewPgImp fuel s = Unfinished) /\
  forall page_id,
    (exists res, FetchPgImp fuel s page_id = Done res) \/
    FetchPgImp fuel s page_id = Unfinished \/
    (FetchPgImp fuel s page_id = Undefined /\
     exists f pg, frame_of s page_id = Some f /\ page_at (pages_ s) f = Done pg /\
       pin_count_ pg = INT_MAX).
Proof.
  intros Hr. pose proof (without_Delete_ready s Hr) as He.
  pose proof (reachable_inv s (without_Delete_reachable s Hr)) as Hi.
  split.
  - rewrite NewPgImp_unfold.
    destruct (has_avail_frame (pages_ s)) eqn:Hav; simpl; [|eauto].
    destruct (make_room_defined s Hi He Hav)
      as ([[[[[f pages] pt] rep] fl] disk] & Hroom).
    rewrite Hroom. simpl.
    apply (install_defined fuel s f pages pt rep fl disk (next_page_id_ s)
             (fun pg page_table replacer =>
                (mk (set_page pages f (mkPage (data_ pg) (next_page_id_ s) 1 (is_dirty_ pg)))
                   page_table replacer fl (int_wrap (next_page_id_ s + 1)) disk,
                 Some (next_page_id_ s, f))) Hi Hroom).
  - intros page_id. rewrite FetchPgImp_unfold.
    rewrite (pt_Find_found _ page_id (inv_table s Hi)). simpl. unfold frame_of.
    destruct (found_in (page_table_ s) page_id) as [f|] eqn:Hfound.
    + pose proof (pt_Find_found _ page_id (inv_table s Hi)) as HF. rewrite Hfound in HF.
      destruct (found_frame s page_id _ f Hi HF) as (pg & Hpg & Hok & _ & Hle).
      rewrite Hpg. simpl. destruct (Z.eqb_spec (pin_count_ pg) INT_MAX) as [Hmax|_].
      * right. right. eauto 6.
      * left. destruct (RecordAccess_Done _ f Hle) as (rep2 & -> & Hsz2 & _). simpl.
        destruct (SetEvictable_Done rep2 f false) as (rep3 & -> & _); [by rewrite Hsz2|].
        simpl. eauto.
    + destruct (has_avail_frame (pages_ s)) eqn:Hav; simpl; [|eauto].
      destruct (make_room_defined s Hi He Hav)
        as ([[[[[f pages] pt] rep] fl] disk] & Hroom).
      rewrite Hroom. simpl.
      destruct (install_defined fuel s f pages pt rep fl disk page_id
                  (fun pg page_table replacer =>
                     (mk (set_page pages f
                            (mkPage (ReadPage disk page_id) page_id 1 (is_dirty_ pg)))
                        page_table replacer fl (next_page_id_ s) disk,
                      Some f)) Hi Hroom) as [Hd|Hu]; [by left|right; by left].
Qed.

(** *** Concrete runs *)

Lemma one_page_without_Delete : reachable_without_Delete one_page.
Proof.
  apply (without_Delete_NewPage 64 (new 2 ∅ 2 4) one_page (Some (0, 0))).
  - apply without_Delete_new. vm_compute. congruence.
  - vm_compute. reflexivity.
Defined.

Lemma NewPgImp_and_FetchPgImp_defined_witness :
  (exists res, NewPgImp 64 one_page = Done res) \/ NewPgImp 64 one_page = Unfinished.
Proof.
  apply (NewPgImp_and_FetchPgImp_defined 64 one_page), one_page_without_Delete.
Defined.

End BufferPoolDefined.
